(** * spotify_client.py: the recall-and-resolve pipeline

    A shallow embedding of [SpotifyClient] and [SpotifySuperClient]
    (src/spotify_mcp_server/spotify_client.py).

    The Python code talks to two services (spotipy for the streaming
    account, httpx for the TiVo metadata catalogue) and to the process-wide
    random generator.  All three are made explicit:

    - every call to a service is answered by an oracle that sees the whole
      trace of earlier calls and answers, so any sequence of responses
      (including raised exceptions) is some oracle;
    - the random generator is a supply of raw draws carried in the state;
    - a Python exception is the [Raises] outcome of a computation.

    Dictionaries coming from the services are records holding the keys the
    code reads. *)

From Stdlib Require Import List String Ascii ZArith Lia Bool Arith PeanoNat.
From Stdlib Require Import DecimalString DecimalPos DecimalZ Permutation.
Import ListNotations.
Local Open Scope string_scope.
Local Open Scope list_scope.

(** ** Outcomes of Python computations *)

Inductive Outcome (A : Type) : Type :=
| Returns (value : A)
| Raises (exn : string).
Arguments Returns {A} value.
Arguments Raises {A} exn.

(** ** Data of the primary service (dictionaries of the Web API) *)

Record Artist := { artist_id : string; artist_name : string }.

Record Track := {
  track_id : string;
  track_name : string;
  track_artists : list Artist;
  track_duration_ms : Z }.

Record Album := { album_artists : list Artist }.
Record Playlist := { playlist_id : string }.
Record User := { user_id : string }.

(** Payloads the client hands on without looking inside. *)
Inductive Raw := RawJson (text : string).

(** A page of results: the ['items'] key. *)
Record Paging (A : Type) := { items : list A }.
Arguments items {A} _.

Record PlayHistory := { played_track : Track }.      (* item['track'] *)
(** [item['track']] of a playlist item is null when the track is no longer
    available. *)
Record PlaylistItem := { item_track : option Track }.
Record SavedTrack := { saved_track : Track }.        (* item['track'] *)
Record SavedAlbum := { saved_album : Album }.        (* item['album'] *)
Record SearchResult := { found_tracks : Paging Track }.      (* results['tracks'] *)
Record Followed := { followed_artists : Paging Artist }.     (* artists['artists'] *)
Record Devices := { devices : list Raw }.
Record SeveralTracks := { several_tracks : list Track }.     (* tracks['tracks'] *)

(** ** Data of the secondary catalogue (TiVo) *)

Record TivoTrack := { tivo_track_id : string; title : string }.

(** One element of ['hits']; the ['tracks'] key is only present in album
    lookups. *)
Record TivoHit := { hit_id : string; hit_tracks : option (list TivoTrack) }.

(** [response.json()]: ['hits'] is a list or null. *)
Record TivoData := { hits : option (list TivoHit) }.

(** ** The spotipy client: its methods and what they return *)

Module sp.
Inductive Request : Type :=
| current_user
| current_playback
| current_user_playlists (limit offset : Z)
| queue
| search (q : string) (type : string) (limit : Z)
| start_playback (uris : option (list string)) (context_uri : option string)
| pause_playback
| next_track
| previous_track
| current_user_recently_played (limit : Z)
| current_user_top_tracks (time_range : string) (limit : Z)
| user_playlist_create (user name description : string) (public : bool)
| playlist_add_items (playlist_id : string) (items : list string)
| playlist_tracks (playlist_id : string) (limit offset : Z)
| devices
| transfer_playback (device_id : string) (play : bool)
| volume (volume_percent : Z)
| shuffle (state : bool)
| repeat (state : string)
| current_user_top_artists (time_range : string) (limit : Z)
| current_user_saved_albums (limit offset : Z)
| current_user_saved_tracks (limit offset : Z)
| current_user_followed_artists (limit : Z) (type : string) (after : option string)
| tracks (track_ids : list string)
| album_tracks (album_id : string) (limit offset : Z).

Definition Response (r : Request) : Type :=
  match r with
  | current_user => User
  | current_playback => option Raw
  | current_user_playlists _ _ => Paging Playlist
  | queue => Raw
  | search _ _ _ => SearchResult
  | start_playback _ _ => unit
  | pause_playback => unit
  | next_track => unit
  | previous_track => unit
  | current_user_recently_played _ => Paging PlayHistory
  | current_user_top_tracks _ _ => Paging Track
  | user_playlist_create _ _ _ _ => Playlist
  | playlist_add_items _ _ => unit
  | playlist_tracks _ _ _ => Paging PlaylistItem
  | devices => Devices
  | transfer_playback _ _ => unit
  | volume _ => unit
  | shuffle _ => unit
  | repeat _ => unit
  | current_user_top_artists _ _ => Paging Artist
  | current_user_saved_albums _ _ => Paging SavedAlbum
  | current_user_saved_tracks _ _ => Paging SavedTrack
  | current_user_followed_artists _ _ _ => Followed
  | tracks _ => SeveralTracks
  | album_tracks _ _ _ => Paging Raw
  end.
End sp.

(** ** Traces, oracles and the state of a run *)

Inductive Event : Type :=
| SpCall (r : sp.Request) (answer : Outcome (sp.Response r))
| HttpGet (url : string) (answer : Outcome TivoData).

(** The two services: each answer may depend on everything that happened
    before. *)
Record Env := {
  spotipy : list Event -> forall r : sp.Request, Outcome (sp.Response r);
  httpx_get : list Event -> string -> Outcome TivoData }.

(** The process-wide random generator, as far as the client can tell: the
    raw draws it hands out first and, for when these are used up, the
    number from which it goes on counting.  Whatever the draws listed, every
    residue keeps coming up later on, which is what the rejection loops of
    the library rely on to end. *)
Record Supply := { draws : list nat; beyond : nat }.

(** What a run carries along: the trace so far and the random generator. *)
Record World := { trace : list Event; rng : Supply }.

Definition M (A : Type) : Type := World -> Outcome A * World.

Definition ret {A} (a : A) : M A := fun w => (Returns a, w).

Definition bind {A B} (m : M A) (k : A -> M B) : M B :=
  fun w => match m w with
           | (Returns a, w') => k a w'
           | (Raises e, w') => (Raises e, w')
           end.

Definition raise {A} (e : string) : M A := fun w => (Raises e, w).

(** [try: body  except Exception as e: handler(str(e))] *)
Definition try_except {A} (body : M A) (handler : string -> M A) : M A :=
  fun w => match body w with
           | (Returns a, w') => (Returns a, w')
           | (Raises e, w') => handler e w'
           end.

Notation "x <- m ;; k" := (bind m (fun x => k))
  (at level 61, m at next level, right associativity).
Notation "' p <- m ;; k" := (bind m (fun x => let p := x in k))
  (at level 61, p pattern, m at next level, right associativity).

(** [for x in xs: body], the loop variables being threaded as [s]. *)
Fixpoint for_each {X S} (xs : list X) (body : X -> S -> M S) (s : S) : M S :=
  match xs with
  | [] => ret s
  | x :: xs' => s' <- body x s ;; for_each xs' body s'
  end.

(** ** Python built-ins used by the client *)

(** [str(n)] for a length and for an int. *)
Definition str_nat (n : nat) : string := NilEmpty.string_of_uint (Nat.to_uint n).
Definition str_int (z : Z) : string := NilZero.string_of_int (Z.to_int z).

(** [f"{n:02d}"]: the decimal digits, padded with zeros to two
    characters, the sign (if any) counting as one of them. *)
Definition pad_zeros (width : nat) (digits : string) : string :=
  String.concat "" (List.repeat "0" (width - String.length digits)) ++ digits.

Definition format_02d (n : Z) : string :=
  if (n <? 0)%Z then "-" ++ pad_zeros 1 (str_int (- n))
  else pad_zeros 2 (str_int n).

(** [x in xs] on strings. *)
Definition mem (x : string) (xs : list string) : bool :=
  existsb (String.eqb x) xs.

(** [s.replace(old, new)] for a one-character [old]. *)
Fixpoint replace_char (old : ascii) (new : string) (s : string) : string :=
  match s with
  | EmptyString => EmptyString
  | String c s' =>
      if Ascii.eqb c old then new ++ replace_char old new s'
      else String c (replace_char old new s')
  end.

(** [xs[i] = v] for an index in range (out of range the list is unchanged;
    the callers below stay in range). *)
Fixpoint list_set {A} (i : nat) (v : A) (xs : list A) : list A :=
  match xs, i with
  | [], _ => []
  | _ :: xs', O => v :: xs'
  | x :: xs', S i' => x :: list_set i' v xs'
  end.

(** ** The [random] module

    Library code, modelled after CPython (Lib/random.py).  [randbelow]
    consumes one raw draw.  [random.sample] checks [0 <= k <= n] and then
    selects in one of two ways: for a population of at most [setsize]
    elements from a pool
    ([j = randbelow(n-i); result[i] = pool[j]; pool[j] = pool[n-i-1]]),
    for a larger one by drawing positions and drawing again when a position
    was selected before
    ([j = randbelow(n); while j in selected: j = randbelow(n)]).
    [random.shuffle] is the Fisher-Yates loop
    ([for i in reversed(range(1, len(x))): j = randbelow(i+1); swap]). *)

Definition next_draw (s : Supply) : nat * Supply :=
  match draws s with
  | d :: ds => (d, {| draws := ds; beyond := beyond s |})
  | [] => (beyond s, {| draws := []; beyond := S (beyond s) |})
  end.

Definition randbelow (n : nat) : M nat :=
  fun w => (Returns (Nat.modulo (fst (next_draw (rng w))) n),
            {| trace := trace w; rng := snd (next_draw (rng w)) |}).

(** [_ceil(_log(m, 4))]: the least [e] with [4 ** e >= m].  (The library
    computes it in floating point; [m] is [3 * k] here, never a power of
    four, so the rounding cannot reach an integer for any sample size a list
    can have.) *)
Fixpoint ceil_log4_from (tries e m : nat) : nat :=
  match tries with
  | O => e
  | S tries' => if (m <=? 4 ^ e)%nat then e else ceil_log4_from tries' (S e) m
  end.

Definition ceil_log4 (m : nat) : nat := ceil_log4_from m 0 m.

(** [setsize = 21; if k > 5: setsize += 4 ** _ceil(_log(k * 3, 4))] *)
Definition setsize (k : nat) : nat :=
  if (5 <? k)%nat then 21 + 4 ^ ceil_log4 (k * 3) else 21.

(** [if n <= setsize]: the pool. *)
Fixpoint sample_loop {A} (k : nat) (pool result : list A) : M (list A) :=
  match k with
  | O => ret result
  | S k' =>
      j <- randbelow (List.length pool) ;;
      match nth_error pool j, nth_error pool (List.length pool - 1) with
      | Some x, Some y =>
          sample_loop k' (firstn (List.length pool - 1) (list_set j y pool))
                      (result ++ [x])
      | _, _ => raise "IndexError: list index out of range"
      end
  end.

(** [j in selected] *)
Definition selected_mem (j : nat) (selected : list nat) : bool :=
  existsb (Nat.eqb j) selected.

(** [j = randbelow(n); while j in selected: j = randbelow(n)].  The loop
    has no bound in the library; [turns] is one for the definition: the
    generator brings a position that is not selected within as many draws
    as it has listed plus [n], so the callers below pass that number and the
    last branch is never reached (see [draw_unselected_spec]). *)
Fixpoint draw_unselected (turns n : nat) (selected : list nat) : M nat :=
  j <- randbelow n ;;
  if selected_mem j selected
  then match turns with
       | S turns' => draw_unselected turns' n selected
       | O => ret j
       end
  else ret j.

(** [else]: the set of selected positions. *)
Fixpoint sample_set_loop {A} (k : nat) (population : list A)
    (selected : list nat) (result : list A) : M (list A) :=
  match k with
  | O => ret result
  | S k' =>
      let n := List.length population in
      j <- (fun w => draw_unselected (List.length (draws (rng w)) + n) n selected w) ;;
      match nth_error population j with
      | Some x => sample_set_loop k' population (j :: selected) (result ++ [x])
      | None => raise "IndexError: list index out of range"
      end
  end.

Definition random_sample {A} (population : list A) (k : Z) : M (list A) :=
  let n := List.length population in
  if ((k <? 0) || (Z.of_nat n <? k))%Z
  then raise "ValueError: Sample larger than population or is negative"
  else if (n <=? setsize (Z.to_nat k))%nat
       then sample_loop (Z.to_nat k) population []
       else sample_set_loop (Z.to_nat k) population [] [].

Definition swap {A} (i j : nat) (x : list A) : list A :=
  match nth_error x i, nth_error x j with
  | Some xi, Some xj => list_set j xi (list_set i xj x)
  | _, _ => x
  end.

Fixpoint shuffle_loop {A} (i : nat) (x : list A) : M (list A) :=
  match i with
  | O => ret x
  | S i' => j <- randbelow (i + 1) ;; shuffle_loop i' (swap i j x)
  end.

Definition random_shuffle {A} (x : list A) : M (list A) :=
  shuffle_loop (List.length x - 1) x.

(** ** Result envelopes

    [{"success": True, "data": d, "message": m}] and
    [{"success": False, "error": e, "message": m}].  Operations whose
    success dictionary has no ["data"] key carry [tt]. *)

Inductive Envelope (A : Type) : Type :=
| Success (data : A) (message : string)
| Failure (error : string) (message : string).
Arguments Success {A} data message.
Arguments Failure {A} error message.

Definition success {A} (e : Envelope A) : bool :=
  match e with Success _ _ => true | Failure _ _ => false end.

(** ** class SpotifyClient *)

Section SpotifyClient.
Variable env : Env.

(** [self.sp.<method>(...)]: ask the oracle, record the exchange. *)
Definition sp_call (r : sp.Request) : M (sp.Response r) :=
  fun w =>
    let answer := spotipy env (trace w) r in
    (answer, {| trace := trace w ++ [SpCall r answer]; rng := rng w |}).

(** [response = await client.get(url); data = response.json()], up to the
    reading of [data['hits']]: the answer is the decoded body; a request
    that fails, a body that is not JSON and a body without the ['hits'] key
    all raise at this point, and are the [Raises] answers. *)
Definition client_get (url : string) : M TivoData :=
  fun w =>
    let answer := httpx_get env (trace w) url in
    (answer, {| trace := trace w ++ [HttpGet url answer]; rng := rng w |}).

Definition get_user_profile : M (Envelope User) :=
  try_except
    (user <- sp_call sp.current_user ;;
     ret (Success user "Successfully retrieved user profile"))
    (fun e => ret (Failure e "Failed to get user profile")).

Definition get_current_playback : M (Envelope (option Raw)) :=
  try_except
    (playback <- sp_call sp.current_playback ;;
     match playback with
     | None => ret (Success None "No content is currently playing")
     | Some _ => ret (Success playback "Successfully retrieved playback status")
     end)
    (fun e => ret (Failure e "Failed to get playback status")).

Definition get_user_playlists (limit offset : Z) : M (Envelope (Paging Playlist)) :=
  try_except
    (playlists <- sp_call (sp.current_user_playlists limit offset) ;;
     ret (Success playlists
            ("Successfully retrieved playlists, total: "
               ++ str_nat (List.length (items playlists)))))
    (fun e => ret (Failure e "Failed to get playlists")).

Definition get_queue : M (Envelope Raw) :=
  try_except
    (queue <- sp_call sp.queue ;;
     ret (Success queue "Successfully retrieved playback queue"))
    (fun e => ret (Failure e "Failed to get queue")).

Definition search_tracks (query : string) (limit : Z) : M (Envelope SearchResult) :=
  try_except
    (results <- sp_call (sp.search query "track" limit) ;;
     ret (Success results
            ("Search successful, found "
               ++ str_nat (List.length (items (found_tracks results)))
               ++ " tracks")))
    (fun e => ret (Failure e "Search failed")).

Definition play_track (track_uri : string) : M (Envelope unit) :=
  try_except
    (_ <- sp_call (sp.start_playback (Some [track_uri]) None) ;;
     ret (Success tt ("Started playing track: " ++ track_uri)))
    (fun e => ret (Failure e "Playback failed")).

Definition play_playlist (playlist_uri : string) : M (Envelope unit) :=
  try_except
    (_ <- sp_call (sp.start_playback None (Some playlist_uri)) ;;
     ret (Success tt ("Started playing playlist: " ++ playlist_uri)))
    (fun e => ret (Failure e "Playlist playback failed")).

Definition pause_playback : M (Envelope unit) :=
  try_except
    (_ <- sp_call sp.pause_playback ;;
     ret (Success tt "Playback paused"))
    (fun e => ret (Failure e "Failed to pause")).

Definition resume_playback : M (Envelope unit) :=
  try_except
    (_ <- sp_call (sp.start_playback None None) ;;
     ret (Success tt "Playback resumed"))
    (fun e => ret (Failure e "Failed to resume playback")).

Definition skip_to_next : M (Envelope unit) :=
  try_except
    (_ <- sp_call sp.next_track ;;
     ret (Success tt "Skipped to next track"))
    (fun e => ret (Failure e "Failed to skip to next track")).

Definition skip_to_previous : M (Envelope unit) :=
  try_except
    (_ <- sp_call sp.previous_track ;;
     ret (Success tt "Skipped to previous track"))
    (fun e => ret (Failure e "Failed to skip to previous track")).

Definition get_recently_played (limit : Z) : M (Envelope (Paging PlayHistory)) :=
  try_except
    (recent <- sp_call (sp.current_user_recently_played limit) ;;
     ret (Success recent
            ("Successfully retrieved recently played, total: "
               ++ str_nat (List.length (items recent)) ++ " tracks")))
    (fun e => ret (Failure e "Failed to get recently played")).

Definition get_top_tracks (time_range : string) (limit : Z) : M (Envelope (Paging Track)) :=
  try_except
    (top_tracks <- sp_call (sp.current_user_top_tracks time_range limit) ;;
     ret (Success top_tracks
            ("Successfully retrieved top tracks, total: "
               ++ str_nat (List.length (items top_tracks)) ++ " tracks")))
    (fun e => ret (Failure e "Failed to get top tracks")).

Definition create_playlist (name description : string) (public : bool)
  : M (Envelope Playlist) :=
  try_except
    (user <- sp_call sp.current_user ;;
     playlist <- (sp_call (sp.user_playlist_create (user_id user) name description public)
                    : M Playlist) ;;
     ret (Success playlist ("Playlist '" ++ name ++ "' created successfully")))
    (fun e => ret (Failure e "Failed to create playlist")).

Definition add_tracks_to_playlist (playlist_id : string) (track_uris : list string)
  : M (Envelope unit) :=
  try_except
    (_ <- sp_call (sp.playlist_add_items playlist_id track_uris) ;;
     ret (Success tt
            ("Successfully added " ++ str_nat (List.length track_uris)
               ++ " tracks to playlist")))
    (fun e => ret (Failure e "Failed to add tracks")).

Definition get_playlist_tracks (playlist_id : string) (limit offset : Z)
  : M (Envelope (Paging PlaylistItem)) :=
  try_except
    (tracks <- sp_call (sp.playlist_tracks playlist_id limit offset) ;;
     ret (Success tracks
            ("Successfully retrieved playlist tracks, total: "
               ++ str_nat (List.length (items tracks)) ++ " tracks")))
    (fun e => ret (Failure e "Failed to get playlist tracks")).

Definition get_available_devices : M (Envelope Devices) :=
  try_except
    (devs <- sp_call sp.devices ;;
     ret (Success devs
            ("Successfully retrieved device list, total: "
               ++ str_nat (List.length (devices devs)) ++ " devices")))
    (fun e => ret (Failure e "Failed to get device list")).

Definition transfer_playback (device_id : string) (play : bool) : M (Envelope unit) :=
  try_except
    (_ <- sp_call (sp.transfer_playback device_id play) ;;
     ret (Success tt ("Playback transferred to device: " ++ device_id)))
    (fun e => ret (Failure e "Failed to transfer playback")).

Definition set_volume (volume_percent : Z) : M (Envelope unit) :=
  try_except
    (_ <- sp_call (sp.volume volume_percent) ;;
     ret (Success tt ("Volume set to " ++ str_int volume_percent ++ "%")))
    (fun e => ret (Failure e "Failed to set volume")).

Definition toggle_shuffle (state : bool) : M (Envelope unit) :=
  try_except
    (_ <- sp_call (sp.shuffle state) ;;
     ret (Success tt
            ("Shuffle mode " ++ (if state then "enabled" else "disabled"))))
    (fun e => ret (Failure e "Failed to toggle shuffle")).

Definition set_repeat_mode (state : string) : M (Envelope unit) :=
  try_except
    (_ <- sp_call (sp.repeat state) ;;
     ret (Success tt ("Repeat mode set to: " ++ state)))
    (fun e => ret (Failure e "Failed to set repeat mode")).

(** [@staticmethod format_duration]: [//] and [%] round towards minus
    infinity, as [Z.div] and [Z.modulo] do for a positive divisor. *)
Definition format_duration (ms : Z) : string :=
  let seconds := (ms / 1000)%Z in
  let minutes := (seconds / 60)%Z in
  let seconds := (seconds mod 60)%Z in
  str_int minutes ++ ":" ++ format_02d seconds.

(** [@staticmethod format_track_info] *)
Definition format_track_info (track : Track) : string :=
  let artists := String.concat ", " (map artist_name (track_artists track)) in
  let duration := format_duration (track_duration_ms track) in
  track_name track ++ " - " ++ artists ++ " (" ++ duration ++ ")".

Definition get_top_artists (time_range : string) (limit : Z) : M (Envelope (Paging Artist)) :=
  try_except
    (top_artists <- sp_call (sp.current_user_top_artists time_range limit) ;;
     ret (Success top_artists
            ("Successfully retrieved top artists, total: "
               ++ str_nat (List.length (items top_artists)) ++ " artists")))
    (fun e => ret (Failure e "Failed to get top artists")).

Definition get_saved_albums (limit offset : Z) : M (Envelope (Paging SavedAlbum)) :=
  try_except
    (albums <- sp_call (sp.current_user_saved_albums limit offset) ;;
     ret (Success albums
            ("Successfully retrieved saved albums, total: "
               ++ str_nat (List.length (items albums)) ++ " albums")))
    (fun e => ret (Failure e "Failed to get saved albums")).

Definition get_saved_tracks (limit offset : Z) : M (Envelope (Paging SavedTrack)) :=
  try_except
    (tracks <- sp_call (sp.current_user_saved_tracks limit offset) ;;
     ret (Success tracks
            ("Successfully retrieved saved tracks, total: "
               ++ str_nat (List.length (items tracks)) ++ " tracks")))
    (fun e => ret (Failure e "Failed to get saved tracks")).

(** [if after: kwargs["after"] = after]: [None] and the empty string are
    both left out. *)
Definition get_followed_artists (limit : Z) (after : option string) : M (Envelope Followed) :=
  try_except
    (let kwargs_after :=
       match after with
       | Some "" => None
       | Some a => Some a
       | None => None
       end in
     artists <- sp_call (sp.current_user_followed_artists limit "artist" kwargs_after) ;;
     ret (Success artists
            ("Successfully retrieved followed artists, total: "
               ++ str_nat (List.length (items (followed_artists artists)))
               ++ " artists")))
    (fun e => ret (Failure e "Failed to get followed artists")).

Definition get_tracks (track_ids : list string) : M (Envelope SeveralTracks) :=
  try_except
    (tracks <- sp_call (sp.tracks track_ids) ;;
     ret (Success tracks
            ("Successfully retrieved "
               ++ str_nat (List.length (several_tracks tracks)) ++ " tracks")))
    (fun e => ret (Failure e "Failed to get tracks")).

Definition get_album_tracks (album_id : string) (limit offset : Z)
  : M (Envelope (Paging Raw)) :=
  try_except
    (tracks <- sp_call (sp.album_tracks album_id limit offset) ;;
     ret (Success tracks
            ("Successfully retrieved tracks for album " ++ album_id
               ++ ", total: " ++ str_nat (List.length (items tracks)) ++ " tracks")))
    (fun e => ret (Failure e ("Failed to get tracks for album " ++ album_id))).

(** *** The secondary catalogue *)

Definition tivo_api : string :=
  "https://tivomusicapi-staging-elb.digitalsmiths.net/sd/tivomusicapi/taps/v3".

Definition artist_search_url (artist_name : string) : string :=
  tivo_api ++ "/search/artist?name=" ++ artist_name
    ++ "&limit=1&includeAllFields=false".

Definition discography_url (artist_id : string) : string :=
  tivo_api ++ "/lookup/discography?nameId=" ++ artist_id
    ++ "&limit=10&includeAllFields=false".

Definition album_url (album_id : string) : string :=
  tivo_api ++ "/lookup/album?albumId=" ++ album_id ++ "&limit=10".

Definition get_tivo_artist_ids (artist_names : list string) : M (list string) :=
  for_each artist_names
    (fun artist_name artist_ids =>
       let artist_name := replace_char " " "+" artist_name in
       let url := artist_search_url artist_name in
       data <- client_get url ;;
       match hits data with
       | Some (hit :: _) => ret (artist_ids ++ [hit_id hit])
       | _ => ret artist_ids                                   (* continue *)
       end)
    [].

(** [d[k] = v] on an insertion-ordered dictionary. *)
Fixpoint dict_set {V} (k : string) (v : V) (d : list (string * V))
  : list (string * V) :=
  match d with
  | [] => [(k, v)]
  | (k', v') :: d' =>
      if String.eqb k' k then (k', v) :: d' else (k', v') :: dict_set k v d'
  end.

Fixpoint dict_get {V} (k : string) (d : list (string * V)) : option V :=
  match d with
  | [] => None
  | (k', v') :: d' => if String.eqb k' k then Some v' else dict_get k d'
  end.

Definition get_tivo_artist_album_ids (artist_ids : list string)
  : M (list (string * list string)) :=
  for_each artist_ids
    (fun artist_id artist_album_dict =>
       let url := discography_url artist_id in
       data <- client_get url ;;
       match hits data with
       | Some (hit :: rest) =>
           ret (dict_set artist_id (map hit_id (firstn 2 (hit :: rest)))
                  artist_album_dict)
       | _ => ret artist_album_dict                            (* continue *)
       end)
    [].

Definition get_tivo_tracks_in_albums (album_ids : list string) : M (list TivoTrack) :=
  for_each album_ids
    (fun album_id tivo_tracks =>
       let url := album_url album_id in
       data <- client_get url ;;
       match hits data with
       | Some (hit :: _) =>
           match hit_tracks hit with
           | Some tracks =>
               if (10 <? List.length tracks)%nat
               then sampled <- random_sample tracks 10 ;;
                    ret (tivo_tracks ++ sampled)
               else ret (tivo_tracks ++ tracks)
           | None => ret tivo_tracks                           (* continue *)
           end
       | _ => ret tivo_tracks                                  (* continue *)
       end)
    [].

Definition get_tivo_tracks_in_artist_album_dict
    (artist_album_dict : list (string * list string)) : M (list TivoTrack) :=
  for_each artist_album_dict
    (fun '(artist_id, album_ids) tivo_tracks =>
       more <- get_tivo_tracks_in_albums album_ids ;;
       ret (tivo_tracks ++ more))
    [].

End SpotifyClient.

(** ** class SpotifySuperClient(SpotifyClient) *)

Record RecallData := { tracks : list Track }.

Record FillData := {
  fill_tracks : list Track;               (* 'tracks' *)
  fill_track_ids : list string;           (* 'track_ids' *)
  fill_artist_names : list string }.      (* 'artist_names' *)

Section SpotifySuperClient.
Variable self : Env.

(** What [None["artists"]] raises. *)
Definition not_subscriptable : string :=
  "TypeError: 'NoneType' object is not subscriptable".

(** [artist_ids.append(artist["id"]); artist_names.append(artist["name"])] *)
Definition append_artist (acc : list string * list string) (artist : Artist)
  : list string * list string :=
  (fst acc ++ [artist_id artist], snd acc ++ [artist_name artist]).

(** [for artist in artists: ...append...] *)
Definition append_artists (acc : list string * list string) (artists : list Artist)
  : list string * list string :=
  fold_left append_artist artists acc.

(** Lines 649-719: the seven sources, in order, filling the two parallel
    lists [artist_ids] and [artist_names]. *)
Definition collect_artists
    (top_limit recent_limit playlist_limit album_limit saved_tracks_limit : Z)
  : M (list string * list string) :=
  let acc := ([], []) in
  (* 1. recently played *)
  recent <- get_recently_played self recent_limit ;;
  let acc :=
    match recent with
    | Success data _ =>
        fold_left (fun acc item => append_artists acc (track_artists (played_track item)))
                  (items data) acc
    | Failure _ _ => acc
    end in
  (* 2. top tracks *)
  top_tracks <- get_top_tracks self "long_term" top_limit ;;
  let acc :=
    match top_tracks with
    | Success data _ =>
        fold_left (fun acc track => append_artists acc (track_artists track))
                  (items data) acc
    | Failure _ _ => acc
    end in
  (* 3. top artists *)
  top_artists <- get_top_artists self "long_term" top_limit ;;
  let acc :=
    match top_artists with
    | Success data _ => append_artists acc (items data)
    | Failure _ _ => acc
    end in
  (* 4. follow artists *)
  let after := None in
  followed <- get_followed_artists self 3 after ;;
  let acc :=
    match followed with
    | Success data _ => append_artists acc (items (followed_artists data))
    | Failure _ _ => acc
    end in
  (* 5. all artist of playlist *)
  let offset := 0%Z in
  playlists <- get_user_playlists self 3 offset ;;
  acc <-
    match playlists with
    | Success data _ =>
        for_each (items data)
          (fun playlist acc =>
             let track_offset := 0%Z in
             tracks_result <-
               get_playlist_tracks self (playlist_id playlist) 3 track_offset ;;
             match tracks_result with
             | Success data _ =>
                 let track_items := items data in
                 for_each track_items
                   (fun item acc =>
                      let track := item_track item in
                      match track with
                      | Some track => ret (append_artists acc (track_artists track))
                      | None => raise not_subscriptable   (* track["artists"] *)
                      end)
                   acc
             | Failure _ _ => ret acc
             end)
          acc
    | Failure _ _ => ret acc
    end ;;
  (* 6. artist of saved albums *)
  let offset := 0%Z in
  saved_albums <- get_saved_albums self 3 offset ;;
  let acc :=
    match saved_albums with
    | Success data _ =>
        fold_left (fun acc item => append_artists acc (album_artists (saved_album item)))
                  (items data) acc
    | Failure _ _ => acc
    end in
  (* 7. artists of saved tracks *)
  let offset := 0%Z in
  saved_tracks <- get_saved_tracks self 3 offset ;;
  let acc :=
    match saved_tracks with
    | Success data _ =>
        fold_left (fun acc item => append_artists acc (track_artists (saved_track item)))
                  (items data) acc
    | Failure _ _ => acc
    end in
  ret acc.

(** Lines 721-728: [for (artist_id, artist_name) in zip(...)]. *)
Definition deduplicate (artist_ids artist_names : list string)
  : list string * list string :=
  fold_left
    (fun result '(artist_id, artist_name) =>
       if negb (mem artist_id (fst result))
       then (fst result ++ [artist_id], snd result ++ [artist_name])
       else result)
    (combine artist_ids artist_names)
    ([], []).

Definition recall_artists
    (top_limit recent_limit playlist_limit album_limit saved_tracks_limit : Z)
  : M (list string * list string) :=
  '(artist_ids, artist_names) <-
    collect_artists top_limit recent_limit playlist_limit album_limit
                    saved_tracks_limit ;;
  (* de-duplicate artist ids and names *)
  ret (deduplicate artist_ids artist_names).

Definition recall_all_tracks : M (Envelope RecallData) :=
  (* 1. recall artist *)
  '(_, artist_names) <- recall_artists 5 5 5 5 5 ;;
  (* 2. spotify id to tivo id, artist to album to tracks *)
  artist_ids <- get_tivo_artist_ids self (firstn 3 artist_names) ;;
  artist_album_dict <- get_tivo_artist_album_ids self artist_ids ;;
  tivo_tracks <- get_tivo_tracks_in_artist_album_dict self artist_album_dict ;;
  tivo_tracks <- random_shuffle tivo_tracks ;;
  let recall_track_titles := map title tivo_tracks in
  let search_track_ids : list string := [] in
  (* 3. track titles to spotify track by search *)
  search_tracks' <-
    for_each recall_track_titles
      (fun track_title search_tracks' =>
         search_track <- search_tracks self track_title 1 ;;
         match search_track with
         | Success data _ =>
             match items (found_tracks data) with
             | search_item :: _ =>
                 if mem (track_id search_item) search_track_ids
                 then ret search_tracks'                        (* continue *)
                 else ret (search_tracks' ++ [search_item])
             | [] => ret search_tracks'
             end
         | Failure _ _ => ret search_tracks'
         end)
      [] ;;
  search_tracks' <- random_shuffle search_tracks' ;;
  ret (Success {| tracks := search_tracks' |} "Successfully recall tracks").

Definition random_fill (num_tracks : Z) : M (Envelope FillData) :=
  (* 1. recall artist *)
  '(_, artist_names) <- recall_artists 5 5 5 5 5 ;;
  (* 2. spotify id to tivo id, artist to album to tracks *)
  artist_ids <- get_tivo_artist_ids self artist_names ;;
  artist_album_dict <- get_tivo_artist_album_ids self artist_ids ;;
  tivo_tracks <- get_tivo_tracks_in_artist_album_dict self artist_album_dict ;;
  tivo_tracks <-
    random_sample tivo_tracks (Z.min num_tracks (Z.of_nat (List.length tivo_tracks))) ;;
  let recall_track_titles := map title tivo_tracks in
  (* 3. track titles to spotify track by search *)
  '(search_tracks', search_track_ids, search_artist_names) <-
    for_each recall_track_titles
      (fun track_title '(search_tracks', search_track_ids, search_artist_names) =>
         search_track <- search_tracks self track_title 1 ;;
         match search_track with
         | Success data _ =>
             match items (found_tracks data) with
             | search_item :: _ =>
                 ret (search_tracks' ++ [search_item],
                      search_track_ids ++ [track_id search_item],
                      search_artist_names
                        ++ [String.concat ", "
                              (map artist_name (track_artists search_item))])
             | [] => ret (search_tracks', search_track_ids, search_artist_names)
             end
         | Failure _ _ => ret (search_tracks', search_track_ids, search_artist_names)
         end)
      ([], [], []) ;;
  ret (Success {| fill_tracks := search_tracks';
                  fill_track_ids := search_track_ids;
                  fill_artist_names := search_artist_names |}
               "Successfully random fill").

End SpotifySuperClient.
(** ** A small concrete service, used to run the pipeline *)

(** One top artist; the catalogue knows one album of two tracks with the
    two titles given; every title search answers with the same first
    result when [same_result] is set, and with a track named after the
    query otherwise. *)
Definition daft_punk : Artist :=
  {| artist_id := "4tZwfgrHOc3mvqYlEYSvVi"; artist_name := "Daft Punk" |}.

Definition one_more_time : Track :=
  {| track_id := "0DiWol3AO6WpXZgp0goxAV"; track_name := "One More Time";
     track_artists := [daft_punk]; track_duration_ms := 320357 |}.

Definition discovery : TivoHit :=
  {| hit_id := "MW0000012345";
     hit_tracks := Some [ {| tivo_track_id := "MT1"; title := "One More Time" |};
                          {| tivo_track_id := "MT2"; title := "One More Time (Radio Edit)" |} ] |}.

Definition demo_spotipy (h : list Event) (r : sp.Request) : Outcome (sp.Response r) :=
  match r as r0 return Outcome (sp.Response r0) with
  | sp.current_user_top_artists _ _ => Returns {| items := [daft_punk] |}
  | sp.search _ _ _ => Returns {| found_tracks := {| items := [one_more_time] |} |}
  | _ => Raises "http status: 429"
  end.

Definition demo_httpx_get (h : list Event) (url : string) : Outcome TivoData :=
  if String.eqb url (artist_search_url "Daft+Punk")
  then Returns {| hits := Some [ {| hit_id := "MN0000667669"; hit_tracks := None |} ] |}
  else if String.eqb url (discography_url "MN0000667669")
  then Returns {| hits := Some [ {| hit_id := "MW0000012345"; hit_tracks := None |} ] |}
  else if String.eqb url (album_url "MW0000012345")
  then Returns {| hits := Some [discovery] |}
  else Returns {| hits := Some [] |}.

Definition demo_env : Env :=
  {| spotipy := demo_spotipy; httpx_get := demo_httpx_get |}.

Definition start : World :=
  {| trace := []; rng := {| draws := []; beyond := 0 |} |}.

(** A primary service on which only the top artists can be read. *)
Definition justice : Artist :=
  {| artist_id := "1gR0gsQYfi6joyO1dlp76N"; artist_name := "Justice" |}.

Definition top_artists_only : Env :=
  {| spotipy := fun h r =>
       match r as r0 return Outcome (sp.Response r0) with
       | sp.current_user_top_artists _ _ => Returns {| items := [daft_punk; justice] |}
       | _ => Raises "http status: 429"
       end;
     httpx_get := demo_httpx_get |}.

(** A primary service with one playlist, whose track page lists an item
    that has lost its track; the other sources fail. *)
Definition unavailable_item : Env :=
  {| spotipy := fun h r =>
       match r as r0 return Outcome (sp.Response r0) with
       | sp.current_user_playlists _ _ =>
           Returns {| items := [ {| playlist_id := "37i9dQZF1DXcBWIGoYBM5M" |} ] |}
       | sp.playlist_tracks _ _ _ =>
           Returns {| items := [ {| item_track := Some one_more_time |};
                                 {| item_track := None |} ] |}
       | _ => Raises "http status: 429"
       end;
     httpx_get := demo_httpx_get |}.

(** A primary service with one playlist of one track; the other sources
    fail. *)
Definition one_playlist : Env :=
  {| spotipy := fun h r =>
       match r as r0 return Outcome (sp.Response r0) with
       | sp.current_user_playlists _ _ =>
           Returns {| items := [ {| playlist_id := "37i9dQZF1DXcBWIGoYBM5M" |} ] |}
       | sp.playlist_tracks _ _ _ =>
           Returns {| items := [ {| item_track := Some one_more_time |} ] |}
       | _ => Raises "http status: 429"
       end;
     httpx_get := demo_httpx_get |}.

(** A catalogue whose albums all have the same twelve tracks. *)
Definition twelve_tracks : list TivoTrack :=
  map (fun i => {| tivo_track_id := "MT" ++ str_nat i; title := "Track " ++ str_nat i |})
      (seq 1 12).

Definition box_set : Env :=
  {| spotipy := demo_spotipy;
     httpx_get := fun h url =>
       Returns {| hits := Some [ {| hit_id := "MW0000099999";
                                    hit_tracks := Some twelve_tracks |} ] |} |}.

(** A primary service whose top tracks and top artists name the same
    artist identifier differently. *)
Definition two_spellings : Env :=
  {| spotipy := fun h r =>
       match r as r0 return Outcome (sp.Response r0) with
       | sp.current_user_top_tracks _ _ => Returns {| items := [one_more_time] |}
       | sp.current_user_top_artists _ _ =>
           Returns {| items := [ {| artist_id := artist_id daft_punk;
                                    artist_name := "DAFT PUNK" |}; justice ] |}
       | _ => Raises "http status: 429"
       end;
     httpx_get := demo_httpx_get |}.


(** ** Vocabulary of the statements *)

(** A computation that hands a value back whatever the state it starts in:
    no exception leaves it. *)
Definition never_raises {A} (m : M A) : Prop :=
  forall w, exists a w', m w = (Returns a, w').

(** The secondary catalogue answers every request (no transport failure,
    no malformed body). *)
Definition transport_ok (env : Env) : Prop :=
  forall h url, exists data, httpx_get env h url = Returns data.

(** The state after one more exchange with a service. *)
Definition observed (w : World) (ev : Event) : World :=
  {| trace := trace w ++ [ev]; rng := rng w |}.

(** The exchanges of a loop that asks the catalogue once per key, each
    request answered. *)
Definition lookups (url : string -> string) (keys : list string)
    (answers : list TivoData) : list Event :=
  map (fun '(key, data) => HttpGet (url key) (Returns data)) (combine keys answers).

(** The shape shared by the three catalogue operations: one request per
    key, then an update of the value under construction. *)
Definition lookup_loop {S} (env : Env) (url : string -> string)
    (step : string -> TivoData -> S -> M S) (keys : list string) : S -> M S :=
  for_each keys (fun key s => data <- client_get env (url key) ;; step key data s).

(** The updates of such a loop strung together: [after key data s s']
    relates the value before and after the update for the answer [data]. *)
Inductive chain {S} (after : string -> TivoData -> S -> S -> Prop)
  : list string -> list TivoData -> S -> S -> Prop :=
| chain_nil s : chain after [] [] s s
| chain_cons key keys data answers s s1 s2 :
    after key data s s1 ->
    chain after keys answers s1 s2 ->
    chain after (key :: keys) (data :: answers) s s2.

(** The URLs requested from the catalogue, in order. *)
Definition requested_urls (evs : list Event) : list string :=
  flat_map (fun ev => match ev with HttpGet url _ => [url] | SpCall _ _ => [] end) evs.

Definition has_hits (data : TivoData) : bool :=
  match hits data with Some (_ :: _) => true | _ => false end.

(** What one artist lookup adds to the list of identifiers. *)
Definition first_hit_id (data : TivoData) : list string :=
  match hits data with Some (hit :: _) => [hit_id hit] | _ => [] end.

(** One update of the artist-to-albums dictionary: an answer with hits
    sets the artist's entry to one or two album identifiers, an answer
    without hits leaves the dictionary alone. *)
Definition album_ids_after (artist_id : string) (data : TivoData)
    (d d' : list (string * list string)) : Prop :=
  if has_hits data
  then exists album_ids,
      d' = dict_set artist_id album_ids d
      /\ 1 <= List.length album_ids <= 2
  else d' = d.

(** What an album lookup may add to the candidate tracks: with [N] tracks
    on the first hit, ten of them taken from distinct positions when
    [N > 10], all [N] otherwise; nothing without a hit or without a
    ['tracks'] key. *)
Definition album_contribution (data : TivoData) (contribution : list TivoTrack) : Prop :=
  match hits data with
  | Some (hit :: _) =>
      match hit_tracks hit with
      | Some tracks =>
          if (10 <? List.length tracks)%nat
          then List.length contribution = 10%nat
               /\ exists rest, Permutation (contribution ++ rest) tracks
          else contribution = tracks
      | None => contribution = []
      end
  | _ => contribution = []
  end.

(** Percent-escaping of a query value as the specification words it
    ("name is percent-escaped, spaces become +"): letters, digits and
    [-._~] stand for themselves, a space becomes [+], every other
    character becomes [%XX]. *)
Definition unreserved (c : ascii) : bool :=
  let n := nat_of_ascii c in
  ((65 <=? n)%nat && (n <=? 90)%nat) || ((97 <=? n)%nat && (n <=? 122)%nat)
  || ((48 <=? n)%nat && (n <=? 57)%nat)
  || Ascii.eqb c "-" || Ascii.eqb c "." || Ascii.eqb c "_" || Ascii.eqb c "~".

Definition hex_digit (n : nat) : ascii :=
  match String.get n "0123456789ABCDEF" with Some c => c | None => "0"%char end.

Fixpoint spec_percent_escaped (s : string) : string :=
  match s with
  | EmptyString => EmptyString
  | String c s' =>
      (if unreserved c then String c EmptyString
       else if Ascii.eqb c " " then "+"
       else String "%" (String (hex_digit (nat_of_ascii c / 16))
                          (String (hex_digit (nat_of_ascii c mod 16)) EmptyString)))
      ++ spec_percent_escaped s'
  end.

(** *** The aggregator, source by source

    What each of the seven sources contributes: the artists met in its
    answer, in the nested order of the answer; nothing when the source
    failed. *)

Definition from_recent (recent : Envelope (Paging PlayHistory)) : list Artist :=
  match recent with
  | Success data _ => flat_map (fun item => track_artists (played_track item)) (items data)
  | Failure _ _ => []
  end.

Definition from_top_tracks (top_tracks : Envelope (Paging Track)) : list Artist :=
  match top_tracks with
  | Success data _ => flat_map track_artists (items data)
  | Failure _ _ => []
  end.

Definition from_top_artists (top_artists : Envelope (Paging Artist)) : list Artist :=
  match top_artists with
  | Success data _ => items data
  | Failure _ _ => []
  end.

Definition from_followed (followed : Envelope Followed) : list Artist :=
  match followed with
  | Success data _ => items (followed_artists data)
  | Failure _ _ => []
  end.

Definition item_artists (item : PlaylistItem) : list Artist :=
  match item_track item with
  | Some track => track_artists track
  | None => []
  end.

Definition from_playlist_tracks (tracks_result : Envelope (Paging PlaylistItem))
  : list Artist :=
  match tracks_result with
  | Success data _ => flat_map item_artists (items data)
  | Failure _ _ => []
  end.

Definition from_saved_albums (saved_albums : Envelope (Paging SavedAlbum)) : list Artist :=
  match saved_albums with
  | Success data _ => flat_map (fun item => album_artists (saved_album item)) (items data)
  | Failure _ _ => []
  end.

Definition from_saved_tracks (saved_tracks : Envelope (Paging SavedTrack)) : list Artist :=
  match saved_tracks with
  | Success data _ => flat_map (fun item => track_artists (saved_track item)) (items data)
  | Failure _ _ => []
  end.

(** The same, read off the exchange with the primary service: a request
    that failed yields no artist, and so does a request that is not one of
    the sources. *)
Definition answered {A} (answer : Outcome A) (artists : A -> list Artist) : list Artist :=
  match answer with
  | Returns payload => artists payload
  | Raises _ => []
  end.

Definition source_artists (ev : Event) : list Artist :=
  match ev with
  | SpCall r answer =>
      match r as r0 return Outcome (sp.Response r0) -> list Artist with
      | sp.current_user_recently_played _ =>
          fun answer =>
            answered answer
              (fun page => flat_map (fun item => track_artists (played_track item))
                                    (items page))
      | sp.current_user_top_tracks _ _ =>
          fun answer => answered answer (fun page => flat_map track_artists (items page))
      | sp.current_user_top_artists _ _ =>
          fun answer => answered answer (fun page => items page)
      | sp.current_user_followed_artists _ _ _ =>
          fun answer => answered answer (fun data => items (followed_artists data))
      | sp.playlist_tracks _ _ _ =>
          fun answer => answered answer (fun page => flat_map item_artists (items page))
      | sp.current_user_saved_albums _ _ =>
          fun answer =>
            answered answer
              (fun page => flat_map (fun item => album_artists (saved_album item))
                                    (items page))
      | sp.current_user_saved_tracks _ _ =>
          fun answer =>
            answered answer
              (fun page => flat_map (fun item => track_artists (saved_track item))
                                    (items page))
      | _ => fun _ => []
      end answer
  | HttpGet _ _ => []
  end.

(** One computation per element, results in order. *)
Fixpoint map_each {X Y} (xs : list X) (f : X -> M Y) : M (list Y) :=
  match xs with
  | [] => ret []
  | x :: xs' => y <- f x ;; ys <- map_each xs' f ;; ret (y :: ys)
  end.

Definition has_track (item : PlaylistItem) : bool :=
  match item_track item with Some _ => true | None => false end.

(** The track page of a playlist as the aggregator reads it: the request
    for the first three tracks, then the walk through the items of a page
    that came, which ends in a [TypeError] when an item has no track. *)
Definition read_playlist_tracks (self : Env) (playlist : Playlist)
  : M (Envelope (Paging PlaylistItem)) :=
  tracks_result <- get_playlist_tracks self (playlist_id playlist) 3 0 ;;
  match tracks_result with
  | Success data _ =>
      if forallb has_track (items data) then ret tracks_result
      else raise not_subscriptable
  | Failure _ _ => ret tracks_result
  end.

(** No track page of a playlist lists an item whose track is null. *)
Definition tracks_present (env : Env) : Prop :=
  forall h playlist_id limit offset page,
    spotipy env h (sp.playlist_tracks playlist_id limit offset) = Returns page ->
    forallb has_track (items page) = true.

(** The seven sources queried in their fixed order, and the artists they
    yield put end to end. *)
Definition seven_sources (self : Env) (top_limit recent_limit : Z) : M (list Artist) :=
  recent <- get_recently_played self recent_limit ;;
  top_tracks <- get_top_tracks self "long_term" top_limit ;;
  top_artists <- get_top_artists self "long_term" top_limit ;;
  followed <- get_followed_artists self 3 None ;;
  playlists <- get_user_playlists self 3 0 ;;
  playlist_tracks <-
    match playlists with
    | Success data _ =>
        map_each (items data) (read_playlist_tracks self)
    | Failure _ _ => ret []
    end ;;
  saved_albums <- get_saved_albums self 3 0 ;;
  saved_tracks <- get_saved_tracks self 3 0 ;;
  ret (from_recent recent ++ from_top_tracks top_tracks
         ++ from_top_artists top_artists ++ from_followed followed
         ++ flat_map from_playlist_tracks playlist_tracks
         ++ from_saved_albums saved_albums ++ from_saved_tracks saved_tracks).

(** The two parallel lists a list of artists stands for. *)
Definition ids_and_names (artists : list Artist) : list string * list string :=
  (map artist_id artists, map artist_name artists).

(** [j] is the first position of [all] holding an artist with the
    identifier of [artist]. *)
Definition first_occurrence (all : list Artist) (j : nat) (artist : Artist) : Prop :=
  nth_error all j = Some artist
  /\ forall j' earlier,
      j' < j -> nth_error all j' = Some earlier ->
      artist_id earlier <> artist_id artist.

(** A list of positions that goes upwards. *)
Definition increasing (js : list nat) : Prop :=
  forall i1 i2 j1 j2,
    i1 < i2 -> nth_error js i1 = Some j1 -> nth_error js i2 = Some j2 -> j1 < j2.

(** [ids] and [names] are [all] cut down to the first occurrence of every
    identifier: position [i] of the result comes from position [js[i]] of
    [all], these positions go upwards, and each is the first one holding
    its identifier. *)
Definition first_occurrences_kept (all : list Artist) (ids names : list string) : Prop :=
  exists js,
    List.length js = List.length ids
    /\ List.length names = List.length ids
    /\ increasing js
    /\ forall i j,
        nth_error js i = Some j ->
        exists artist,
          first_occurrence all j artist
          /\ nth_error ids i = Some (artist_id artist)
          /\ nth_error names i = Some (artist_name artist).

(** The body of the de-duplication loop, on an artist. *)
Definition keep_first (result : list string * list string) (artist : Artist)
  : list string * list string :=
  if negb (mem (artist_id artist) (fst result))
  then (fst result ++ [artist_id artist], snd result ++ [artist_name artist])
  else result.

(** Every exchange a computation adds to the trace satisfies [P]. *)
Definition emits (P : Event -> Prop) {A} (m : M A) : Prop :=
  forall w, exists evs, trace (snd (m w)) = trace w ++ evs /\ Forall P evs.

(** The [limit] argument of the queries on playlists, playlist tracks,
    saved albums and saved tracks. *)
Definition library_query_limit (ev : Event) : option Z :=
  match ev with
  | SpCall (sp.current_user_playlists limit _) _ => Some limit
  | SpCall (sp.playlist_tracks _ limit _) _ => Some limit
  | SpCall (sp.current_user_saved_albums limit _) _ => Some limit
  | SpCall (sp.current_user_saved_tracks limit _) _ => Some limit
  | _ => None
  end.

(** The exchanges of a loop that searches the primary service once per
    title, with [limit=1]. *)
Definition searches (titles : list string) (answers : list (Outcome SearchResult))
  : list Event :=
  map (fun p : string * Outcome SearchResult =>
         SpCall (sp.search (fst p) "track" 1) (snd p))
      (combine titles answers).

(** What one title search yields: the first result, if the search
    succeeded and found anything. *)
Definition first_result (answer : Outcome SearchResult) : list Track :=
  match answer with
  | Returns results =>
      match items (found_tracks results) with
      | search_item :: _ => [search_item]
      | [] => []
      end
  | Raises _ => []
  end.

(** [', '.join([artist['name'] for artist in search_item['artists']])] *)
Definition joined_artist_names (search_item : Track) : string :=
  String.concat ", " (map artist_name (track_artists search_item)).

(** *** Choosing at random

    [random.sample] turns the draws of the generator into a choice of
    positions.  A draw that is below the bound it is drawn against is handed
    on by [randbelow] as it is; such draws being independent and each
    uniform below its bound, two choices are equally likely when the
    sequences of draws leading to the one can be matched, one to one and
    length for length, with the sequences leading to the other. *)

(** An ordered choice of [k] different positions below [n]. *)
Definition selection (n k : nat) (positions : list nat) : Prop :=
  List.length positions = k
  /\ NoDup positions
  /\ Forall (fun j => j < n) positions.

(** [ys] holds the elements of [xs] at the positions [js], in the order of
    [js]. *)
Definition taken_at {A} (xs : list A) (js : list nat) (ys : list A) : Prop :=
  Forall2 (fun j y => nth_error xs j = Some y) js ys.

(** The draws [ds] are below the bounds of [random.sample] for [k] out of
    [n]: in the pool branch one draw per element, against [n], [n-1], ...;
    in the set branch any number of draws, each against [n]. *)
Definition drawn_in_range (n k : nat) (ds : list nat) : Prop :=
  if (n <=? setsize k)%nat
  then Forall2 lt ds (map (fun i => n - i) (seq 0 k))
  else Forall (fun d => d < n) ds.

(** The draws [ds] make [random.sample] choose the positions [s] among
    [n], and it uses all of them and no other: on a generator listing just
    [ds] it returns [s], leaves nothing of the list and has not counted
    beyond it. *)
Definition chosen_by (n k : nat) (ds s : list nat) : Prop :=
  drawn_in_range n k ds
  /\ forall tr b,
      random_sample (seq 0 n) (Z.of_nat k)
                    {| trace := tr; rng := {| draws := ds; beyond := b |} |}
      = (Returns s, {| trace := tr; rng := {| draws := []; beyond := b |} |}).

(** [random.sample] for [k] out of [n] chooses uniformly: what it returns
    is a choice of [k] different positions, every such choice is returned
    for some draws, and for any two choices the sequences of draws leading
    to the one and to the other are matched by a bijection that keeps the
    length. *)
Definition equally_likely (n k : nat) : Prop :=
  (forall ds s, chosen_by n k ds s -> selection n k s)
  /\ (forall s, selection n k s -> exists ds, chosen_by n k ds s)
  /\ forall s1 s2,
      selection n k s1 -> selection n k s2 ->
      exists f g : list nat -> list nat,
        (forall ds,
            chosen_by n k ds s1 ->
            chosen_by n k (f ds) s2
            /\ List.length (f ds) = List.length ds /\ g (f ds) = ds)
        /\ (forall ds,
               chosen_by n k ds s2 ->
               chosen_by n k (g ds) s1
               /\ List.length (g ds) = List.length ds /\ f (g ds) = ds).

(** The exchange of two positions. *)
Definition transpose (a b x : nat) : nat :=
  if (x =? a)%nat then b else if (x =? b)%nat then a else x.

(** *** Reading a formatted duration back

    The inverse of [format_duration]: the text before the colon and the
    text after it read as decimal integers, minutes and seconds. *)
Fixpoint before_colon (text : string) : string :=
  match text with
  | EmptyString => EmptyString
  | String c rest => if Ascii.eqb c ":" then EmptyString else String c (before_colon rest)
  end.

Fixpoint after_colon (text : string) : string :=
  match text with
  | EmptyString => EmptyString
  | String c rest => if Ascii.eqb c ":" then rest else after_colon rest
  end.

Definition parse_int (digits : string) : option Z :=
  option_map Z.of_int (NilZero.int_of_string digits).

Definition parse_duration (text : string) : option Z :=
  match parse_int (before_colon text), parse_int (after_colon text) with
  | Some minutes, Some seconds => Some (60 * minutes + seconds)%Z
  | _, _ => None
  end.

(** A Facade operation that is one request: issued once with the request
    [r], the payload of the answer handed on through [payload], a raised
    exception turned into the failure envelope carrying its text. *)
Definition one_request {A} (env : Env) (r : sp.Request)
    (payload : sp.Response r -> A) (m : M (Envelope A)) : Prop :=
  forall w,
    exists envelope,
      m w = (Returns envelope, observed w (SpCall r (spotipy env (trace w) r)))
      /\ match spotipy env (trace w) r with
         | Returns x => exists message, envelope = Success (payload x) message
         | Raises e => exists message, envelope = Failure e message
         end.

(** A secondary catalogue that cannot be reached. *)
Definition catalogue_down : Env :=
  {| spotipy := demo_spotipy;
     httpx_get := fun h url => Raises "ConnectError: All connection attempts failed" |}.

(** A primary service that cannot be reached. *)
Definition primary_down : Env :=
  {| spotipy := fun h r => Raises "http status: 503";
     httpx_get := demo_httpx_get |}.

(** The update of [get_tivo_tracks_in_albums] for one answer (the part of
    the loop body after the request). *)
Definition add_album_tracks (data : TivoData) (tivo_tracks : list TivoTrack)
  : M (list TivoTrack) :=
  match hits data with
  | Some (hit :: _) =>
      match hit_tracks hit with
      | Some tracks =>
          if (10 <? List.length tracks)%nat
          then sampled <- random_sample tracks 10 ;;
               ret (tivo_tracks ++ sampled)
          else ret (tivo_tracks ++ tracks)
      | None => ret tivo_tracks
      end
  | _ => ret tivo_tracks
  end.

(** The outcome of a run, with [acc] put in front of the list it
    returned. *)
Definition prefixed {A} (acc : list A) (run : Outcome (list A) * World)
  : Outcome (list A) * World :=
  match run with
  | (Returns xs, w) => (Returns (acc ++ xs), w)
  | (Raises e, w) => (Raises e, w)
  end.

(** The update of [get_tivo_artist_album_ids] for one answer, to the
    letter. *)
Definition set_album_ids (artist_id : string) (data : TivoData)
    (d d' : list (string * list string)) : Prop :=
  d' = match hits data with
       | Some (hit :: rest) => dict_set artist_id (map hit_id (firstn 2 (hit :: rest))) d
       | _ => d
       end.

(** The requests made to the primary service, in order. *)
Definition sp_requests (evs : list Event) : list sp.Request :=
  flat_map (fun ev => match ev with SpCall r _ => [r] | HttpGet _ _ => [] end) evs.

(** The queries of the title searches, in order. *)
Definition search_queries (evs : list Event) : list string :=
  flat_map (fun r => match r with sp.search q _ _ => [q] | _ => [] end) (sp_requests evs).

(** The playlists an answer to the playlists request lists. *)
Definition listed_playlists (answer : Outcome (Paging Playlist)) : list Playlist :=
  match answer with
  | Returns page => items page
  | Raises _ => []
  end.

(** [c in s] for a character. *)
Fixpoint contains_char (c : ascii) (s : string) : bool :=
  match s with
  | EmptyString => false
  | String c' s' => Ascii.eqb c' c || contains_char c s'
  end.

(** A primary service that knows the user and creates playlists. *)
Definition account : Env :=
  {| spotipy := fun h r =>
       match r as r0 return Outcome (sp.Response r0) with
       | sp.current_user => Returns {| user_id := "wizzler" |}
       | sp.user_playlist_create user name _ _ =>
           Returns {| playlist_id := "3cEYpjA9oz9GiPac4AsH4n" |}
       | _ => Raises "http status: 429"
       end;
     httpx_get := demo_httpx_get |}.

(** * Properties *)

(** ** The monad *)

Lemma bind_returns {A B} (m : M A) (k : A -> M B) w a w1 :
  m w = (Returns a, w1) -> bind m k w = k a w1.
Proof. intros H. unfold bind. now rewrite H. Qed.

Lemma bind_raises {A B} (m : M A) (k : A -> M B) w e w1 :
  m w = (Raises e, w1) -> bind m k w = (Raises e, w1).
Proof. intros H. unfold bind. now rewrite H. Qed.

Lemma bind_inv {A B} (m : M A) (k : A -> M B) w b w2 :
  bind m k w = (Returns b, w2) ->
  exists a w1, m w = (Returns a, w1) /\ k a w1 = (Returns b, w2).
Proof.
  unfold bind. destruct (m w) as [[a | e] w1]; intros H.
  - now exists a, w1.
  - discriminate.
Qed.

Lemma bind_assoc {A B C} (m : M A) (k : A -> M B) (k' : B -> M C) w :
  bind (bind m k) k' w = bind m (fun a => bind (k a) k') w.
Proof. unfold bind. destruct (m w) as [[a | e] w1]; reflexivity. Qed.

Lemma bind_ret_l {A B} (a : A) (k : A -> M B) w : bind (ret a) k w = k a w.
Proof. reflexivity. Qed.

Lemma bind_ext {A B} (m : M A) (k k' : A -> M B) w :
  (forall a w1, k a w1 = k' a w1) -> bind m k w = bind m k' w.
Proof.
  intros H. unfold bind. destruct (m w) as [[a | e] w1]; [apply H | reflexivity].
Qed.

Lemma for_each_app {X S} (xs ys : list X) (body : X -> S -> M S) s w :
  for_each (xs ++ ys) body s w
  = bind (for_each xs body s) (for_each ys body) w.
Proof.
  revert s w. induction xs as [| x xs IH]; intros s w; simpl.
  - reflexivity.
  - unfold bind. destruct (body x s w) as [[s1 | e] w1].
    + rewrite IH. reflexivity.
    + reflexivity.
Qed.

Lemma never_raises_ret {A} (a : A) : never_raises (ret a).
Proof. intros w. now exists a, w. Qed.

Lemma never_raises_bind {A B} (m : M A) (k : A -> M B) :
  never_raises m -> (forall a, never_raises (k a)) -> never_raises (bind m k).
Proof.
  intros Hm Hk w. destruct (Hm w) as (a & w1 & E).
  destruct (Hk a w1) as (b & w2 & E2).
  exists b, w2. now rewrite (bind_returns _ k _ _ _ E).
Qed.

Lemma never_raises_for_each {X S} (xs : list X) (body : X -> S -> M S) :
  (forall x s, never_raises (body x s)) ->
  forall s, never_raises (for_each xs body s).
Proof.
  intros Hb. induction xs as [| x xs IH]; intros s; simpl.
  - apply never_raises_ret.
  - apply never_raises_bind; [apply Hb | exact IH].
Qed.

(** Whatever the body does, a [try/except] whose handler only builds the
    failure dictionary hands a value back. *)
Lemma never_raises_try_except {A} (body : M A) (handler : string -> M A) :
  (forall e, never_raises (handler e)) -> never_raises (try_except body handler).
Proof.
  intros Hh w. unfold try_except.
  destruct (body w) as [[a | e] w1].
  - now exists a, w1.
  - apply Hh.
Qed.

(** ** The Account Facade *)

Ltac facade_boundary :=
  intros; apply never_raises_try_except; intros; apply never_raises_ret.

(** [C6] Every operation of the Account Facade returns an envelope
    (success with payload, or failure with message) for every behaviour of
    the primary service, raised exceptions included: no exception passes
    the Facade. *)
Theorem facade_never_raises (env : Env) :
  never_raises (get_user_profile env)
  /\ never_raises (get_current_playback env)
  /\ (forall limit offset, never_raises (get_user_playlists env limit offset))
  /\ never_raises (get_queue env)
  /\ (forall query limit, never_raises (search_tracks env query limit))
  /\ (forall track_uri, never_raises (play_track env track_uri))
  /\ (forall playlist_uri, never_raises (play_playlist env playlist_uri))
  /\ never_raises (pause_playback env)
  /\ never_raises (resume_playback env)
  /\ never_raises (skip_to_next env)
  /\ never_raises (skip_to_previous env)
  /\ (forall limit, never_raises (get_recently_played env limit))
  /\ (forall time_range limit, never_raises (get_top_tracks env time_range limit))
  /\ (forall name description public,
        never_raises (create_playlist env name description public))
  /\ (forall playlist_id track_uris,
        never_raises (add_tracks_to_playlist env playlist_id track_uris))
  /\ (forall playlist_id limit offset,
        never_raises (get_playlist_tracks env playlist_id limit offset))
  /\ never_raises (get_available_devices env)
  /\ (forall device_id play, never_raises (transfer_playback env device_id play))
  /\ (forall volume_percent, never_raises (set_volume env volume_percent))
  /\ (forall state, never_raises (toggle_shuffle env state))
  /\ (forall state, never_raises (set_repeat_mode env state))
  /\ (forall time_range limit, never_raises (get_top_artists env time_range limit))
  /\ (forall limit offset, never_raises (get_saved_albums env limit offset))
  /\ (forall limit offset, never_raises (get_saved_tracks env limit offset))
  /\ (forall limit after, never_raises (get_followed_artists env limit after))
  /\ (forall track_ids, never_raises (get_tracks env track_ids))
  /\ (forall album_id limit offset,
        never_raises (get_album_tracks env album_id limit offset)).
Proof.
  repeat split; facade_boundary.
Qed.

(** Each Facade operation built from one call is the same shape: the
    answer of the service decides the envelope, and the exchange is
    recorded. *)
Lemma one_call_envelope env (r : sp.Request) {A}
      (on_success : sp.Response r -> Envelope A) (on_failure : string -> Envelope A) w :
  try_except (x <- sp_call env r ;; ret (on_success x))
             (fun e => ret (on_failure e)) w
  = (Returns match spotipy env (trace w) r with
             | Returns x => on_success x
             | Raises e => on_failure e
             end,
     observed w (SpCall r (spotipy env (trace w) r))).
Proof.
  unfold try_except, bind, sp_call, ret, observed.
  destruct (spotipy env (trace w) r); reflexivity.
Qed.

(** ** The [random] module *)

Lemma last_to_front {A} (l : list A) y n :
  S n = List.length l ->
  nth_error l n = Some y ->
  Permutation (y :: firstn n l) l.
Proof.
  revert n. induction l as [| a l IH]; intros n Hn H.
  - discriminate.
  - destruct n as [| n]; simpl in *.
    + injection H as ->. destruct l; [apply Permutation_refl | discriminate].
    + eapply perm_trans; [apply perm_swap |].
      apply perm_skip. apply IH; [lia | exact H].
Qed.

(** One step of the pool selection: taking [pool[j]] out and moving the
    last element into its place leaves the other elements. *)
Lemma pool_step {A} (pool : list A) j x y n :
  S n = List.length pool ->
  nth_error pool j = Some x ->
  nth_error pool n = Some y ->
  Permutation (x :: firstn n (list_set j y pool)) pool.
Proof.
  revert j n. induction pool as [| a pool IH]; intros j n Hn Hx Hy.
  - discriminate.
  - destruct n as [| n]; simpl in Hn.
    + destruct pool; [| discriminate].
      destruct j as [| j]; simpl in *.
      * injection Hx as ->. apply Permutation_refl.
      * destruct j; discriminate.
    + simpl in Hy. destruct j as [| j]; simpl in *.
      * injection Hx as ->. apply perm_skip.
        apply last_to_front; [lia | exact Hy].
      * eapply perm_trans; [apply perm_swap |].
        apply perm_skip. apply IH; [lia | assumption | assumption].
Qed.

Lemma list_set_length {A} i (v : A) xs :
  List.length (list_set i v xs) = List.length xs.
Proof.
  revert i. induction xs as [| x xs IH]; intros [| i]; simpl; auto.
Qed.

(** The pool branch on [k] not above the pool: [k] elements come back,
    taken from distinct positions (together with the elements left in the
    pool they make up the pool again); nothing is requested from a
    service. *)
Lemma sample_loop_spec {A} (k : nat) :
  forall (pool result : list A) w,
    k <= List.length pool ->
    exists sampled rest w',
      sample_loop k pool result w = (Returns (result ++ sampled), w')
      /\ List.length sampled = k
      /\ Permutation (sampled ++ rest) pool
      /\ trace w' = trace w.
Proof.
  induction k as [| k IH]; intros pool result w Hk; simpl.
  - exists [], pool, w. rewrite app_nil_r. repeat split; auto.
  - unfold bind, randbelow.
    set (j := Nat.modulo (fst (next_draw (rng w))) (List.length pool)).
    assert (Hj : j < List.length pool) by (apply Nat.mod_upper_bound; lia).
    destruct (nth_error pool j) as [x |] eqn:Ex;
      [| apply nth_error_None in Ex; lia].
    destruct (nth_error pool (List.length pool - 1)) as [y |] eqn:Ey;
      [| apply nth_error_None in Ey; lia].
    set (pool' := firstn (List.length pool - 1) (list_set j y pool)).
    assert (Hlen : k <= List.length pool').
    { unfold pool'. rewrite length_firstn, list_set_length. lia. }
    destruct (IH pool' (result ++ [x])
                 {| trace := trace w; rng := snd (next_draw (rng w)) |} Hlen)
      as (sampled & rest & w' & E & Hl & Hp & Ht).
    exists (x :: sampled), rest, w'. repeat split.
    + rewrite E. now rewrite <- app_assoc.
    + simpl. now rewrite Hl.
    + simpl. eapply perm_trans; [apply perm_skip, Hp |].
      apply pool_step; [lia | assumption | assumption].
    + exact Ht.
Qed.

(** *** The set branch *)

Lemma selected_mem_In j selected : selected_mem j selected = true <-> In j selected.
Proof.
  unfold selected_mem. rewrite existsb_exists. split.
  - intros (y & Hy & E). apply Nat.eqb_eq in E. now subst.
  - intros H. exists j. split; [exact H | apply Nat.eqb_refl].
Qed.

Lemma selected_mem_not_In j selected :
  selected_mem j selected = false <-> ~ In j selected.
Proof.
  rewrite <- selected_mem_In. destruct (selected_mem j selected); split; congruence.
Qed.

Lemma draw_unselected_eq turns n selected w :
  draw_unselected turns n selected w
  = (j <- randbelow n ;;
     if selected_mem j selected
     then match turns with
          | S turns' => draw_unselected turns' n selected
          | O => ret j
          end
     else ret j) w.
Proof. destruct turns; reflexivity. Qed.

(** Counting on from [b], the residue [x] comes within [n] steps. *)
Lemma residue_ahead b n x : x < n -> exists t, t < n /\ (b + t) mod n = x.
Proof.
  intros Hx.
  pose proof (Nat.div_mod_eq b n) as Hb.
  pose proof (Nat.mod_upper_bound b n ltac:(lia)) as Hr.
  destruct (le_lt_dec (b mod n) x) as [Hle | Hlt].
  - exists (x - b mod n). split; [lia |].
    replace (b + (x - b mod n)) with (x + (b / n) * n) by lia.
    rewrite Nat.Div0.mod_add. now apply Nat.mod_small.
  - exists (n - b mod n + x). split; [lia |].
    replace (b + (n - b mod n + x)) with (x + (S (b / n)) * n) by lia.
    rewrite Nat.Div0.mod_add. now apply Nat.mod_small.
Qed.

(** Once the listed draws are used up, the generator counts on and reaches
    a position that is not selected. *)
Lemma draw_unselected_tail n selected x :
  x < n -> selected_mem x selected = false ->
  forall t turns w,
    draws (rng w) = [] -> (beyond (rng w) + t) mod n = x -> t <= turns ->
    exists j w',
      draw_unselected turns n selected w = (Returns j, w')
      /\ j < n /\ selected_mem j selected = false /\ trace w' = trace w.
Proof.
  intros Hx Hfresh.
  induction t as [| t IH]; intros turns w Hd Hb Ht;
    rewrite draw_unselected_eq; unfold bind, randbelow, next_draw; rewrite Hd;
    cbn [fst snd].
  - rewrite Nat.add_0_r in Hb. rewrite Hb, Hfresh.
    eexists. eexists. split; [reflexivity |]. auto.
  - destruct (selected_mem (beyond (rng w) mod n) selected) eqn:E.
    + destruct turns as [| turns]; [lia |].
      destruct (IH turns {| trace := trace w;
                            rng := {| draws := []; beyond := S (beyond (rng w)) |} |})
        as (j & w' & Hrun & Hj & Hnew & Htrace);
        cbn [rng draws beyond]; [reflexivity | | lia |].
      * rewrite <- Hb. f_equal. lia.
      * exists j, w'. auto.
    + eexists. eexists. split; [reflexivity |].
      repeat split; [apply Nat.mod_upper_bound; lia | exact E].
Qed.

(** The redrawing loop ends on a position below [n] that is not selected,
    whenever there is one. *)
Lemma draw_unselected_spec n selected :
  (exists x, x < n /\ selected_mem x selected = false) ->
  forall turns w,
    List.length (draws (rng w)) + n <= turns ->
    exists j w',
      draw_unselected turns n selected w = (Returns j, w')
      /\ j < n /\ selected_mem j selected = false /\ trace w' = trace w.
Proof.
  intros (x & Hx & Hfresh) turns w.
  remember (draws (rng w)) as ds eqn:Hds. revert turns w Hds.
  induction ds as [| d ds IH]; intros turns w Hds Hturns.
  - destruct (residue_ahead (beyond (rng w)) n x Hx) as (t & Ht & Hb).
    apply (draw_unselected_tail n selected x Hx Hfresh t);
      [now symmetry | exact Hb | simpl in Hturns; lia].
  - rewrite draw_unselected_eq. unfold bind, randbelow, next_draw. rewrite <- Hds.
    cbn [fst snd].
    destruct (selected_mem (d mod n) selected) eqn:E.
    + destruct turns as [| turns]; [simpl in Hturns; lia |].
      destruct (IH turns {| trace := trace w;
                            rng := {| draws := ds; beyond := beyond (rng w) |} |})
        as (j & w' & Hrun & Hj & Hnew & Htrace);
        cbn [rng draws beyond]; [reflexivity | simpl in Hturns; lia |].
      exists j, w'. auto.
    + eexists. eexists. split; [reflexivity |].
      repeat split; [apply Nat.mod_upper_bound; lia | exact E].
Qed.

Lemma unselected_exists n selected :
  NoDup selected -> List.length selected < n ->
  exists x, x < n /\ selected_mem x selected = false.
Proof.
  intros Hnd Hlen.
  destruct (existsb (fun x => negb (selected_mem x selected)) (seq 0 n)) eqn:E.
  - apply existsb_exists in E. destruct E as (x & Hin & Hx). apply in_seq in Hin.
    exists x. split; [lia | now apply negb_true_iff in Hx].
  - exfalso. assert (Hincl : incl (seq 0 n) selected).
    { intros x Hin. apply selected_mem_In.
      destruct (selected_mem x selected) eqn:Ex; [reflexivity |].
      assert (existsb (fun x => negb (selected_mem x selected)) (seq 0 n) = true).
      { apply existsb_exists. exists x. split; [exact Hin | now rewrite Ex]. }
      congruence. }
    apply NoDup_incl_length in Hincl; [| apply seq_NoDup].
    rewrite length_seq in Hincl. lia.
Qed.

Lemma nth_error_positions n j : j < n -> nth_error (seq 0 n) j = Some j.
Proof.
  intros Hj. rewrite (nth_error_nth' _ 0) by (now rewrite length_seq).
  now rewrite seq_nth.
Qed.

(** The set branch on the positions [0 .. n-1]: [k] positions come back,
    different from each other and from those selected before. *)
Lemma sample_set_loop_spec n k :
  forall selected result w,
    NoDup selected -> List.length selected + k <= n ->
    exists picks w',
      sample_set_loop k (seq 0 n) selected result w = (Returns (result ++ picks), w')
      /\ List.length picks = k
      /\ NoDup (picks ++ selected)
      /\ Forall (fun j => j < n) picks
      /\ trace w' = trace w.
Proof.
  induction k as [| k IH]; intros selected result w Hnd Hlen; simpl.
  - exists [], w. rewrite app_nil_r. repeat split; auto.
  - rewrite length_seq.
    destruct (draw_unselected_spec n selected
                (unselected_exists n selected Hnd ltac:(lia))
                (List.length (draws (rng w)) + n) w (le_n _))
      as (j & w1 & E & Hj & Hfresh & Ht).
    unfold bind at 1. rewrite E, (nth_error_positions n j Hj).
    destruct (IH (j :: selected) (result ++ [j]) w1) as (picks & w' & E' & Hl & Hnd' & Hall & Ht').
    { constructor; [now apply selected_mem_not_In | exact Hnd]. }
    { simpl. lia. }
    exists (j :: picks), w'. repeat split.
    + rewrite E', <- app_assoc. reflexivity.
    + simpl. lia.
    + simpl. eapply Permutation_NoDup; [| exact Hnd'].
      symmetry. apply Permutation_middle.
    + constructor; assumption.
    + congruence.
Qed.

(** *** The choice does not look at the elements *)

Lemma list_set_map {A B} (f : A -> B) i v xs :
  list_set i (f v) (map f xs) = map f (list_set i v xs).
Proof.
  revert i. induction xs as [| x xs IH]; intros [| i]; simpl; try reflexivity.
  now rewrite IH.
Qed.

Lemma sample_loop_map {A B} (f : A -> B) k :
  forall pool result w,
    sample_loop k (map f pool) (map f result) w
    = (s <- sample_loop k pool result ;; ret (map f s)) w.
Proof.
  induction k as [| k IH]; intros pool result w; simpl.
  - reflexivity.
  - rewrite bind_assoc, length_map. apply bind_ext. intros j w1.
    rewrite !nth_error_map.
    destruct (nth_error pool j) as [x |]; [| reflexivity].
    destruct (nth_error pool (List.length pool - 1)) as [y |]; [| reflexivity].
    simpl. rewrite list_set_map, firstn_map.
    change [f x] with (map f [x]). rewrite <- map_app. apply IH.
Qed.

Lemma sample_set_loop_map {A B} (f : A -> B) k :
  forall population selected result w,
    sample_set_loop k (map f population) selected (map f result) w
    = (s <- sample_set_loop k population selected result ;; ret (map f s)) w.
Proof.
  induction k as [| k IH]; intros population selected result w; simpl.
  - reflexivity.
  - rewrite bind_assoc, length_map. apply bind_ext. intros j w1.
    rewrite nth_error_map.
    destruct (nth_error population j) as [x |]; [| reflexivity].
    simpl. change [f x] with (map f [x]). rewrite <- map_app. apply IH.
Qed.

Lemma random_sample_map {A B} (f : A -> B) population k w :
  random_sample (map f population) k w
  = (s <- random_sample population k ;; ret (map f s)) w.
Proof.
  unfold random_sample. rewrite length_map.
  destruct ((k <? 0) || (Z.of_nat (List.length population) <? k))%Z; [reflexivity |].
  destruct (List.length population <=? setsize (Z.to_nat k))%nat.
  - apply (sample_loop_map f (Z.to_nat k) population [] w).
  - apply (sample_set_loop_map f (Z.to_nat k) population [] [] w).
Qed.

Lemma map_nth_positions {A} (l : list A) d :
  map (fun j => nth j l d) (seq 0 (List.length l)) = l.
Proof.
  induction l as [| a l IH]; simpl; [reflexivity |].
  f_equal. rewrite <- seq_shift, map_map. exact IH.
Qed.

(** *** What [random.sample] returns *)

Lemma random_sample_positions n k w :
  k <= n ->
  exists positions w',
    random_sample (seq 0 n) (Z.of_nat k) w = (Returns positions, w')
    /\ selection n k positions
    /\ trace w' = trace w.
Proof.
  intros Hk. unfold random_sample. rewrite length_seq, Nat2Z.id.
  replace ((Z.of_nat k <? 0) || (Z.of_nat n <? Z.of_nat k))%Z with false
    by (symmetry; apply orb_false_iff; split; apply Z.ltb_ge; lia).
  destruct (n <=? setsize k)%nat.
  - destruct (sample_loop_spec k (seq 0 n) [] w) as (sampled & rest & w' & E & Hl & Hp & Ht).
    { rewrite length_seq. exact Hk. }
    exists sampled, w'. split; [exact E |]. split; [| exact Ht].
    assert (Hnd : NoDup (sampled ++ rest)).
    { eapply Permutation_NoDup; [symmetry; exact Hp | apply seq_NoDup]. }
    split; [exact Hl |]. split; [eapply NoDup_app_remove_r, Hnd |].
    apply Forall_forall. intros j Hin.
    assert (Hj : In j (seq 0 n)).
    { eapply Permutation_in; [exact Hp |]. apply in_or_app. now left. }
    apply in_seq in Hj. lia.
  - destruct (sample_set_loop_spec n k [] [] w (NoDup_nil _) ltac:(simpl; lia))
      as (picks & w' & E & Hl & Hnd & Hall & Ht).
    rewrite app_nil_r in Hnd.
    exists picks, w'. split; [exact E |]. split; [| exact Ht].
    split; [exact Hl |]. split; assumption.
Qed.

(** Positions that differ leave the others, to make up the whole again. *)
Lemma selection_others {A} (s : list A) :
  forall l, NoDup s -> incl s l -> exists others, Permutation (s ++ others) l.
Proof.
  induction s as [| a s IH]; intros l Hnd Hincl.
  - exists l. apply Permutation_refl.
  - inversion Hnd as [| a' s' Hnotin Hnd']; subst.
    destruct (in_split a l (Hincl a (or_introl eq_refl))) as (l1 & l2 & ->).
    destruct (IH (l1 ++ l2) Hnd') as (others & Hp).
    { intros x Hx. specialize (Hincl x (or_intror Hx)).
      apply in_app_or in Hincl. apply in_or_app.
      destruct Hincl as [H | [H | H]]; [now left | congruence | now right]. }
    exists others. simpl. eapply perm_trans; [apply perm_skip, Hp |].
    apply Permutation_middle.
Qed.

Lemma taken_at_map {A} (l : list A) d positions :
  Forall (fun j => j < List.length l) positions ->
  taken_at l positions (map (fun j => nth j l d) positions).
Proof.
  induction 1 as [| j positions Hj _ IH]; simpl; constructor; [| exact IH].
  now apply nth_error_nth'.
Qed.

(** [random.sample] chooses by position: the positions are those it
    chooses among [0 .. n-1] in the same state, whatever the elements
    are. *)
Lemma random_sample_taken {A} (population : list A) k w :
  k <= List.length population ->
  exists positions sampled w',
    random_sample (seq 0 (List.length population)) (Z.of_nat k) w
    = (Returns positions, w')
    /\ random_sample population (Z.of_nat k) w = (Returns sampled, w')
    /\ selection (List.length population) k positions
    /\ taken_at population positions sampled
    /\ trace w' = trace w.
Proof.
  intros Hk.
  destruct (random_sample_positions (List.length population) k w Hk)
    as (positions & w' & E & Hsel & Ht).
  destruct population as [| a l] eqn:Ep.
  - simpl in *. assert (k = 0) by lia. subst k.
    exists positions, [], w'. simpl in E. injection E as <- <-.
    repeat split; try constructor; auto.
  - rewrite <- Ep in *.
    exists positions, (map (fun j => nth j population a) positions), w'.
    split; [exact E |]. split; [| split; [exact Hsel | split; [| exact Ht]]].
    + rewrite <- (map_nth_positions population a) at 1.
      rewrite random_sample_map, (bind_returns _ _ _ _ _ E). reflexivity.
    + apply taken_at_map. apply Hsel.
Qed.

Lemma taken_at_perm {A} (l : list A) positions sampled :
  NoDup positions -> taken_at l positions sampled ->
  exists rest, Permutation (sampled ++ rest) l.
Proof.
  intros Hnd Htaken.
  destruct l as [| a l'] eqn:El.
  - inversion Htaken as [| j y js ys Hj _]; subst.
    + exists []. apply Permutation_refl.
    + destruct j; discriminate.
  - rewrite <- El in *. clear El l'.
    assert (Hall : Forall (fun j => j < List.length l) positions).
    { clear Hnd. induction Htaken as [| j y js ys Hj _ IH]; constructor; [| exact IH].
      apply nth_error_Some. congruence. }
    assert (Hs : sampled = map (fun j => nth j l a) positions).
    { clear Hnd. induction Htaken as [| j y js ys Hj _ IH]; simpl; [reflexivity |].
      inversion Hall; subst. f_equal; [| now apply IH].
      rewrite (nth_error_nth' l a) in Hj by assumption. congruence. }
    destruct (selection_others positions (seq 0 (List.length l)) Hnd) as (others & Hp).
    { intros j Hin. apply in_seq. rewrite Forall_forall in Hall.
      specialize (Hall j Hin). lia. }
    exists (map (fun j => nth j l a) others). rewrite Hs, <- map_app.
    eapply perm_trans; [apply Permutation_map, Hp |].
    rewrite map_nth_positions. apply Permutation_refl.
Qed.

Lemma random_sample_spec {A} (population : list A) (k : Z) w :
  (0 <= k <= Z.of_nat (List.length population))%Z ->
  exists sampled rest w',
    random_sample population k w = (Returns sampled, w')
    /\ List.length sampled = Z.to_nat k
    /\ Permutation (sampled ++ rest) population
    /\ trace w' = trace w.
Proof.
  intros Hk.
  destruct (random_sample_taken population (Z.to_nat k) w ltac:(lia))
    as (positions & sampled & w' & _ & E & (Hl & Hnd & _) & Htaken & Ht).
  rewrite Z2Nat.id in E by lia.
  destruct (taken_at_perm _ _ _ Hnd Htaken) as (rest & Hp).
  exists sampled, rest, w'. repeat split; try assumption.
  rewrite <- Hl. symmetry. eapply Forall2_length, Htaken.
Qed.

Lemma random_sample_returns_inv {A} (population : list A) k w sampled w' :
  random_sample population k w = (Returns sampled, w') ->
  (0 <= k <= Z.of_nat (List.length population))%Z
  /\ List.length sampled = Z.to_nat k
  /\ trace w' = trace w.
Proof.
  intros Hrun.
  assert (Hk : (0 <= k <= Z.of_nat (List.length population))%Z).
  { unfold random_sample in Hrun.
    destruct ((k <? 0) || (Z.of_nat (List.length population) <? k))%Z eqn:E;
      [discriminate |].
    apply orb_false_iff in E. destruct E as [E1 E2].
    apply Z.ltb_ge in E1, E2. lia. }
  split; [exact Hk |].
  destruct (random_sample_spec population k w Hk) as (s0 & rest & w0 & E & Hlen & _ & Ht).
  rewrite Hrun in E. injection E as <- <-. auto.
Qed.

(** Two runs on listed draws: twenty positions are sampled from the pool
    (the second draw finds the last position moved into the place of the
    first choice), thirty with the set (the repeated draw is drawn
    again). *)
Example random_sample_from_pool :
  random_sample (seq 0 20) 2 {| trace := []; rng := {| draws := [3; 3; 9]; beyond := 0 |} |}
  = (Returns [3; 19], {| trace := []; rng := {| draws := [9]; beyond := 0 |} |}).
Proof. reflexivity. Qed.

Example random_sample_with_set :
  random_sample (seq 0 30) 2
                {| trace := []; rng := {| draws := [5; 5; 7; 9]; beyond := 0 |} |}
  = (Returns [5; 7], {| trace := []; rng := {| draws := [9]; beyond := 0 |} |}).
Proof. reflexivity. Qed.

(** *** Every choice is as likely as any other *)

Lemma random_sample_index n k w :
  k <= n ->
  random_sample (seq 0 n) (Z.of_nat k) w
  = (if (n <=? setsize k)%nat
     then sample_loop k (seq 0 n) []
     else sample_set_loop k (seq 0 n) [] []) w.
Proof.
  intros Hk. unfold random_sample. rewrite length_seq, Nat2Z.id.
  replace ((Z.of_nat k <? 0) || (Z.of_nat n <? Z.of_nat k))%Z with false
    by (symmetry; apply orb_false_iff; split; apply Z.ltb_ge; lia).
  destruct (n <=? setsize k)%nat; reflexivity.
Qed.

Lemma random_sample_too_many {A} (population : list A) k w :
  List.length population < k ->
  random_sample population (Z.of_nat k) w
  = (Raises "ValueError: Sample larger than population or is negative", w).
Proof.
  intros Hk. unfold random_sample.
  replace ((Z.of_nat k <? 0) || (Z.of_nat (List.length population) <? Z.of_nat k))%Z
    with true; [reflexivity |].
  symmetry. apply orb_true_iff. right. apply Z.ltb_lt. lia.
Qed.

(** A listed draw below the bound is what [randbelow] returns. *)
Lemma randbelow_listed n d ds b tr :
  d < n ->
  randbelow n {| trace := tr; rng := {| draws := d :: ds; beyond := b |} |}
  = (Returns d, {| trace := tr; rng := {| draws := ds; beyond := b |} |}).
Proof.
  intros Hd. unfold randbelow, next_draw. cbn [rng draws beyond fst snd trace].
  now rewrite Nat.mod_small.
Qed.

Lemma selection_fits n k s : selection n k s -> k <= n.
Proof.
  intros (Hlen & Hnd & Hall). rewrite <- Hlen, <- (length_seq n 0) at 1.
  apply NoDup_incl_length; [exact Hnd |].
  intros j Hin. apply in_seq. rewrite Forall_forall in Hall. specialize (Hall j Hin). lia.
Qed.

(** What [random.sample] returns is a choice of different positions. *)
Lemma chosen_is_selection n k ds s : chosen_by n k ds s -> selection n k s.
Proof.
  intros [_ Hrun]. specialize (Hrun [] 0).
  destruct (le_lt_dec k n) as [Hk | Hk].
  - destruct (random_sample_positions n k
                {| trace := []; rng := {| draws := ds; beyond := 0 |} |} Hk)
      as (positions & w' & E & Hsel & _).
    rewrite Hrun in E. now injection E as -> _.
  - rewrite random_sample_too_many in Hrun by (now rewrite length_seq). discriminate.
Qed.

(** **** The pool *)

Lemma pool_bounds n k :
  map (fun i => n - i) (seq 0 (S k)) = n :: map (fun i => n - 1 - i) (seq 0 k).
Proof.
  simpl. rewrite Nat.sub_0_r. f_equal.
  rewrite <- seq_shift, map_map. apply map_ext. intros i. lia.
Qed.

Lemma pool_after {A} (pool : list A) j x y :
  NoDup pool ->
  nth_error pool j = Some x ->
  nth_error pool (List.length pool - 1) = Some y ->
  let pool' := firstn (List.length pool - 1) (list_set j y pool) in
  Permutation (x :: pool') pool
  /\ NoDup pool'
  /\ List.length pool' = List.length pool - 1.
Proof.
  intros Hnd Hx Hy pool'.
  assert (Hj : j < List.length pool) by (apply nth_error_Some; congruence).
  assert (Hp : Permutation (x :: pool') pool).
  { apply pool_step; [lia | assumption | assumption]. }
  split; [exact Hp |]. split.
  - assert (H : NoDup (x :: pool')).
    { eapply Permutation_NoDup; [symmetry; exact Hp | exact Hnd]. }
    now inversion H.
  - unfold pool'. rewrite length_firstn, list_set_length. lia.
Qed.

(** Every choice of different elements of the pool is returned for some
    draws below their bounds. *)
Lemma pool_reach {A} (s : list A) :
  forall pool result,
    NoDup pool -> NoDup s -> incl s pool ->
    exists ds,
      Forall2 lt ds (map (fun i => List.length pool - i) (seq 0 (List.length s)))
      /\ forall tr b,
          sample_loop (List.length s) pool result
                      {| trace := tr; rng := {| draws := ds; beyond := b |} |}
          = (Returns (result ++ s),
             {| trace := tr; rng := {| draws := []; beyond := b |} |}).
Proof.
  induction s as [| x s IH]; intros pool result Hpool Hs Hincl.
  - exists []. split; [constructor |]. intros tr b. simpl. now rewrite app_nil_r.
  - inversion Hs as [| x' s' Hnotin Hs']; subst.
    destruct (In_nth_error pool x (Hincl x (or_introl eq_refl))) as (j & Hj).
    assert (Hjlt : j < List.length pool) by (apply nth_error_Some; congruence).
    destruct (nth_error pool (List.length pool - 1)) as [y |] eqn:Hy;
      [| apply nth_error_None in Hy; lia].
    destruct (pool_after pool j x y Hpool Hj Hy) as (Hp & Hnd' & Hlen').
    set (pool' := firstn (List.length pool - 1) (list_set j y pool)) in *.
    destruct (IH pool' (result ++ [x]) Hnd' Hs') as (ds & Hds & Hrun).
    { intros z Hz.
      assert (Hin : In z (x :: pool')).
      { eapply Permutation_in; [symmetry; exact Hp |]. apply Hincl. now right. }
      destruct Hin as [-> | Hin]; [contradiction | exact Hin]. }
    exists (j :: ds). split.
    + cbn [List.length]. rewrite pool_bounds. constructor; [exact Hjlt |].
      now rewrite Hlen' in Hds.
    + intros tr b. cbn [List.length sample_loop]. unfold bind.
      rewrite (randbelow_listed _ _ _ _ _ Hjlt), Hj, Hy. fold pool'.
      rewrite Hrun, <- app_assoc. reflexivity.
Qed.

(** The draws below their bounds that lead to a choice are determined by
    it. *)
Lemma pool_unique {A} k :
  forall (pool result : list A) ds ds' s tr b tr' b' w1 w1',
    NoDup pool -> k <= List.length pool ->
    Forall2 lt ds (map (fun i => List.length pool - i) (seq 0 k)) ->
    Forall2 lt ds' (map (fun i => List.length pool - i) (seq 0 k)) ->
    sample_loop k pool result {| trace := tr; rng := {| draws := ds; beyond := b |} |}
    = (Returns (result ++ s), w1) ->
    sample_loop k pool result {| trace := tr'; rng := {| draws := ds'; beyond := b' |} |}
    = (Returns (result ++ s), w1') ->
    ds = ds'.
Proof.
  induction k as [| k IH];
    intros pool result ds ds' s tr b tr' b' w1 w1' Hpool Hk Hds Hds' Hrun Hrun'.
  - inversion Hds. inversion Hds'. reflexivity.
  - rewrite pool_bounds in Hds, Hds'.
    inversion Hds as [| j bound ds1 bounds Hj Hds1]; subst.
    inversion Hds' as [| j' bound' ds1' bounds' Hj' Hds1']; subst.
    cbn [sample_loop] in Hrun, Hrun'. unfold bind in Hrun, Hrun'.
    rewrite (randbelow_listed _ _ _ _ _ Hj) in Hrun.
    rewrite (randbelow_listed _ _ _ _ _ Hj') in Hrun'.
    destruct (nth_error pool j) as [x |] eqn:Ex; [| apply nth_error_None in Ex; lia].
    destruct (nth_error pool j') as [x' |] eqn:Ex'; [| apply nth_error_None in Ex'; lia].
    destruct (nth_error pool (List.length pool - 1)) as [y |] eqn:Ey;
      [| apply nth_error_None in Ey; lia].
    destruct (pool_after pool j x y Hpool Ex Ey) as (_ & Hnd1 & Hlen1).
    destruct (pool_after pool j' x' y Hpool Ex' Ey) as (_ & Hnd1' & Hlen1').
    cbv zeta in Hnd1, Hlen1, Hnd1', Hlen1'.
    destruct (sample_loop_spec k _ (result ++ [x])
                {| trace := tr; rng := {| draws := ds1; beyond := b |} |}
                ltac:(rewrite Hlen1; lia))
      as (sampled & rest & w2 & E & _).
    destruct (sample_loop_spec k _ (result ++ [x'])
                {| trace := tr'; rng := {| draws := ds1'; beyond := b' |} |}
                ltac:(rewrite Hlen1'; lia))
      as (sampled' & rest' & w2' & E' & _).
    assert (Hs : s = x :: sampled).
    { rewrite Hrun in E. injection E as E _. rewrite <- app_assoc in E.
      now apply app_inv_head in E. }
    assert (Hs' : s = x' :: sampled').
    { rewrite Hrun' in E'. injection E' as E' _. rewrite <- app_assoc in E'.
      now apply app_inv_head in E'. }
    assert (Hx : x' = x) by congruence. subst x'.
    assert (Hjj : j' = j).
    { apply (proj1 (NoDup_nth_error pool) Hpool); [lia | congruence]. }
    subst j'. f_equal.
    apply (IH _ (result ++ [x]) ds1 ds1' sampled tr b tr' b' w1 w1' Hnd1);
      try (rewrite Hlen1; assumption || lia).
    + rewrite <- app_assoc. simpl. rewrite <- Hs. exact Hrun.
    + rewrite <- app_assoc. simpl. rewrite <- Hs. exact Hrun'.
Qed.

(** **** The set *)

Lemma draw_unselected_beyond n selected turns :
  forall w o w',
    draw_unselected turns n selected w = (o, w') ->
    beyond (rng w) <= beyond (rng w').
Proof.
  assert (Hstep : forall w, beyond (rng w) <= beyond (snd (next_draw (rng w)))).
  { intros w. unfold next_draw. destruct (draws (rng w)); simpl; lia. }
  induction turns as [| turns IH]; intros w o w' Hrun;
    rewrite draw_unselected_eq in Hrun; unfold bind, randbelow in Hrun;
    destruct (selected_mem _ selected).
  - injection Hrun as _ <-. apply Hstep.
  - injection Hrun as _ <-. apply Hstep.
  - apply IH in Hrun. cbn [rng] in Hrun. specialize (Hstep w). lia.
  - injection Hrun as _ <-. apply Hstep.
Qed.

Lemma sample_set_loop_beyond {A} k :
  forall (population : list A) selected result w o w',
    sample_set_loop k population selected result w = (o, w') ->
    beyond (rng w) <= beyond (rng w').
Proof.
  induction k as [| k IH]; intros population selected result w o w' Hrun;
    cbn [sample_set_loop] in Hrun.
  - injection Hrun as _ <-. lia.
  - unfold bind in Hrun.
    destruct (draw_unselected _ _ selected w) as [[j | e] w1] eqn:E.
    + apply draw_unselected_beyond in E.
      destruct (nth_error population j).
      * apply IH in Hrun. lia.
      * injection Hrun as _ <-. exact E.
    + apply draw_unselected_beyond in E. injection Hrun as _ <-. exact E.
Qed.

Lemma selected_mem_map (relabel : nat -> nat) j selected :
  (forall x y, relabel x = relabel y -> x = y) ->
  selected_mem (relabel j) (map relabel selected) = selected_mem j selected.
Proof.
  intros Hinj. destruct (selected_mem j selected) eqn:E.
  - apply selected_mem_In. apply in_map. now apply selected_mem_In.
  - apply selected_mem_not_In. intros Hin. apply in_map_iff in Hin.
    destruct Hin as (y & Hy & Hin). apply Hinj in Hy. subst y.
    apply selected_mem_not_In in E. contradiction.
Qed.

(** Renaming the positions renames what the redrawing loop does with
    listed draws. *)
Lemma draw_unselected_relabel n (relabel : nat -> nat) selected :
  (forall x, x < n -> relabel x < n) ->
  (forall x y, relabel x = relabel y -> x = y) ->
  forall turns tr ds b j tr' ds',
    Forall (fun d => d < n) ds ->
    draw_unselected turns n selected
      {| trace := tr; rng := {| draws := ds; beyond := b |} |}
    = (Returns j, {| trace := tr'; rng := {| draws := ds'; beyond := b |} |}) ->
    draw_unselected turns n (map relabel selected)
      {| trace := tr; rng := {| draws := map relabel ds; beyond := b |} |}
    = (Returns (relabel j),
       {| trace := tr'; rng := {| draws := map relabel ds'; beyond := b |} |})
    /\ j < n /\ Forall (fun d => d < n) ds'.
Proof.
  intros Hrange Hinj.
  induction turns as [| turns IH]; intros tr ds b j tr' ds' Hds Hrun;
    rewrite draw_unselected_eq in Hrun; rewrite draw_unselected_eq;
    unfold bind in *;
    (destruct ds as [| d ds1];
     [ unfold randbelow, next_draw in Hrun; cbn [rng draws beyond fst snd trace] in Hrun;
       exfalso
     | inversion Hds as [| d' ds1' Hd Hds1]; subst;
       rewrite (randbelow_listed _ _ _ _ _ Hd) in Hrun;
       cbn [map]; rewrite (randbelow_listed _ _ _ _ _ (Hrange d Hd));
       rewrite (selected_mem_map relabel d selected Hinj) ]).
  - destruct (selected_mem _ selected); injection Hrun as _ _ _ Hb; lia.
  - destruct (selected_mem d selected); injection Hrun as <- <- <-; auto.
  - destruct (selected_mem _ selected).
    + apply draw_unselected_beyond in Hrun. cbn [rng beyond] in Hrun. lia.
    + injection Hrun as _ _ _ Hb. lia.
  - destruct (selected_mem d selected).
    + now apply IH.
    + injection Hrun as <- <- <-. auto.
Qed.

Lemma sample_set_loop_relabel n (relabel : nat -> nat) :
  (forall x, x < n -> relabel x < n) ->
  (forall x y, relabel x = relabel y -> x = y) ->
  forall k selected result tr ds b r tr' ds',
    Forall (fun d => d < n) ds ->
    sample_set_loop k (seq 0 n) selected result
      {| trace := tr; rng := {| draws := ds; beyond := b |} |}
    = (Returns r, {| trace := tr'; rng := {| draws := ds'; beyond := b |} |}) ->
    sample_set_loop k (seq 0 n) (map relabel selected) (map relabel result)
      {| trace := tr; rng := {| draws := map relabel ds; beyond := b |} |}
    = (Returns (map relabel r),
       {| trace := tr'; rng := {| draws := map relabel ds'; beyond := b |} |}).
Proof.
  intros Hrange Hinj.
  induction k as [| k IH]; intros selected result tr ds b r tr' ds' Hds Hrun;
    cbn [sample_set_loop] in *.
  - injection Hrun as <- <- <-. reflexivity.
  - rewrite length_seq in *. unfold bind in *.
    cbn [rng draws] in *. rewrite length_map.
    destruct (draw_unselected (List.length ds + n) n selected
                {| trace := tr; rng := {| draws := ds; beyond := b |} |})
      as [[j | e] [tr1 [ds1 b1]]] eqn:Edraw; [| discriminate].
    pose proof (draw_unselected_beyond _ _ _ _ _ _ Edraw) as Hle1.
    cbn [rng beyond] in Hle1.
    assert (Hb1 : b1 = b).
    { destruct (nth_error (seq 0 n) j).
      - apply sample_set_loop_beyond in Hrun. cbn [rng beyond] in Hrun. lia.
      - discriminate. }
    subst b1.
    destruct (draw_unselected_relabel n relabel selected Hrange Hinj _ _ _ _ _ _ _ Hds Edraw)
      as (Edraw' & Hj & Hds1).
    rewrite Edraw'.
    rewrite (nth_error_positions n j Hj) in Hrun.
    rewrite (nth_error_positions n _ (Hrange j Hj)).
    change [relabel j] with (map relabel [j]). rewrite <- map_app.
    apply (IH (j :: selected) (result ++ [j]) tr1 ds1 b r tr' ds' Hds1 Hrun).
Qed.

(** Listing a choice as the draws makes it the choice. *)
Lemma set_reach n (s : list nat) :
  forall selected result tr b,
    NoDup (s ++ selected) -> Forall (fun j => j < n) s ->
    sample_set_loop (List.length s) (seq 0 n) selected result
      {| trace := tr; rng := {| draws := s; beyond := b |} |}
    = (Returns (result ++ s), {| trace := tr; rng := {| draws := []; beyond := b |} |}).
Proof.
  induction s as [| d s IH]; intros selected result tr b Hnd Hall.
  - simpl. now rewrite app_nil_r.
  - inversion Hall as [| d' s' Hd Hall']; subst.
    cbn [List.length sample_set_loop]. rewrite length_seq. unfold bind.
    rewrite draw_unselected_eq. unfold bind.
    rewrite (randbelow_listed _ _ _ _ _ Hd).
    assert (Hfresh : selected_mem d selected = false).
    { apply selected_mem_not_In. intros Hin.
      simpl in Hnd. inversion Hnd as [| d' l Hnotin _]; subst.
      apply Hnotin. apply in_or_app. now right. }
    rewrite Hfresh. unfold ret at 1. rewrite (nth_error_positions n d Hd).
    rewrite IH, <- app_assoc; [reflexivity | | exact Hall'].
    eapply Permutation_NoDup; [apply Permutation_middle | exact Hnd].
Qed.

Lemma transpose_involutive a b x : transpose a b (transpose a b x) = x.
Proof.
  unfold transpose.
  destruct (x =? a)%nat eqn:Ea; [apply Nat.eqb_eq in Ea; subst |].
  - rewrite Nat.eqb_refl. destruct (b =? a)%nat eqn:E; [now apply Nat.eqb_eq in E | reflexivity].
  - destruct (x =? b)%nat eqn:Eb; [apply Nat.eqb_eq in Eb; subst |].
    + now rewrite Nat.eqb_refl.
    + now rewrite Ea, Eb.
Qed.

Lemma transpose_below n a b x : a < n -> b < n -> x < n -> transpose a b x < n.
Proof. intros Ha Hb Hx. unfold transpose. destruct (x =? a)%nat, (x =? b)%nat; assumption. Qed.

Lemma transpose_apart a b x : x <> a -> x <> b -> transpose a b x = x.
Proof.
  intros Ha Hb. unfold transpose.
  apply Nat.eqb_neq in Ha, Hb. now rewrite Ha, Hb.
Qed.

Lemma transpose_first a b : transpose a b a = b.
Proof. unfold transpose. now rewrite Nat.eqb_refl. Qed.

Lemma NoDup_map_injective {A B} (f : A -> B) l :
  (forall x y, f x = f y -> x = y) -> NoDup l -> NoDup (map f l).
Proof.
  intros Hinj. induction 1 as [| x l Hx _ IH]; simpl; constructor; [| exact IH].
  intros Hin. apply in_map_iff in Hin. destruct Hin as (y & Hy & Hin).
  apply Hinj in Hy. now subst y.
Qed.

(** Two choices of as many different positions below [n] are renamed into
    each other by a permutation of the positions below [n]. *)
Lemma selections_relabel n :
  forall s2 s1,
    NoDup s1 -> NoDup s2 -> List.length s1 = List.length s2 ->
    Forall (fun j => j < n) s1 -> Forall (fun j => j < n) s2 ->
    exists relabel back : nat -> nat,
      (forall x, back (relabel x) = x)
      /\ (forall x, relabel (back x) = x)
      /\ (forall x, x < n -> relabel x < n)
      /\ (forall x, x < n -> back x < n)
      /\ (forall x, ~ In x s1 -> ~ In x s2 -> relabel x = x)
      /\ map relabel s1 = s2.
Proof.
  induction s2 as [| b s2 IH]; intros [| a s1] Hnd1 Hnd2 Hlen Hall1 Hall2;
    try discriminate.
  - exists (fun x => x), (fun x => x). repeat split; auto.
  - inversion Hnd1 as [| a' l1 Ha Hnd1']; subst.
    inversion Hnd2 as [| b' l2 Hb Hnd2']; subst.
    inversion Hall1 as [| a' l1 Han Hall1']; subst.
    inversion Hall2 as [| b' l2 Hbn Hall2']; subst.
    assert (Hinj : forall x y, transpose a b x = transpose a b y -> x = y).
    { intros x y E. rewrite <- (transpose_involutive a b x), E.
      apply transpose_involutive. }
    destruct (IH (map (transpose a b) s1)) as (r0 & b0 & H1 & H2 & H3 & H4 & H5 & H6).
    { apply NoDup_map_injective; [exact Hinj | exact Hnd1']. }
    { exact Hnd2'. }
    { rewrite length_map. now injection Hlen. }
    { apply Forall_map. eapply Forall_impl; [| exact Hall1'].
      intros x Hx. now apply transpose_below. }
    { exact Hall2'. }
    assert (Hb0 : r0 b = b).
    { apply H5; [| exact Hb]. intros Hin. apply in_map_iff in Hin.
      destruct Hin as (y & Hy & Hin).
      assert (Hya : y = a) by (apply Hinj; rewrite Hy; symmetry; apply transpose_first).
      now subst y. }
    exists (fun x => r0 (transpose a b x)), (fun x => transpose a b (b0 x)).
    repeat split.
    + intros x. rewrite H1. apply transpose_involutive.
    + intros x. rewrite transpose_involutive. apply H2.
    + intros x Hx. apply H3. now apply transpose_below.
    + intros x Hx. apply transpose_below; auto.
    + intros x Hx1 Hx2.
      assert (Hxa : x <> a) by (intros ->; apply Hx1; now left).
      assert (Hxb : x <> b) by (intros ->; apply Hx2; now left).
      rewrite (transpose_apart a b x Hxa Hxb). apply H5.
      * intros Hin. apply in_map_iff in Hin. destruct Hin as (y & Hy & Hin).
        assert (Hyx : y = x).
        { apply Hinj. rewrite Hy. symmetry. now apply transpose_apart. }
        subst y. apply Hx1. now right.
      * intros Hin. apply Hx2. now right.
    + simpl. rewrite transpose_first, Hb0. f_equal.
      rewrite <- H6. now rewrite map_map.
Qed.

(** One half of the matching of the draws, in the set branch. *)
Lemma set_draws_relabel n k (relabel back : nat -> nat) s1 s2 ds :
  k <= n -> (n <=? setsize k)%nat = false ->
  (forall x, back (relabel x) = x) ->
  (forall x, x < n -> relabel x < n) ->
  map relabel s1 = s2 ->
  chosen_by n k ds s1 ->
  chosen_by n k (map relabel ds) s2
  /\ List.length (map relabel ds) = List.length ds
  /\ map back (map relabel ds) = ds.
Proof.
  intros Hk Hset Hback Hrange Hmap [Hin Hrun].
  assert (Hinj : forall x y, relabel x = relabel y -> x = y).
  { intros x y E. rewrite <- (Hback x), E. apply Hback. }
  unfold drawn_in_range in Hin. rewrite Hset in Hin.
  split; [split |].
  - unfold drawn_in_range. rewrite Hset. apply Forall_map.
    eapply Forall_impl; [| exact Hin]. intros d Hd. now apply Hrange.
  - intros tr b. specialize (Hrun tr b).
    rewrite random_sample_index in * by exact Hk. rewrite Hset in *.
    rewrite <- Hmap.
    apply (sample_set_loop_relabel n relabel Hrange Hinj k [] [] tr ds b s1 tr [] Hin Hrun).
  - split; [apply length_map |].
    rewrite map_map. rewrite <- (map_id ds) at 2. apply map_ext. exact Hback.
Qed.

(** [random.sample] chooses uniformly among the ordered choices of [k]
    different positions. *)
Lemma random_sample_uniform n k : equally_likely n k.
Proof.
  split; [exact (chosen_is_selection n k) |].
  destruct (n <=? setsize k)%nat eqn:Ebranch.
  - (* the pool *)
    assert (Hreach : forall s,
               selection n k s ->
               exists ds, chosen_by n k ds s
                          /\ forall ds', chosen_by n k ds' s -> ds' = ds).
    { intros s Hsel. pose proof (selection_fits n k s Hsel) as Hk.
      destruct Hsel as (Hlen & Hnd & Hall).
      destruct (pool_reach s (seq 0 n) [] (seq_NoDup n 0) Hnd) as (ds & Hds & Hrun).
      { intros j Hin. apply in_seq. rewrite Forall_forall in Hall.
        specialize (Hall j Hin). lia. }
      rewrite length_seq, Hlen in Hds. rewrite Hlen in Hrun.
      exists ds. split.
      - split; [unfold drawn_in_range; now rewrite Ebranch |].
        intros tr b. rewrite random_sample_index by exact Hk. rewrite Ebranch.
        apply Hrun.
      - intros ds' [Hin' Hrun'].
        unfold drawn_in_range in Hin'. rewrite Ebranch in Hin'.
        specialize (Hrun' [] 0). rewrite random_sample_index in Hrun' by exact Hk.
        rewrite Ebranch in Hrun'.
        eapply (pool_unique k (seq 0 n) [] ds' ds s [] 0 [] 0);
          rewrite ?length_seq; try eassumption.
        * apply seq_NoDup.
        * apply (Hrun [] 0). }
    split.
    + intros s Hsel. destruct (Hreach s Hsel) as (ds & Hds & _). now exists ds.
    + intros s1 s2 Hsel1 Hsel2.
      destruct (Hreach s1 Hsel1) as (ds1 & Hds1 & Hone1).
      destruct (Hreach s2 Hsel2) as (ds2 & Hds2 & Hone2).
      assert (Hlen : List.length ds2 = List.length ds1).
      { destruct Hds1 as [H1 _], Hds2 as [H2 _].
        unfold drawn_in_range in H1, H2. rewrite Ebranch in H1, H2.
        apply Forall2_length in H1, H2. congruence. }
      exists (fun _ => ds2), (fun _ => ds1). split.
      * intros ds Hds. rewrite (Hone1 ds Hds). auto.
      * intros ds Hds. rewrite (Hone2 ds Hds). auto.
  - (* the set *)
    split.
    + intros s Hsel. pose proof (selection_fits n k s Hsel) as Hk.
      destruct Hsel as (Hlen & Hnd & Hall).
      exists s. split; [unfold drawn_in_range; now rewrite Ebranch |].
      intros tr b. rewrite random_sample_index by exact Hk. rewrite Ebranch, <- Hlen.
      apply (set_reach n s [] [] tr b); [now rewrite app_nil_r | exact Hall].
    + intros s1 s2 Hsel1 Hsel2. pose proof (selection_fits n k s1 Hsel1) as Hk.
      destruct Hsel1 as (Hlen1 & Hnd1 & Hall1), Hsel2 as (Hlen2 & Hnd2 & Hall2).
      destruct (selections_relabel n s2 s1 Hnd1 Hnd2 ltac:(congruence) Hall1 Hall2)
        as (relabel & back & H1 & H2 & H3 & H4 & _ & H6).
      assert (H6' : map back s2 = s1).
      { rewrite <- H6, map_map. rewrite <- (map_id s1) at 2. apply map_ext. exact H1. }
      exists (map relabel), (map back). split.
      * intros ds Hds. exact (set_draws_relabel n k relabel back s1 s2 ds Hk Ebranch H1 H3 H6 Hds).
      * intros ds Hds. exact (set_draws_relabel n k back relabel s2 s1 ds Hk Ebranch H2 H4 H6' Hds).
Qed.

Lemma set_perm {A} (l : list A) :
  forall j a b,
    nth_error l j = Some b -> Permutation (b :: list_set j a l) (a :: l).
Proof.
  induction l as [| c l IH]; intros [| j] a b H; simpl in *; try discriminate.
  - injection H as ->. apply perm_swap.
  - eapply perm_trans; [apply perm_swap |].
    eapply perm_trans; [apply perm_skip, IH, H |]. apply perm_swap.
Qed.

(** [x[i], x[j] = x[j], x[i]] moves elements around and nothing else. *)
Lemma swap_perm {A} (x : list A) : forall i j, Permutation (swap i j x) x.
Proof.
  unfold swap. induction x as [| a x IH]; intros i j.
  - destruct i, j; apply Permutation_refl.
  - destruct i as [| i], j as [| j]; simpl.
    + apply Permutation_refl.
    + destruct (nth_error x j) as [xj |] eqn:Ej; [| apply Permutation_refl].
      simpl. now apply set_perm.
    + destruct (nth_error x i) as [xi |] eqn:Ei; [| apply Permutation_refl].
      simpl. now apply set_perm.
    + specialize (IH i j).
      destruct (nth_error x i) as [xi |]; [| apply Permutation_refl].
      destruct (nth_error x j) as [xj |]; [| apply Permutation_refl].
      simpl. now apply perm_skip.
Qed.

(** [random.shuffle] returns a rearrangement of its argument and asks no
    service. *)
Lemma shuffle_loop_spec {A} (i : nat) :
  forall (x : list A) w,
    exists y w',
      shuffle_loop i x w = (Returns y, w')
      /\ trace w' = trace w /\ Permutation y x.
Proof.
  induction i as [| i IH]; intros x w; simpl.
  - exists x, w. repeat split. apply Permutation_refl.
  - unfold bind, randbelow.
    destruct (IH (swap (S i) (Nat.modulo (fst (next_draw (rng w))) (S i + 1)) x)
                 {| trace := trace w; rng := snd (next_draw (rng w)) |})
      as (y & w' & E & Ht & Hp).
    exists y, w'. split; [exact E |]. split; [exact Ht |].
    eapply perm_trans; [exact Hp | apply swap_perm].
Qed.

Lemma random_shuffle_spec {A} (x : list A) w :
  exists y w',
    random_shuffle x w = (Returns y, w')
    /\ trace w' = trace w /\ Permutation y x.
Proof. apply shuffle_loop_spec. Qed.

Lemma random_shuffle_nil {A} w : random_shuffle (@nil A) w = (Returns [], w).
Proof. reflexivity. Qed.

(** ** The Secondary Catalog Client *)

Lemma client_get_run env url w :
  client_get env url w
  = (httpx_get env (trace w) url, observed w (HttpGet url (httpx_get env (trace w) url))).
Proof. reflexivity. Qed.

Lemma lookups_cons url key keys data answers :
  lookups url (key :: keys) (data :: answers)
  = HttpGet (url key) (Returns data) :: lookups url keys answers.
Proof. reflexivity. Qed.

(** The three catalogue operations are instances of [lookup_loop] whose
    update asks no service; [after key data s s'] relates the value before
    and after the update for an answer [data]. *)
Section HttpLoop.
Context {S : Type}.
Variable env : Env.
Variable url : string -> string.
Variable step : string -> TivoData -> S -> M S.
Variable after : string -> TivoData -> S -> S -> Prop.

Hypothesis step_spec :
  forall key data s w,
    exists s' w',
      step key data s w = (Returns s', w')
      /\ trace w' = trace w /\ after key data s s'.

Lemma chain_length keys answers s s' :
  chain after keys answers s s' -> List.length answers = List.length keys.
Proof. induction 1; simpl; congruence. Qed.

Lemma http_loop_returns keys :
  transport_ok env -> forall s, never_raises (lookup_loop env url step keys s).
Proof.
  intros Hok. unfold lookup_loop. apply never_raises_for_each. intros key s w.
  unfold bind. rewrite client_get_run.
  destruct (Hok (trace w) (url key)) as (data & E). rewrite E.
  destruct (step_spec key data s (observed w (HttpGet (url key) (Returns data))))
    as (s' & w' & E' & _).
  now exists s', w'.
Qed.

Lemma http_loop_spec keys :
  forall s w s' w',
    lookup_loop env url step keys s w = (Returns s', w') ->
    exists answers,
      trace w' = trace w ++ lookups url keys answers
      /\ chain after keys answers s s'.
Proof.
  unfold lookup_loop. induction keys as [| key keys IH]; intros s w s' w' Hrun; simpl in Hrun.
  - injection Hrun as <- <-. exists []. simpl. rewrite app_nil_r.
    split; [reflexivity | constructor].
  - apply bind_inv in Hrun. destruct Hrun as (s1 & w1 & Hbody & Hrest).
    apply bind_inv in Hbody. destruct Hbody as (data & w0 & Hget & Hstep).
    rewrite client_get_run in Hget. injection Hget as Hanswer <-.
    destruct (step_spec key data s (observed w (HttpGet (url key) (httpx_get env (trace w) (url key)))))
      as (s1' & w1' & E & Htr & Hafter).
    rewrite E in Hstep. injection Hstep as -> ->.
    destruct (IH _ _ _ _ Hrest) as (answers & Htrace & Hchain).
    exists (data :: answers). split.
    + rewrite Htrace, Htr. unfold observed. simpl trace.
      rewrite Hanswer, lookups_cons, <- app_assoc. reflexivity.
    + econstructor; eassumption.
Qed.
End HttpLoop.

(** *** [get_tivo_artist_ids] *)

Lemma get_tivo_artist_ids_loop env artist_names :
  get_tivo_artist_ids env artist_names
  = lookup_loop env (fun name => artist_search_url (replace_char " " "+" name))
      (fun _ data artist_ids =>
         match hits data with
         | Some (hit :: _) => ret (artist_ids ++ [hit_id hit])
         | _ => ret artist_ids
         end)
      artist_names [].
Proof. reflexivity. Qed.

Lemma artist_ids_step data (artist_ids : list string) w :
  exists s' w',
    match hits data with
    | Some (hit :: _) => ret (artist_ids ++ [hit_id hit])
    | _ => ret artist_ids
    end w = (Returns s', w')
    /\ trace w' = trace w /\ s' = artist_ids ++ first_hit_id data.
Proof.
  unfold first_hit_id.
  destruct (hits data) as [[| hit rest] |]; eexists; eexists;
    (split; [reflexivity |]); rewrite ?app_nil_r; auto.
Qed.

Lemma artist_ids_chain keys answers (ids ids' : list string) :
  chain (fun _ data s s' => s' = s ++ first_hit_id data) keys answers ids ids' ->
  ids' = ids ++ flat_map first_hit_id answers.
Proof.
  induction 1 as [s | key keys data answers s s1 s2 Hstep _ IH]; simpl.
  - now rewrite app_nil_r.
  - rewrite IH, Hstep. now rewrite app_assoc.
Qed.

Lemma get_tivo_artist_ids_returns env artist_names :
  transport_ok env -> never_raises (get_tivo_artist_ids env artist_names).
Proof.
  intros Hok. rewrite get_tivo_artist_ids_loop.
  apply (http_loop_returns env _ _ (fun _ data s s' => s' = s ++ first_hit_id data));
    [intros; apply artist_ids_step | exact Hok].
Qed.

(** [C9, amended] [get_tivo_artist_ids] asks the catalogue once per name,
    in input order, with every space of the name replaced by [+] and the
    name otherwise put into the URL as it is; the result lists, in input
    order, the first hit's identifier of every name whose answer has a hit,
    and nothing for a name without hits.  When the catalogue answers every
    request the operation returns. *)
Theorem get_tivo_artist_ids_spec env artist_names w :
  (transport_ok env ->
   exists ids w', get_tivo_artist_ids env artist_names w = (Returns ids, w'))
  /\ forall ids w',
      get_tivo_artist_ids env artist_names w = (Returns ids, w') ->
      exists answers,
        List.length answers = List.length artist_names
        /\ trace w' = trace w
             ++ lookups (fun name => artist_search_url (replace_char " " "+" name))
                        artist_names answers
        /\ ids = flat_map first_hit_id answers.
Proof.
  split.
  - intros Hok. apply get_tivo_artist_ids_returns, Hok.
  - intros ids w' Hrun. rewrite get_tivo_artist_ids_loop in Hrun.
    eapply http_loop_spec in Hrun; [| intros; apply artist_ids_step].
    destruct Hrun as (answers & Htrace & Hchain).
    exists answers. repeat split.
    + eapply chain_length, Hchain.
    + exact Htrace.
    + now apply artist_ids_chain in Hchain.
Qed.

(** *** [get_tivo_artist_album_ids] *)

Lemma dict_set_in {V} k (v : V) d k' v' :
  In (k', v') (dict_set k v d) -> (k', v') = (k, v) \/ In (k', v') d.
Proof.
  induction d as [| [k0 v0] d IH]; simpl.
  - intros [H | []]. left. now symmetry.
  - destruct (String.eqb_spec k0 k) as [-> | Hne]; simpl.
    + intros [H | H]; [left; now symmetry | right; now right].
    + intros [H | H]; [right; now left |].
      destruct (IH H) as [H' | H']; [now left | right; now right].
Qed.

Lemma dict_set_keys {V} k (v : V) d k' :
  In k' (map fst (dict_set k v d)) <-> k' = k \/ In k' (map fst d).
Proof.
  induction d as [| [k0 v0] d IH]; simpl.
  - intuition.
  - destruct (String.eqb_spec k0 k) as [-> | Hne]; simpl.
    + intuition.
    + rewrite IH. intuition.
Qed.

Lemma dict_get_none {V} k (d : list (string * V)) :
  dict_get k d = None <-> ~ In k (map fst d).
Proof.
  induction d as [| [k0 v0] d IH]; simpl.
  - intuition.
  - destruct (String.eqb_spec k0 k) as [-> | Hne].
    + split; [discriminate | intros H; exfalso; apply H; now left].
    + rewrite IH. intuition.
Qed.

Lemma get_tivo_artist_album_ids_loop env artist_ids :
  get_tivo_artist_album_ids env artist_ids
  = lookup_loop env discography_url
      (fun artist_id data artist_album_dict =>
         match hits data with
         | Some (hit :: rest) =>
             ret (dict_set artist_id (map hit_id (firstn 2 (hit :: rest)))
                    artist_album_dict)
         | _ => ret artist_album_dict
         end)
      artist_ids [].
Proof. reflexivity. Qed.

Lemma album_ids_step artist_id data (d : list (string * list string)) w :
  exists s' w',
    match hits data with
    | Some (hit :: rest) =>
        ret (dict_set artist_id (map hit_id (firstn 2 (hit :: rest))) d)
    | _ => ret d
    end w = (Returns s', w')
    /\ trace w' = trace w /\ album_ids_after artist_id data d s'.
Proof.
  unfold album_ids_after, has_hits.
  destruct (hits data) as [[| hit rest] |]; eexists; eexists;
    (split; [reflexivity |]); (split; [reflexivity |]); auto.
  eexists. split; [reflexivity |].
  rewrite length_map. destruct rest; simpl; lia.
Qed.

Lemma album_ids_chain keys answers d d' :
  chain album_ids_after keys answers d d' ->
  (forall k v, In (k, v) d' ->
               In (k, v) d \/ 1 <= List.length v <= 2)
  /\ (forall k, In k (map fst d') <->
                In k (map fst d)
                \/ exists i data, nth_error keys i = Some k
                                  /\ nth_error answers i = Some data
                                  /\ has_hits data = true).
Proof.
  induction 1 as [s | key keys data answers s s1 s2 Hstep _ [IH1 IH2]].
  - split; [auto |]. intros k. split; [auto |].
    intros [H | (i & data & H & _)]; [exact H | destruct i; discriminate].
  - unfold album_ids_after in Hstep. split.
    + intros k v Hin. destruct (IH1 k v Hin) as [Hs1 | Hlen]; [| now right].
      destruct (has_hits data).
      * destruct Hstep as (album_ids & -> & Hlen).
        apply dict_set_in in Hs1. destruct Hs1 as [[= -> ->] | Hs]; auto.
      * subst s1. now left.
    + intros k. rewrite IH2. split.
      * intros [Hs1 | (i & d0 & Hk & Ha & Hh)].
        -- destruct (has_hits data) eqn:Eh.
           ++ destruct Hstep as (album_ids & -> & _).
              apply dict_set_keys in Hs1. destruct Hs1 as [-> | Hs]; [| now left].
              right. exists 0, data. auto.
           ++ subst s1. now left.
        -- right. exists (S i), d0. auto.
      * intros [Hs | (i & d0 & Hk & Ha & Hh)].
        -- left. destruct (has_hits data).
           ++ destruct Hstep as (album_ids & -> & _). apply dict_set_keys. now right.
           ++ now subst s1.
        -- destruct i as [| i]; simpl in Hk, Ha.
           ++ injection Hk as ->. injection Ha as ->. rewrite Hh in Hstep.
              destruct Hstep as (album_ids & -> & _).
              left. apply dict_set_keys. now left.
           ++ right. exists i, d0. auto.
Qed.

Lemma get_tivo_artist_album_ids_returns env artist_ids :
  transport_ok env -> never_raises (get_tivo_artist_album_ids env artist_ids).
Proof.
  intros Hok. rewrite get_tivo_artist_album_ids_loop.
  apply (http_loop_returns env _ _ album_ids_after);
    [intros; apply album_ids_step | exact Hok].
Qed.

(** [C3] In the mapping returned by [get_tivo_artist_album_ids] every list
    of album identifiers has at most two elements (and at least one), and
    an artist identifier whose lookups found no hit is absent from the
    mapping.  When the catalogue answers every request the operation
    returns. *)
Theorem get_tivo_artist_album_ids_spec env artist_ids w :
  (transport_ok env ->
   exists d w', get_tivo_artist_album_ids env artist_ids w = (Returns d, w'))
  /\ forall d w',
      get_tivo_artist_album_ids env artist_ids w = (Returns d, w') ->
      exists answers,
        List.length answers = List.length artist_ids
        /\ trace w' = trace w ++ lookups discography_url artist_ids answers
        /\ (forall artist_id album_ids,
               In (artist_id, album_ids) d ->
               1 <= List.length album_ids <= 2)
        /\ (forall artist_id,
               (forall i data,
                   nth_error artist_ids i = Some artist_id ->
                   nth_error answers i = Some data ->
                   has_hits data = false) ->
               dict_get artist_id d = None /\ ~ In artist_id (map fst d)).
Proof.
  split.
  - intros Hok. apply get_tivo_artist_album_ids_returns, Hok.
  - intros d w' Hrun. rewrite get_tivo_artist_album_ids_loop in Hrun.
    apply (http_loop_spec env _ _ album_ids_after) in Hrun;
      [| intros; apply album_ids_step].
    destruct Hrun as (answers & Htrace & Hchain).
    destruct (album_ids_chain _ _ _ _ Hchain) as [Hlen Hkeys].
    exists answers. repeat split.
    + eapply chain_length, Hchain.
    + exact Htrace.
    + destruct (Hlen _ _ H) as [[] | Hl]. lia.
    + destruct (Hlen _ _ H) as [[] | Hl]. lia.
    + apply dict_get_none. intros Hin. apply Hkeys in Hin.
      destruct Hin as [[] | (i & data & Hk & Ha & Hh)].
      rewrite (H i data Hk Ha) in Hh. discriminate.
    + intros Hin. apply Hkeys in Hin.
      destruct Hin as [[] | (i & data & Hk & Ha & Hh)].
      rewrite (H i data Hk Ha) in Hh. discriminate.
Qed.

(** *** [get_tivo_tracks_in_albums] *)

Lemma get_tivo_tracks_in_albums_loop env album_ids :
  get_tivo_tracks_in_albums env album_ids
  = lookup_loop env album_url
      (fun _ data tivo_tracks =>
         match hits data with
         | Some (hit :: _) =>
             match hit_tracks hit with
             | Some tracks =>
                 if (10 <? List.length tracks)%nat
                 then sampled <- random_sample tracks 10 ;;
                      ret (tivo_tracks ++ sampled)
                 else ret (tivo_tracks ++ tracks)
             | None => ret tivo_tracks
             end
         | _ => ret tivo_tracks
         end)
      album_ids [].
Proof. reflexivity. Qed.

Lemma tracks_step data (tivo_tracks : list TivoTrack) w :
  exists s' w',
    match hits data with
    | Some (hit :: _) =>
        match hit_tracks hit with
        | Some tracks =>
            if (10 <? List.length tracks)%nat
            then sampled <- random_sample tracks 10 ;;
                 ret (tivo_tracks ++ sampled)
            else ret (tivo_tracks ++ tracks)
        | None => ret tivo_tracks
        end
    | _ => ret tivo_tracks
    end w = (Returns s', w')
    /\ trace w' = trace w
    /\ exists contribution,
        s' = tivo_tracks ++ contribution /\ album_contribution data contribution.
Proof.
  unfold album_contribution.
  destruct (hits data) as [[| hit rest] |].
  1, 3: exists tivo_tracks, w; repeat split; exists []; now rewrite app_nil_r.
  destruct (hit_tracks hit) as [tracks |].
  2: exists tivo_tracks, w; repeat split; exists []; now rewrite app_nil_r.
  destruct (10 <? List.length tracks)%nat eqn:E.
  - apply Nat.ltb_lt in E.
    destruct (random_sample_spec tracks 10 w ltac:(lia))
      as (sampled & rest' & w' & Hrun & Hlen & Hperm & Htr).
    exists (tivo_tracks ++ sampled), w'. repeat split.
    + unfold bind. now rewrite Hrun.
    + exact Htr.
    + exists sampled. repeat split; [exact Hlen | now exists rest'].
  - exists (tivo_tracks ++ tracks), w. repeat split. now exists tracks.
Qed.

Lemma tracks_chain keys answers (s s' : list TivoTrack) :
  chain (fun _ data s s' =>
           exists contribution,
             s' = s ++ contribution /\ album_contribution data contribution)
        keys answers s s' ->
  exists contributions,
    s' = s ++ List.concat contributions
    /\ Forall2 album_contribution answers contributions.
Proof.
  induction 1 as [s | key keys data answers s s1 s2 (c & -> & Hc) _ (cs & -> & Hcs)].
  - exists []. simpl. now rewrite app_nil_r.
  - exists (c :: cs). simpl. rewrite app_assoc. split; [reflexivity | now constructor].
Qed.

Lemma get_tivo_tracks_in_albums_returns env album_ids :
  transport_ok env -> never_raises (get_tivo_tracks_in_albums env album_ids).
Proof.
  intros Hok. rewrite get_tivo_tracks_in_albums_loop.
  apply (http_loop_returns env _ _
           (fun _ data s s' =>
              exists contribution,
                s' = s ++ contribution /\ album_contribution data contribution));
    [intros; apply tracks_step | exact Hok].
Qed.

Lemma prefixed_prefixed {A} (acc more : list A) run :
  prefixed acc (prefixed more run) = prefixed (acc ++ more) run.
Proof. destruct run as [[xs | e] w]; simpl; [now rewrite app_assoc | reflexivity]. Qed.

Lemma add_album_tracks_acc data acc w :
  add_album_tracks data acc w = prefixed acc (add_album_tracks data [] w).
Proof.
  unfold add_album_tracks.
  destruct (hits data) as [[| hit rest] |]; simpl; rewrite ?app_nil_r; try reflexivity.
  destruct (hit_tracks hit) as [tracks |]; simpl; rewrite ?app_nil_r; try reflexivity.
  destruct (10 <? List.length tracks)%nat; simpl; [| reflexivity].
  unfold bind. destruct (random_sample tracks 10 w) as [[sampled | e] w1]; reflexivity.
Qed.

Lemma bind_client_get {B} env url (k : TivoData -> M B) w :
  bind (client_get env url) k w
  = match httpx_get env (trace w) url with
    | Returns data => k data (observed w (HttpGet url (Returns data)))
    | Raises e => (Raises e, observed w (HttpGet url (Raises e)))
    end.
Proof.
  unfold bind. rewrite client_get_run.
  destruct (httpx_get env (trace w) url); reflexivity.
Qed.

(** The loop over albums only ever appends to the list it was given. *)
Lemma tracks_loop_acc env album_ids :
  forall acc w,
    lookup_loop env album_url (fun _ => add_album_tracks) album_ids acc w
    = prefixed acc (lookup_loop env album_url (fun _ => add_album_tracks) album_ids [] w).
Proof.
  unfold lookup_loop. induction album_ids as [| album_id album_ids IH]; intros acc w; simpl.
  - unfold ret. simpl. now rewrite app_nil_r.
  - rewrite !bind_assoc, !bind_client_get.
    destruct (httpx_get env (trace w) (album_url album_id)) as [data | e]; [| reflexivity].
    unfold bind. rewrite add_album_tracks_acc.
    destruct (add_album_tracks data [] (observed w _)) as [[more | e] w1]; simpl;
      [| reflexivity].
    rewrite IH, (IH more), prefixed_prefixed. reflexivity.
Qed.

Lemma lookup_loop_app {S} env url (step : string -> TivoData -> S -> M S) keys keys' s w :
  lookup_loop env url step (keys ++ keys') s w
  = bind (lookup_loop env url step keys s) (lookup_loop env url step keys') w.
Proof. unfold lookup_loop. apply for_each_app. Qed.

Lemma get_tivo_tracks_in_albums_app env album_ids album_ids' w :
  get_tivo_tracks_in_albums env (album_ids ++ album_ids') w
  = match get_tivo_tracks_in_albums env album_ids w with
    | (Returns tracks, w1) => prefixed tracks (get_tivo_tracks_in_albums env album_ids' w1)
    | (Raises e, w1) => (Raises e, w1)
    end.
Proof.
  rewrite !get_tivo_tracks_in_albums_loop.
  change (lookup_loop env album_url ?step)
    with (lookup_loop env album_url (fun _ => add_album_tracks)).
  rewrite lookup_loop_app. unfold bind.
  destruct (lookup_loop env album_url (fun _ => add_album_tracks) album_ids [] w)
    as [[tracks | e] w1]; [| reflexivity].
  apply (tracks_loop_acc env album_ids' tracks w1).
Qed.

(** [C4] [get_tivo_tracks_in_albums] asks the catalogue once per album
    and appends, album by album, what [album_contribution] allows: for a
    first hit with [N] tracks, exactly ten of them (taken from distinct
    positions) when [N > 10] and all [N] otherwise; nothing for an answer
    without hits or a first hit without the ['tracks'] key.  When the
    catalogue answers every request the operation returns.  The ten tracks
    of an album with more are those at the positions that [random.sample]
    chooses among [N] in the state reached, and [random.sample] chooses
    uniformly: every ordered choice of ten different positions is as likely
    as any other. *)
Theorem get_tivo_tracks_in_albums_spec env album_ids w :
  (transport_ok env ->
   exists tivo_tracks w',
     get_tivo_tracks_in_albums env album_ids w = (Returns tivo_tracks, w'))
  /\ (forall tivo_tracks w',
         get_tivo_tracks_in_albums env album_ids w = (Returns tivo_tracks, w') ->
         exists answers contributions,
           List.length answers = List.length album_ids
           /\ trace w' = trace w ++ lookups album_url album_ids answers
           /\ tivo_tracks = List.concat contributions
           /\ Forall2 album_contribution answers contributions)
  /\ (forall before album_id tracks1 w1 data hit others album_tracks,
         get_tivo_tracks_in_albums env before w = (Returns tracks1, w1) ->
         httpx_get env (trace w1) (album_url album_id) = Returns data ->
         hits data = Some (hit :: others) ->
         hit_tracks hit = Some album_tracks ->
         10 < List.length album_tracks ->
         exists positions sampled w2,
           random_sample (seq 0 (List.length album_tracks)) 10
                         (observed w1 (HttpGet (album_url album_id) (Returns data)))
           = (Returns positions, w2)
           /\ selection (List.length album_tracks) 10 positions
           /\ taken_at album_tracks positions sampled
           /\ get_tivo_tracks_in_albums env (before ++ [album_id]) w
              = (Returns (tracks1 ++ sampled), w2))
  /\ forall n, 10 < n -> equally_likely n 10.
Proof.
  split; [| split; [| split]].
  - intros Hok. apply get_tivo_tracks_in_albums_returns, Hok.
  - intros tivo_tracks w' Hrun. rewrite get_tivo_tracks_in_albums_loop in Hrun.
    apply (http_loop_spec env _ _
             (fun _ data s s' =>
                exists contribution,
                  s' = s ++ contribution /\ album_contribution data contribution))
      in Hrun; [| intros; apply tracks_step].
    destruct Hrun as (answers & Htrace & Hchain).
    destruct (tracks_chain _ _ _ _ Hchain) as (contributions & Hs & Hall).
    exists answers, contributions. repeat split.
    + eapply chain_length, Hchain.
    + exact Htrace.
    + exact Hs.
    + exact Hall.
  - intros before album_id tracks1 w1 data hit others album_tracks
           Hbefore Hanswer Hhits Htracks Hmany.
    destruct (random_sample_taken album_tracks 10
                (observed w1 (HttpGet (album_url album_id) (Returns data)))
                ltac:(lia))
      as (positions & sampled & w2 & Eindex & E & Hsel & Htaken & _).
    change (Z.of_nat 10) with 10%Z in Eindex, E.
    exists positions, sampled, w2.
    split; [exact Eindex |]. split; [exact Hsel |]. split; [exact Htaken |].
    rewrite get_tivo_tracks_in_albums_app, Hbefore.
    rewrite get_tivo_tracks_in_albums_loop.
    change (lookup_loop env album_url ?step)
      with (lookup_loop env album_url (fun _ => add_album_tracks)).
    unfold lookup_loop. cbn [for_each].
    rewrite bind_assoc, bind_client_get, Hanswer.
    unfold add_album_tracks at 1. rewrite Hhits, Htracks.
    apply Nat.ltb_lt in Hmany. rewrite Hmany.
    rewrite bind_assoc, (bind_returns _ _ _ _ _ E), !bind_ret_l.
    reflexivity.
  - intros n _. apply random_sample_uniform.
Qed.

(** ** The Artist Recall Aggregator *)

Lemma append_artists_spec l artists :
  append_artists (ids_and_names l) artists = ids_and_names (l ++ artists).
Proof.
  revert l. unfold append_artists.
  induction artists as [| a artists IH]; intros l; simpl.
  - now rewrite app_nil_r.
  - replace (append_artist (ids_and_names l) a) with (ids_and_names (l ++ [a])).
    + rewrite IH, <- app_assoc. reflexivity.
    + unfold append_artist, ids_and_names. simpl. now rewrite !map_app.
Qed.

Lemma fold_append_artists {X} (f : X -> list Artist) xs l :
  fold_left (fun acc x => append_artists acc (f x)) xs (ids_and_names l)
  = ids_and_names (l ++ flat_map f xs).
Proof.
  revert l. induction xs as [| x xs IH]; intros l; simpl.
  - now rewrite app_nil_r.
  - rewrite append_artists_spec, IH, <- app_assoc. reflexivity.
Qed.

(** The walk through the items of a track page adds the artists of their
    tracks, or stops at an item without track. *)
Lemma read_items track_items :
  forall l w,
    for_each track_items
      (fun item acc =>
         match item_track item with
         | Some track => ret (append_artists acc (track_artists track))
         | None => raise not_subscriptable
         end)
      (ids_and_names l) w
    = (if forallb has_track track_items
       then ret (ids_and_names (l ++ flat_map item_artists track_items))
       else raise not_subscriptable) w.
Proof.
  induction track_items as [| [[track |]] track_items IH]; intros l w; simpl.
  - now rewrite app_nil_r.
  - rewrite bind_ret_l, append_artists_spec, IH.
    unfold item_artists at 2. simpl. now rewrite <- app_assoc.
  - reflexivity.
Qed.

(** The loop over the playlists adds what the track pages of the playlists
    contribute, playlist after playlist. *)
Lemma playlists_loop self playlists :
  forall l w,
    for_each playlists
      (fun playlist acc =>
         tracks_result <- get_playlist_tracks self (playlist_id playlist) 3 0 ;;
         match tracks_result with
         | Success data _ =>
             for_each (items data)
               (fun item acc =>
                  match item_track item with
                  | Some track => ret (append_artists acc (track_artists track))
                  | None => raise not_subscriptable
                  end)
               acc
         | Failure _ _ => ret acc
         end)
      (ids_and_names l) w
    = (results <- map_each playlists (read_playlist_tracks self) ;;
       ret (ids_and_names (l ++ flat_map from_playlist_tracks results))) w.
Proof.
  induction playlists as [| p playlists IH]; intros l w; simpl.
  - rewrite bind_ret_l. simpl. now rewrite app_nil_r.
  - unfold read_playlist_tracks at 1. rewrite !bind_assoc. apply bind_ext.
    intros result w1.
    destruct result as [data msg | err msg].
    + unfold bind at 1. rewrite read_items.
      destruct (forallb has_track (items data)); [| reflexivity].
      rewrite bind_ret_l. unfold ret at 1. rewrite IH, bind_assoc.
      apply bind_ext. intros results w2.
      rewrite bind_ret_l. simpl. now rewrite app_assoc.
    + rewrite !bind_ret_l. rewrite <- (app_nil_r l) at 1. rewrite IH, bind_assoc.
      apply bind_ext. intros results w2.
      rewrite bind_ret_l. simpl. now rewrite app_nil_r.
Qed.

Lemma playlists_loop_then {B} self playlists l (k : list string * list string -> M B) w :
  bind (for_each playlists
          (fun playlist acc =>
             tracks_result <- get_playlist_tracks self (playlist_id playlist) 3 0 ;;
             match tracks_result with
             | Success data _ =>
                 for_each (items data)
                   (fun item acc =>
                      match item_track item with
                      | Some track => ret (append_artists acc (track_artists track))
                      | None => raise not_subscriptable
                      end)
                   acc
             | Failure _ _ => ret acc
             end)
          (ids_and_names l)) k w
  = bind (map_each playlists (read_playlist_tracks self))
         (fun results => k (ids_and_names (l ++ flat_map from_playlist_tracks results))) w.
Proof.
  unfold bind at 1. rewrite playlists_loop. unfold bind, ret.
  destruct (map_each playlists _ w) as [[results | e] w1]; reflexivity.
Qed.

Lemma recent_adds l recent :
  match recent with
  | Success data _ =>
      fold_left (fun acc item => append_artists acc (track_artists (played_track item)))
                (items data) (ids_and_names l)
  | Failure _ _ => ids_and_names l
  end = ids_and_names (l ++ from_recent recent).
Proof.
  destruct recent; simpl; [apply fold_append_artists | now rewrite app_nil_r].
Qed.

Lemma top_tracks_adds l top_tracks :
  match top_tracks with
  | Success data _ =>
      fold_left (fun acc track => append_artists acc (track_artists track))
                (items data) (ids_and_names l)
  | Failure _ _ => ids_and_names l
  end = ids_and_names (l ++ from_top_tracks top_tracks).
Proof.
  destruct top_tracks; simpl; [apply fold_append_artists | now rewrite app_nil_r].
Qed.

Lemma top_artists_adds l (top_artists : Envelope (Paging Artist)) :
  match top_artists with
  | Success data _ => append_artists (ids_and_names l) (items data)
  | Failure _ _ => ids_and_names l
  end = ids_and_names (l ++ from_top_artists top_artists).
Proof.
  destruct top_artists; simpl; [apply append_artists_spec | now rewrite app_nil_r].
Qed.

Lemma followed_adds l followed :
  match followed with
  | Success data _ => append_artists (ids_and_names l) (items (followed_artists data))
  | Failure _ _ => ids_and_names l
  end = ids_and_names (l ++ from_followed followed).
Proof.
  destruct followed; simpl; [apply append_artists_spec | now rewrite app_nil_r].
Qed.

Lemma saved_albums_adds l saved_albums :
  match saved_albums with
  | Success data _ =>
      fold_left (fun acc item => append_artists acc (album_artists (saved_album item)))
                (items data) (ids_and_names l)
  | Failure _ _ => ids_and_names l
  end = ids_and_names (l ++ from_saved_albums saved_albums).
Proof.
  destruct saved_albums; simpl; [apply fold_append_artists | now rewrite app_nil_r].
Qed.

Lemma saved_tracks_adds l saved_tracks :
  match saved_tracks with
  | Success data _ =>
      fold_left (fun acc item => append_artists acc (track_artists (saved_track item)))
                (items data) (ids_and_names l)
  | Failure _ _ => ids_and_names l
  end = ids_and_names (l ++ from_saved_tracks saved_tracks).
Proof.
  destruct saved_tracks; simpl; [apply fold_append_artists | now rewrite app_nil_r].
Qed.

(** The accumulation of lines 649-719 is the concatenation of what the
    seven sources contribute. *)
Lemma collect_artists_sources self top_limit recent_limit playlist_limit album_limit
      saved_tracks_limit w :
  collect_artists self top_limit recent_limit playlist_limit album_limit
                  saved_tracks_limit w
  = (all <- seven_sources self top_limit recent_limit ;; ret (ids_and_names all)) w.
Proof.
  unfold collect_artists, seven_sources.
  change (@nil string, @nil string) with (ids_and_names []).
  rewrite bind_assoc. apply bind_ext. intros recent w1.
  rewrite recent_adds.
  rewrite bind_assoc. apply bind_ext. intros top_tracks w2.
  rewrite top_tracks_adds.
  rewrite bind_assoc. apply bind_ext. intros top_artists w3.
  rewrite top_artists_adds.
  rewrite bind_assoc. apply bind_ext. intros followed w4.
  rewrite followed_adds.
  rewrite bind_assoc. apply bind_ext. intros playlists w5.
  rewrite bind_assoc.
  assert (Htail : forall l l' w6,
             l' = l ->
             (saved_albums <- get_saved_albums self 3 0 ;;
              saved_tracks <- get_saved_tracks self 3 0 ;;
              ret match saved_tracks with
                  | Success data _ =>
                      fold_left
                        (fun acc0 item =>
                           append_artists acc0 (track_artists (saved_track item)))
                        (items data)
                        match saved_albums with
                        | Success data0 _ =>
                            fold_left
                              (fun acc0 item =>
                                 append_artists acc0 (album_artists (saved_album item)))
                              (items data0) (ids_and_names l)
                        | Failure _ _ => ids_and_names l
                        end
                  | Failure _ _ =>
                      match saved_albums with
                      | Success data _ =>
                          fold_left
                            (fun acc0 item =>
                               append_artists acc0 (album_artists (saved_album item)))
                            (items data) (ids_and_names l)
                      | Failure _ _ => ids_and_names l
                      end
                  end) w6
             = (all <- (saved_albums <- get_saved_albums self 3 0 ;;
                        saved_tracks <- get_saved_tracks self 3 0 ;;
                        ret (l' ++ from_saved_albums saved_albums
                               ++ from_saved_tracks saved_tracks)) ;;
                ret (ids_and_names all)) w6).
  { intros l l' w6 ->.
    rewrite bind_assoc. apply bind_ext. intros saved_albums w7.
    rewrite bind_assoc. apply bind_ext. intros saved_tracks w8.
    rewrite bind_ret_l, saved_albums_adds, saved_tracks_adds.
    now rewrite <- app_assoc. }
  destruct playlists as [data msg | err msg].
  - rewrite playlists_loop_then. apply bind_ext. intros results w6.
    rewrite Htail with (l' := from_recent recent ++ from_top_tracks top_tracks
         ++ from_top_artists top_artists ++ from_followed followed
         ++ flat_map from_playlist_tracks results).
    + rewrite !bind_assoc. apply bind_ext. intros saved_albums w7.
      rewrite !bind_assoc. apply bind_ext. intros saved_tracks w8.
      rewrite !bind_ret_l. now rewrite <- !app_assoc.
    + simpl. now rewrite <- !app_assoc.
  - rewrite !bind_ret_l.
    rewrite Htail with (l' := from_recent recent ++ from_top_tracks top_tracks
         ++ from_top_artists top_artists ++ from_followed followed).
    + rewrite !bind_assoc. apply bind_ext. intros saved_albums w7.
      rewrite !bind_assoc. apply bind_ext. intros saved_tracks w8.
      rewrite !bind_ret_l. simpl. now rewrite <- !app_assoc.
    + simpl. now rewrite <- !app_assoc.
Qed.

(** *** De-duplication *)

Lemma mem_In x xs : mem x xs = true <-> In x xs.
Proof.
  unfold mem. rewrite existsb_exists. split.
  - intros (y & Hy & E). apply String.eqb_eq in E. now subst.
  - intros H. exists x. split; [exact H | apply String.eqb_refl].
Qed.

Lemma deduplicate_fold all :
  deduplicate (map artist_id all) (map artist_name all)
  = fold_left keep_first all ([], []).
Proof.
  unfold deduplicate. generalize (@nil string, @nil string).
  induction all as [| a all IH]; intros result; simpl.
  - reflexivity.
  - apply IH.
Qed.

Lemma first_occurrence_app all j artist extra :
  first_occurrence all j artist -> first_occurrence (all ++ extra) j artist.
Proof.
  intros [Hj Hfirst].
  assert (Hlt : j < List.length all) by (apply nth_error_Some; congruence).
  split.
  - rewrite nth_error_app1; assumption.
  - intros j' earlier Hlt' Hnth. apply (Hfirst j' earlier Hlt').
    rewrite nth_error_app1 in Hnth; [exact Hnth | lia].
Qed.

(** One round of the loop keeps the description of the result. *)
Lemma keep_first_step done result artist :
  first_occurrences_kept done (fst result) (snd result) ->
  NoDup (fst result) ->
  (forall a, In a done -> In (artist_id a) (fst result)) ->
  let result' := keep_first result artist in
  first_occurrences_kept (done ++ [artist]) (fst result') (snd result')
  /\ NoDup (fst result')
  /\ (forall a, In a (done ++ [artist]) -> In (artist_id a) (fst result')).
Proof.
  intros (js & Hjs & Hnames & Hinc & Hat) Hnodup Hcover. unfold keep_first.
  destruct (mem (artist_id artist) (fst result)) eqn:Emem; simpl negb; cbv iota.
  - apply mem_In in Emem. repeat split.
    + exists js. repeat split; try assumption.
      intros i j Hij. destruct (Hat i j Hij) as (a & Hfo & Hid & Hname).
      exists a. repeat split; try assumption.
      * now apply first_occurrence_app.
      * now apply first_occurrence_app.
    + exact Hnodup.
    + intros a Hin. apply in_app_or in Hin.
      destruct Hin as [Hin | [<- | []]]; [now apply Hcover | exact Emem].
  - assert (Hnotin : ~ In (artist_id artist) (fst result)).
    { intros Hin. apply mem_In in Hin. congruence. }
    simpl fst. simpl snd. repeat split.
    + exists (js ++ [List.length done]). repeat split.
      * rewrite !length_app. simpl. lia.
      * rewrite !length_app. simpl. lia.
      * intros i1 i2 j1 j2 Hlt H1 H2.
        assert (Hi2 : i2 < List.length (js ++ [List.length done]))
          by (apply nth_error_Some; congruence).
        rewrite length_app in Hi2. simpl in Hi2.
        rewrite nth_error_app1 in H1 by lia.
        destruct (Nat.eq_dec i2 (List.length js)) as [-> | Hne].
        -- rewrite nth_error_app2, Nat.sub_diag in H2 by lia.
           injection H2 as <-.
           destruct (Hat i1 j1 H1) as (a & [Hnth _] & _).
           apply nth_error_Some. congruence.
        -- rewrite nth_error_app1 in H2 by lia.
           apply (Hinc i1 i2 j1 j2); assumption.
      * intros i j Hij.
        assert (Hi : i < List.length (js ++ [List.length done]))
          by (apply nth_error_Some; congruence).
        rewrite length_app in Hi. simpl in Hi.
        destruct (Nat.eq_dec i (List.length js)) as [-> | Hne].
        -- rewrite nth_error_app2, Nat.sub_diag in Hij by lia.
           injection Hij as <-. exists artist. repeat split.
           ++ now rewrite nth_error_app2, Nat.sub_diag by lia.
           ++ intros j' earlier Hlt Hnth Heq.
              rewrite nth_error_app1 in Hnth by lia.
              apply Hnotin. rewrite <- Heq. apply Hcover.
              eapply nth_error_In, Hnth.
           ++ now rewrite Hjs, nth_error_app2, Nat.sub_diag by lia.
           ++ now rewrite Hjs, <- Hnames, nth_error_app2, Nat.sub_diag by lia.
        -- rewrite nth_error_app1 in Hij by lia.
           destruct (Hat i j Hij) as (a & Hfo & Hid & Hname).
           exists a. repeat split.
           ++ now apply first_occurrence_app.
           ++ now apply first_occurrence_app.
           ++ rewrite nth_error_app1 by lia. exact Hid.
           ++ rewrite nth_error_app1 by lia. exact Hname.
    + apply NoDup_app; [exact Hnodup | repeat constructor; auto |].
      intros x Hx [<- | []]. now apply Hnotin.
    + intros a Hin. apply in_app_or in Hin. apply in_or_app.
      destruct Hin as [Hin | [<- | []]]; [left; now apply Hcover | right; now left].
Qed.

Lemma keep_first_fold rest :
  forall done result,
    first_occurrences_kept done (fst result) (snd result) ->
    NoDup (fst result) ->
    (forall a, In a done -> In (artist_id a) (fst result)) ->
    let result' := fold_left keep_first rest result in
    first_occurrences_kept (done ++ rest) (fst result') (snd result')
    /\ NoDup (fst result')
    /\ (forall a, In a (done ++ rest) -> In (artist_id a) (fst result')).
Proof.
  induction rest as [| artist rest IH]; intros done result Hkept Hnodup Hcover; simpl.
  - rewrite app_nil_r. auto.
  - destruct (keep_first_step done result artist Hkept Hnodup Hcover)
      as (Hkept' & Hnodup' & Hcover').
    specialize (IH (done ++ [artist]) (keep_first result artist) Hkept' Hnodup' Hcover').
    rewrite <- app_assoc in IH. exact IH.
Qed.

Lemma deduplicate_spec all :
  let result := deduplicate (map artist_id all) (map artist_name all) in
  first_occurrences_kept all (fst result) (snd result)
  /\ NoDup (fst result)
  /\ (forall a, In a all -> In (artist_id a) (fst result)).
Proof.
  rewrite deduplicate_fold.
  apply (keep_first_fold all [] ([], [])).
  - exists []. split; [reflexivity |]. split; [reflexivity |]. split.
    + intros i1 i2 j1 j2 _ H. destruct i1; discriminate.
    + intros i j Hij. destruct i; discriminate.
  - constructor.
  - intros a [].
Qed.

(** *** [recall_artists] *)

Lemma recall_artists_sources self top_limit recent_limit playlist_limit album_limit
      saved_tracks_limit w :
  recall_artists self top_limit recent_limit playlist_limit album_limit
                 saved_tracks_limit w
  = (all <- seven_sources self top_limit recent_limit ;;
     ret (deduplicate (map artist_id all) (map artist_name all))) w.
Proof.
  unfold recall_artists. unfold bind at 1. rewrite collect_artists_sources.
  unfold bind, ret.
  destruct (seven_sources self top_limit recent_limit w) as [[all | e] w1]; reflexivity.
Qed.

Lemma requested_urls_app evs evs' :
  requested_urls (evs ++ evs') = requested_urls evs ++ requested_urls evs'.
Proof. apply flat_map_app. Qed.

Lemma sp_requests_app evs evs' :
  sp_requests (evs ++ evs') = sp_requests evs ++ sp_requests evs'.
Proof. apply flat_map_app. Qed.

(** A source is one request; what it contributes can be read off the
    exchange. *)
Ltac one_source :=
  unfold try_except, bind, sp_call, ret, observed;
  match goal with
  | |- context [spotipy ?self ?h ?r] => destruct (spotipy self h r)
  end;
  eexists; split; reflexivity.

Lemma get_recently_played_run self limit w :
  exists envelope,
    get_recently_played self limit w
    = (Returns envelope,
       observed w (SpCall (sp.current_user_recently_played limit)
                          (spotipy self (trace w) (sp.current_user_recently_played limit))))
    /\ from_recent envelope
       = source_artists
           (SpCall (sp.current_user_recently_played limit)
                   (spotipy self (trace w) (sp.current_user_recently_played limit))).
Proof. unfold get_recently_played. one_source. Qed.

Lemma get_top_tracks_run self time_range limit w :
  exists envelope,
    get_top_tracks self time_range limit w
    = (Returns envelope,
       observed w (SpCall (sp.current_user_top_tracks time_range limit)
                          (spotipy self (trace w)
                                   (sp.current_user_top_tracks time_range limit))))
    /\ from_top_tracks envelope
       = source_artists
           (SpCall (sp.current_user_top_tracks time_range limit)
                   (spotipy self (trace w) (sp.current_user_top_tracks time_range limit))).
Proof. unfold get_top_tracks. one_source. Qed.

Lemma get_top_artists_run self time_range limit w :
  exists envelope,
    get_top_artists self time_range limit w
    = (Returns envelope,
       observed w (SpCall (sp.current_user_top_artists time_range limit)
                          (spotipy self (trace w)
                                   (sp.current_user_top_artists time_range limit))))
    /\ from_top_artists envelope
       = source_artists
           (SpCall (sp.current_user_top_artists time_range limit)
                   (spotipy self (trace w) (sp.current_user_top_artists time_range limit))).
Proof. unfold get_top_artists. one_source. Qed.

Lemma get_followed_artists_run self limit w :
  exists envelope,
    get_followed_artists self limit None w
    = (Returns envelope,
       observed w (SpCall (sp.current_user_followed_artists limit "artist" None)
                          (spotipy self (trace w)
                                   (sp.current_user_followed_artists limit "artist" None))))
    /\ from_followed envelope
       = source_artists
           (SpCall (sp.current_user_followed_artists limit "artist" None)
                   (spotipy self (trace w)
                            (sp.current_user_followed_artists limit "artist" None))).
Proof. unfold get_followed_artists. one_source. Qed.

Lemma get_user_playlists_run self limit offset w :
  get_user_playlists self limit offset w
  = (Returns match spotipy self (trace w) (sp.current_user_playlists limit offset) with
             | Returns playlists =>
                 Success playlists
                   ("Successfully retrieved playlists, total: "
                      ++ str_nat (List.length (items playlists)))
             | Raises e => Failure e "Failed to get playlists"
             end,
     observed w (SpCall (sp.current_user_playlists limit offset)
                        (spotipy self (trace w) (sp.current_user_playlists limit offset)))).
Proof.
  apply (one_call_envelope self (sp.current_user_playlists limit offset)
           (fun playlists : Paging Playlist =>
              Success playlists
                ("Successfully retrieved playlists, total: "
                   ++ str_nat (List.length (items playlists))))
           (fun e => Failure e "Failed to get playlists")).
Qed.

Lemma get_saved_albums_run self limit offset w :
  exists envelope,
    get_saved_albums self limit offset w
    = (Returns envelope,
       observed w (SpCall (sp.current_user_saved_albums limit offset)
                          (spotipy self (trace w)
                                   (sp.current_user_saved_albums limit offset))))
    /\ from_saved_albums envelope
       = source_artists
           (SpCall (sp.current_user_saved_albums limit offset)
                   (spotipy self (trace w) (sp.current_user_saved_albums limit offset))).
Proof. unfold get_saved_albums. one_source. Qed.

Lemma get_saved_tracks_run self limit offset w :
  exists envelope,
    get_saved_tracks self limit offset w
    = (Returns envelope,
       observed w (SpCall (sp.current_user_saved_tracks limit offset)
                          (spotipy self (trace w)
                                   (sp.current_user_saved_tracks limit offset))))
    /\ from_saved_tracks envelope
       = source_artists
           (SpCall (sp.current_user_saved_tracks limit offset)
                   (spotipy self (trace w) (sp.current_user_saved_tracks limit offset))).
Proof. unfold get_saved_tracks. one_source. Qed.

(** The track page of one playlist: it is requested, and then either read
    to the end or left at an item without track. *)
Lemma read_playlist_tracks_run self playlist w :
  (exists envelope,
      read_playlist_tracks self playlist w
      = (Returns envelope,
         observed w (SpCall (sp.playlist_tracks (playlist_id playlist) 3 0)
                            (spotipy self (trace w)
                                     (sp.playlist_tracks (playlist_id playlist) 3 0))))
      /\ from_playlist_tracks envelope
         = source_artists
             (SpCall (sp.playlist_tracks (playlist_id playlist) 3 0)
                     (spotipy self (trace w)
                              (sp.playlist_tracks (playlist_id playlist) 3 0))))
  \/ (read_playlist_tracks self playlist w
      = (Raises not_subscriptable,
         observed w (SpCall (sp.playlist_tracks (playlist_id playlist) 3 0)
                            (spotipy self (trace w)
                                     (sp.playlist_tracks (playlist_id playlist) 3 0))))
      /\ exists page,
          spotipy self (trace w) (sp.playlist_tracks (playlist_id playlist) 3 0)
          = Returns page
          /\ forallb has_track (items page) = false).
Proof.
  unfold read_playlist_tracks, get_playlist_tracks, try_except, bind, sp_call, ret, observed.
  destruct (spotipy self (trace w) (sp.playlist_tracks (playlist_id playlist) 3 0))
    as [page | e].
  - destruct (forallb has_track (items page)) eqn:E.
    + left. eexists. split; reflexivity.
    + right. split; [reflexivity |]. now exists page.
  - left. eexists. split; reflexivity.
Qed.

(** The track pages of the playlists, one request per playlist, up to the
    first item without track. *)
Lemma playlist_pages_run self playlists :
  forall w,
    exists evs w',
      trace w' = trace w ++ evs
      /\ rng w' = rng w
      /\ requested_urls evs = []
      /\ ((exists results,
              map_each playlists (read_playlist_tracks self) w = (Returns results, w')
              /\ flat_map from_playlist_tracks results = flat_map source_artists evs
              /\ sp_requests evs
                 = map (fun playlist => sp.playlist_tracks (playlist_id playlist) 3 0)
                       playlists)
          \/ (map_each playlists (read_playlist_tracks self) w
              = (Raises not_subscriptable, w')
              /\ exists h playlist_id page,
                  spotipy self h (sp.playlist_tracks playlist_id 3 0) = Returns page
                  /\ forallb has_track (items page) = false)).
Proof.
  induction playlists as [| playlist playlists IH]; intros w; simpl.
  - exists [], w. rewrite app_nil_r. repeat split. left. exists []. repeat split.
  - set (ev := SpCall (sp.playlist_tracks (playlist_id playlist) 3 0)
                      (spotipy self (trace w) (sp.playlist_tracks (playlist_id playlist) 3 0))).
    destruct (read_playlist_tracks_run self playlist w)
      as [(envelope & E & Hfrom) | (E & page & Hpage & Hnull)]; fold ev in E.
    + fold ev in Hfrom.
      destruct (IH (observed w ev))
        as (evs & w' & Htrace & Hrng & Hurl
            & [(results & Hrun & Hall & Hreq) | (Hrun & Hbad)]).
      * exists (ev :: evs), w'. repeat split.
        -- rewrite Htrace. unfold observed. simpl. now rewrite <- app_assoc.
        -- exact Hrng.
        -- exact Hurl.
        -- left. exists (envelope :: results). repeat split.
           ++ rewrite (bind_returns _ _ _ _ _ E), (bind_returns _ _ _ _ _ Hrun).
              reflexivity.
           ++ simpl flat_map. now rewrite Hfrom, Hall.
           ++ simpl. now rewrite <- Hreq.
      * exists (ev :: evs), w'. repeat split.
        -- rewrite Htrace. unfold observed. simpl. now rewrite <- app_assoc.
        -- exact Hrng.
        -- exact Hurl.
        -- right. split; [| exact Hbad].
           rewrite (bind_returns _ _ _ _ _ E). now apply bind_raises.
    + exists [ev], (observed w ev). repeat split.
      right. split; [now apply bind_raises |].
      now exists (trace w), (playlist_id playlist), page.
Qed.

(** A run of the seven sources: what is asked, in which order, and what
    comes of it.  Either every source is read, whatever it answered, and
    the artists are those of the exchanges; or the run ends at a playlist
    item without track. *)
Lemma seven_sources_run self top_limit recent_limit w :
  exists (answer : Outcome (Paging Playlist)) evs w',
    trace w' = trace w ++ evs
    /\ rng w' = rng w
    /\ requested_urls evs = []
    /\ ((seven_sources self top_limit recent_limit w
         = (Returns (flat_map source_artists evs), w')
         /\ In (SpCall (sp.current_user_playlists 3 0) answer) evs
         /\ sp_requests evs
            = [sp.current_user_recently_played recent_limit;
               sp.current_user_top_tracks "long_term" top_limit;
               sp.current_user_top_artists "long_term" top_limit;
               sp.current_user_followed_artists 3 "artist" None;
               sp.current_user_playlists 3 0]
                ++ map (fun playlist => sp.playlist_tracks (playlist_id playlist) 3 0)
                       (listed_playlists answer)
                ++ [sp.current_user_saved_albums 3 0; sp.current_user_saved_tracks 3 0])
        \/ (seven_sources self top_limit recent_limit w = (Raises not_subscriptable, w')
            /\ exists h playlist_id page,
                spotipy self h (sp.playlist_tracks playlist_id 3 0) = Returns page
                /\ forallb has_track (items page) = false)).
Proof.
  unfold seven_sources.
  destruct (get_recently_played_run self recent_limit w) as (recent & E1 & F1).
  rewrite (bind_returns _ _ _ _ _ E1). clear E1.
  set (ev1 := SpCall (sp.current_user_recently_played recent_limit) _) in *.
  destruct (get_top_tracks_run self "long_term" top_limit (observed w ev1))
    as (top_tracks & E2 & F2).
  rewrite (bind_returns _ _ _ _ _ E2). clear E2.
  set (ev2 := SpCall (sp.current_user_top_tracks "long_term" top_limit) _) in *.
  destruct (get_top_artists_run self "long_term" top_limit (observed (observed w ev1) ev2))
    as (top_artists & E3 & F3).
  rewrite (bind_returns _ _ _ _ _ E3). clear E3.
  set (ev3 := SpCall (sp.current_user_top_artists "long_term" top_limit) _) in *.
  destruct (get_followed_artists_run self 3 (observed (observed (observed w ev1) ev2) ev3))
    as (followed & E4 & F4).
  rewrite (bind_returns _ _ _ _ _ E4). clear E4.
  set (ev4 := SpCall (sp.current_user_followed_artists 3 "artist" None) _) in *.
  set (w4 := observed (observed (observed (observed w ev1) ev2) ev3) ev4).
  rewrite (bind_returns _ _ _ _ _ (get_user_playlists_run self 3 0 w4)).
  set (answer := spotipy self (trace w4) (sp.current_user_playlists 3 0)).
  set (ev5 := SpCall (sp.current_user_playlists 3 0) answer).
  assert (Hw4 : trace (observed w4 ev5) = trace w ++ [ev1; ev2; ev3; ev4; ev5]).
  { unfold w4, observed. simpl trace. rewrite <- !app_assoc. reflexivity. }
  assert (Hpl : exists evs w5,
             trace w5 = trace (observed w4 ev5) ++ evs
             /\ rng w5 = rng w
             /\ requested_urls evs = []
             /\ ((exists results,
                     match
                       match answer with
                       | Returns playlists =>
                           Success playlists
                             ("Successfully retrieved playlists, total: "
                                ++ str_nat (List.length (items playlists)))
                       | Raises e => Failure e "Failed to get playlists"
                       end
                     with
                     | Success data _ => map_each (items data) (read_playlist_tracks self)
                     | Failure _ _ => ret []
                     end (observed w4 ev5) = (Returns results, w5)
                     /\ flat_map from_playlist_tracks results = flat_map source_artists evs
                     /\ sp_requests evs
                        = map (fun playlist => sp.playlist_tracks (playlist_id playlist) 3 0)
                              (listed_playlists answer))
                 \/ (match
                       match answer with
                       | Returns playlists =>
                           Success playlists
                             ("Successfully retrieved playlists, total: "
                                ++ str_nat (List.length (items playlists)))
                       | Raises e => Failure e "Failed to get playlists"
                       end
                     with
                     | Success data _ => map_each (items data) (read_playlist_tracks self)
                     | Failure _ _ => ret []
                     end (observed w4 ev5) = (Raises not_subscriptable, w5)
                     /\ exists h playlist_id page,
                         spotipy self h (sp.playlist_tracks playlist_id 3 0) = Returns page
                         /\ forallb has_track (items page) = false))).
  { destruct answer as [page | e]; simpl.
    - apply (playlist_pages_run self (items page) (observed w4 ev5)).
    - exists [], (observed w4 ev5). rewrite app_nil_r. repeat split.
      left. exists []. repeat split. }
  destruct Hpl as (evs & w5 & Htrace & Hrng & Hurl
                   & [(results & Hrun & Hall & Hreq) | (Hrun & Hbad)]).
  - rewrite (bind_returns _ _ _ _ _ Hrun).
    destruct (get_saved_albums_run self 3 0 w5) as (saved_albums & E6 & F6).
    rewrite (bind_returns _ _ _ _ _ E6). clear E6.
    set (ev6 := SpCall (sp.current_user_saved_albums 3 0) _) in *.
    destruct (get_saved_tracks_run self 3 0 (observed w5 ev6)) as (saved_tracks & E7 & F7).
    rewrite (bind_returns _ _ _ _ _ E7). clear E7.
    set (ev7 := SpCall (sp.current_user_saved_tracks 3 0) _) in *.
    exists answer, ([ev1; ev2; ev3; ev4; ev5] ++ evs ++ [ev6; ev7]),
      (observed (observed w5 ev6) ev7).
    split; [| split; [exact Hrng | split]].
    + unfold observed at 1 2. simpl trace. rewrite Htrace, Hw4, <- !app_assoc. reflexivity.
    + rewrite !requested_urls_app, Hurl. reflexivity.
    + left. split; [| split].
      * unfold ret. f_equal. f_equal.
        rewrite !flat_map_app, <- Hall, F1, F2, F3, F4, F6, F7.
        simpl. rewrite !app_nil_r, <- !app_assoc. reflexivity.
      * apply in_or_app. left. simpl. tauto.
      * rewrite !sp_requests_app, Hreq. reflexivity.
  - exists answer, ([ev1; ev2; ev3; ev4; ev5] ++ evs), w5.
    split; [| split; [exact Hrng | split]].
    + rewrite Htrace, Hw4, <- app_assoc. reflexivity.
    + rewrite requested_urls_app, Hurl. reflexivity.
    + right. split; [now apply bind_raises | exact Hbad].
Qed.

(** Every source read: the run of the seven sources that returns. *)
Lemma seven_sources_returned self top_limit recent_limit w all w' :
  seven_sources self top_limit recent_limit w = (Returns all, w') ->
  exists (answer : Outcome (Paging Playlist)) evs,
    trace w' = trace w ++ evs
    /\ rng w' = rng w
    /\ requested_urls evs = []
    /\ all = flat_map source_artists evs
    /\ In (SpCall (sp.current_user_playlists 3 0) answer) evs
    /\ sp_requests evs
       = [sp.current_user_recently_played recent_limit;
          sp.current_user_top_tracks "long_term" top_limit;
          sp.current_user_top_artists "long_term" top_limit;
          sp.current_user_followed_artists 3 "artist" None;
          sp.current_user_playlists 3 0]
           ++ map (fun playlist => sp.playlist_tracks (playlist_id playlist) 3 0)
                  (listed_playlists answer)
           ++ [sp.current_user_saved_albums 3 0; sp.current_user_saved_tracks 3 0].
Proof.
  intros Hrun.
  destruct (seven_sources_run self top_limit recent_limit w)
    as (answer & evs & w0 & Htrace & Hrng & Hurl & [(E & Hin & Hreq) | (E & _)]);
    rewrite Hrun in E; [| discriminate].
  injection E as -> ->. exists answer, evs. repeat split; assumption.
Qed.

(** With a track on every playlist item, the seven sources are read to the
    end whatever they answer. *)
Lemma seven_sources_returns self top_limit recent_limit w :
  tracks_present self ->
  exists all w', seven_sources self top_limit recent_limit w = (Returns all, w').
Proof.
  intros Hpresent.
  destruct (seven_sources_run self top_limit recent_limit w)
    as (answer & evs & w' & _ & _ & _ & [(E & _) | (_ & h & pid & page & Hpage & Hnull)]).
  - eexists. eexists. exact E.
  - rewrite (Hpresent h pid 3%Z 0%Z page Hpage) in Hnull. discriminate.
Qed.

Lemma recall_artists_returns self top_limit recent_limit playlist_limit album_limit
      saved_tracks_limit w :
  tracks_present self ->
  exists result w',
    recall_artists self top_limit recent_limit playlist_limit album_limit
                   saved_tracks_limit w = (Returns result, w').
Proof.
  intros Hpresent.
  destruct (seven_sources_returns self top_limit recent_limit w Hpresent) as (all & w' & E).
  rewrite recall_artists_sources, (bind_returns _ _ _ _ _ E).
  eexists. eexists. reflexivity.
Qed.

(** A run of [recall_artists] that returns has read the seven sources. *)
Lemma recall_artists_returned self top_limit recent_limit playlist_limit album_limit
      saved_tracks_limit w result w' :
  recall_artists self top_limit recent_limit playlist_limit album_limit
                 saved_tracks_limit w = (Returns result, w') ->
  exists all,
    seven_sources self top_limit recent_limit w = (Returns all, w')
    /\ result = deduplicate (map artist_id all) (map artist_name all).
Proof.
  rewrite recall_artists_sources. intros Hrun.
  apply bind_inv in Hrun. destruct Hrun as (all & w1 & Hall & Hret).
  injection Hret as <- <-. now exists all.
Qed.

(** [C2] [recall_artists] returns the artists met in the seven sources
    (source after source, each in its own order) cut down to first
    occurrences: no identifier twice, every identifier met is there, the
    result follows the order of first occurrence, and the name next to an
    identifier is the one of its first occurrence.  This holds of every
    call that returns, for every behaviour of the sources; and the call
    returns whenever no playlist item lacks its track. *)
Theorem recall_artists_first_occurrences self top_limit recent_limit playlist_limit
        album_limit saved_tracks_limit w :
  (tracks_present self ->
   exists all ids names w',
     seven_sources self top_limit recent_limit w = (Returns all, w')
     /\ recall_artists self top_limit recent_limit playlist_limit album_limit
                       saved_tracks_limit w = (Returns (ids, names), w')
     /\ NoDup ids
     /\ (forall artist, In artist all -> In (artist_id artist) ids)
     /\ first_occurrences_kept all ids names)
  /\ forall ids names w',
      recall_artists self top_limit recent_limit playlist_limit album_limit
                     saved_tracks_limit w = (Returns (ids, names), w') ->
      exists all,
        seven_sources self top_limit recent_limit w = (Returns all, w')
        /\ NoDup ids
        /\ (forall artist, In artist all -> In (artist_id artist) ids)
        /\ first_occurrences_kept all ids names.
Proof.
  assert (Hreturned : forall ids names w',
             recall_artists self top_limit recent_limit playlist_limit album_limit
                            saved_tracks_limit w = (Returns (ids, names), w') ->
             exists all,
               seven_sources self top_limit recent_limit w = (Returns all, w')
               /\ NoDup ids
               /\ (forall artist, In artist all -> In (artist_id artist) ids)
               /\ first_occurrences_kept all ids names).
  { intros ids names w' Hrun.
    destruct (recall_artists_returned _ _ _ _ _ _ _ _ _ Hrun) as (all & Hall & Hresult).
    pose proof (deduplicate_spec all) as Hspec. simpl in Hspec.
    rewrite <- Hresult in Hspec. simpl in Hspec.
    destruct Hspec as (Hkept & Hnodup & Hcover).
    exists all. repeat split; assumption. }
  split; [| exact Hreturned].
  intros Hpresent.
  destruct (recall_artists_returns self top_limit recent_limit playlist_limit album_limit
              saved_tracks_limit w Hpresent) as ([ids names] & w' & Hrun).
  destruct (Hreturned ids names w' Hrun) as (all & Hall & H).
  exists all, ids, names, w'. split; [exact Hall |]. split; [exact Hrun | exact H].
Qed.

(** Two sources spelling the name of one identifier differently: the
    spelling of the earlier source stays. *)
Example recall_artists_keeps_first_name :
  fst (recall_artists two_spellings 5 5 5 5 5 start)
  = Returns ([artist_id daft_punk; artist_id justice], ["Daft Punk"; "Justice"]).
Proof. reflexivity. Qed.

(** *** What the aggregator asks for *)

Lemma emits_ret P {A} (a : A) : emits P (ret a).
Proof. intros w. exists []. simpl. now rewrite app_nil_r. Qed.

Lemma emits_raise P {A} e : emits P (@raise A e).
Proof. intros w. exists []. simpl. now rewrite app_nil_r. Qed.

Lemma emits_bind P {A B} (m : M A) (k : A -> M B) :
  emits P m -> (forall a, emits P (k a)) -> emits P (bind m k).
Proof.
  intros Hm Hk w. destruct (Hm w) as (evs1 & Ht1 & HP1). unfold bind.
  destruct (m w) as [[a | e] w1]; simpl in Ht1.
  - destruct (Hk a w1) as (evs2 & Ht2 & HP2).
    exists (evs1 ++ evs2). split.
    + now rewrite Ht2, Ht1, app_assoc.
    + apply Forall_app. now split.
  - exists evs1. now split.
Qed.

Lemma emits_try_except P {A} (body : M A) (handler : string -> M A) :
  emits P body -> (forall e, emits P (handler e)) -> emits P (try_except body handler).
Proof.
  intros Hb Hh w. destruct (Hb w) as (evs1 & Ht1 & HP1). unfold try_except.
  destruct (body w) as [[a | e] w1]; simpl in Ht1.
  - exists evs1. now split.
  - destruct (Hh e w1) as (evs2 & Ht2 & HP2).
    exists (evs1 ++ evs2). split.
    + now rewrite Ht2, Ht1, app_assoc.
    + apply Forall_app. now split.
Qed.

Lemma emits_sp_call (P : Event -> Prop) env r :
  (forall answer, P (SpCall r answer)) -> emits P (sp_call env r).
Proof.
  intros HP w. exists [SpCall r (spotipy env (trace w) r)]. split.
  - reflexivity.
  - constructor; [apply HP | constructor].
Qed.

Lemma emits_map_each P {X Y} (xs : list X) (f : X -> M Y) :
  (forall x, emits P (f x)) -> emits P (map_each xs f).
Proof.
  intros Hf. induction xs as [| x xs IH]; simpl.
  - apply emits_ret.
  - apply emits_bind; [apply Hf |]. intros y.
    apply emits_bind; [exact IH |]. intros ys. apply emits_ret.
Qed.

(** A Facade operation made of one call emits that call. *)
Ltac emits_one_call :=
  apply emits_try_except;
  [ apply emits_bind;
    [ apply emits_sp_call; intros answer limit E; simpl in E;
      first [discriminate E | injection E as <-; reflexivity]
    | intros; apply emits_ret ]
  | intros; apply emits_ret ].

Lemma seven_sources_limits self top_limit recent_limit :
  emits (fun ev => forall limit, library_query_limit ev = Some limit -> limit = 3%Z)
        (seven_sources self top_limit recent_limit).
Proof.
  unfold seven_sources.
  apply emits_bind; [emits_one_call | intros recent].
  apply emits_bind; [emits_one_call | intros top_tracks].
  apply emits_bind; [emits_one_call | intros top_artists].
  apply emits_bind; [emits_one_call | intros followed].
  apply emits_bind; [emits_one_call | intros playlists].
  apply emits_bind; [| intros playlist_tracks].
  { destruct playlists; [apply emits_map_each; intros p | apply emits_ret].
    unfold read_playlist_tracks.
    apply emits_bind; [emits_one_call | intros [page msg | e msg]];
      [destruct (forallb has_track (items page)) | ];
      first [apply emits_ret | apply emits_raise]. }
  apply emits_bind; [emits_one_call | intros saved_albums].
  apply emits_bind; [emits_one_call | intros saved_tracks].
  apply emits_ret.
Qed.

(** [C10] The parameters [playlist_limit], [album_limit] and
    [saved_tracks_limit] of [recall_artists] have no effect: two calls that
    differ only in them, against the same services from the same state,
    give the same result and leave the same trace; and the queries on
    playlists, playlist tracks, saved albums and saved tracks issued by the
    call all carry the limit 3. *)
Theorem recall_artists_ignores_library_limits self top_limit recent_limit
        playlist_limit album_limit saved_tracks_limit
        playlist_limit' album_limit' saved_tracks_limit' w :
  recall_artists self top_limit recent_limit playlist_limit album_limit
                 saved_tracks_limit w
  = recall_artists self top_limit recent_limit playlist_limit' album_limit'
                   saved_tracks_limit' w
  /\ exists evs,
      trace (snd (recall_artists self top_limit recent_limit playlist_limit
                                 album_limit saved_tracks_limit w))
      = trace w ++ evs
      /\ forall ev limit,
          In ev evs -> library_query_limit ev = Some limit -> limit = 3%Z.
Proof.
  split; [reflexivity |].
  rewrite recall_artists_sources.
  destruct (emits_bind _ _ (fun all => ret (deduplicate (map artist_id all)
                                               (map artist_name all)))
              (seven_sources_limits self top_limit recent_limit)
              (fun all => emits_ret _ _) w) as (evs & Htrace & HP).
  exists evs. split; [exact Htrace |].
  intros ev limit Hin. exact (proj1 (Forall_forall _ _) HP ev Hin limit).
Qed.

(** *** A source that fails *)

Lemma one_call_fails env (r : sp.Request) {A}
      (on_success : sp.Response r -> Envelope A) (on_failure : string -> Envelope A) w e :
  spotipy env (trace w) r = Raises e ->
  try_except (x <- sp_call env r ;; ret (on_success x))
             (fun e => ret (on_failure e)) w
  = (Returns (on_failure e), observed w (SpCall r (Raises e))).
Proof. intros E. rewrite one_call_envelope, E. reflexivity. Qed.

Lemma one_call_succeeds env (r : sp.Request) {A}
      (on_success : sp.Response r -> Envelope A) (on_failure : string -> Envelope A) w x :
  spotipy env (trace w) r = Returns x ->
  try_except (x <- sp_call env r ;; ret (on_success x))
             (fun e => ret (on_failure e)) w
  = (Returns (on_success x), observed w (SpCall r (Returns x))).
Proof. intros E. rewrite one_call_envelope, E. reflexivity. Qed.

Lemma get_recently_played_fails self limit w e :
  spotipy self (trace w) (sp.current_user_recently_played limit) = Raises e ->
  get_recently_played self limit w
  = (Returns (Failure e "Failed to get recently played"),
     observed w (SpCall (sp.current_user_recently_played limit) (Raises e))).
Proof.
  apply (one_call_fails self _ _ (fun e => Failure e "Failed to get recently played")).
Qed.

Lemma get_top_tracks_fails self time_range limit w e :
  spotipy self (trace w) (sp.current_user_top_tracks time_range limit) = Raises e ->
  get_top_tracks self time_range limit w
  = (Returns (Failure e "Failed to get top tracks"),
     observed w (SpCall (sp.current_user_top_tracks time_range limit) (Raises e))).
Proof.
  apply (one_call_fails self _ _ (fun e => Failure e "Failed to get top tracks")).
Qed.

Lemma get_top_artists_succeeds self time_range limit w top_artists :
  spotipy self (trace w) (sp.current_user_top_artists time_range limit)
  = Returns top_artists ->
  get_top_artists self time_range limit w
  = (Returns (Success top_artists
                ("Successfully retrieved top artists, total: "
                   ++ str_nat (List.length (items top_artists)) ++ " artists")),
     observed w (SpCall (sp.current_user_top_artists time_range limit)
                        (Returns top_artists))).
Proof.
  apply (one_call_succeeds self (sp.current_user_top_artists time_range limit)
           (fun top_artists : Paging Artist =>
              Success top_artists
                ("Successfully retrieved top artists, total: "
                   ++ str_nat (List.length (items top_artists)) ++ " artists"))).
Qed.

Lemma get_followed_artists_fails self limit w e :
  spotipy self (trace w) (sp.current_user_followed_artists limit "artist" None) = Raises e ->
  get_followed_artists self limit None w
  = (Returns (Failure e "Failed to get followed artists"),
     observed w (SpCall (sp.current_user_followed_artists limit "artist" None) (Raises e))).
Proof.
  apply (one_call_fails self _ _ (fun e => Failure e "Failed to get followed artists")).
Qed.

Lemma get_user_playlists_fails self limit offset w e :
  spotipy self (trace w) (sp.current_user_playlists limit offset) = Raises e ->
  get_user_playlists self limit offset w
  = (Returns (Failure e "Failed to get playlists"),
     observed w (SpCall (sp.current_user_playlists limit offset) (Raises e))).
Proof.
  apply (one_call_fails self _ _ (fun e => Failure e "Failed to get playlists")).
Qed.

Lemma get_saved_albums_fails self limit offset w e :
  spotipy self (trace w) (sp.current_user_saved_albums limit offset) = Raises e ->
  get_saved_albums self limit offset w
  = (Returns (Failure e "Failed to get saved albums"),
     observed w (SpCall (sp.current_user_saved_albums limit offset) (Raises e))).
Proof.
  apply (one_call_fails self _ _ (fun e => Failure e "Failed to get saved albums")).
Qed.

Lemma get_saved_tracks_fails self limit offset w e :
  spotipy self (trace w) (sp.current_user_saved_tracks limit offset) = Raises e ->
  get_saved_tracks self limit offset w
  = (Returns (Failure e "Failed to get saved tracks"),
     observed w (SpCall (sp.current_user_saved_tracks limit offset) (Raises e))).
Proof.
  apply (one_call_fails self _ _ (fun e => Failure e "Failed to get saved tracks")).
Qed.

(** [C7, amended] Whichever sources fail, [recall_artists] asks all of
    them, a source that failed contributes no artist, and the result is
    made of what the sources that answered contributed (the artists of the
    exchanges, cut down to first occurrences).  The call returns whenever
    no playlist item lacks its track, and when it does not return it has
    met such an item: no failure of a source makes it abort.  When every
    source fails but the top artists, which yield two artists (of different
    identifiers), the result is these two artists in their order. *)
Theorem recall_artists_tolerates_failures self top_limit recent_limit playlist_limit
        album_limit saved_tracks_limit w :
  (tracks_present self ->
   exists result w',
     recall_artists self top_limit recent_limit playlist_limit album_limit
                    saved_tracks_limit w = (Returns result, w'))
  /\ (forall result w',
         recall_artists self top_limit recent_limit playlist_limit album_limit
                        saved_tracks_limit w = (Returns result, w') ->
         exists (answer : Outcome (Paging Playlist)) evs,
           trace w' = trace w ++ evs
           /\ sp_requests evs
              = [sp.current_user_recently_played recent_limit;
                 sp.current_user_top_tracks "long_term" top_limit;
                 sp.current_user_top_artists "long_term" top_limit;
                 sp.current_user_followed_artists 3 "artist" None;
                 sp.current_user_playlists 3 0]
                  ++ map (fun playlist => sp.playlist_tracks (playlist_id playlist) 3 0)
                         (listed_playlists answer)
                  ++ [sp.current_user_saved_albums 3 0; sp.current_user_saved_tracks 3 0]
           /\ result
              = deduplicate (map artist_id (flat_map source_artists evs))
                            (map artist_name (flat_map source_artists evs)))
  /\ (forall r e, source_artists (SpCall r (Raises e)) = [])
  /\ (forall e w',
         recall_artists self top_limit recent_limit playlist_limit album_limit
                        saved_tracks_limit w = (Raises e, w') ->
         e = not_subscriptable
         /\ exists h playlist_id page,
             spotipy self h (sp.playlist_tracks playlist_id 3 0) = Returns page
             /\ forallb has_track (items page) = false)
  /\ forall first second,
      (forall h time_range limit,
          spotipy self h (sp.current_user_top_artists time_range limit)
          = Returns {| items := [first; second] |}) ->
      (forall h r,
          (forall time_range limit, r <> sp.current_user_top_artists time_range limit) ->
          exists e, spotipy self h r = Raises e) ->
      artist_id first <> artist_id second ->
      exists w',
        recall_artists self top_limit recent_limit playlist_limit album_limit
                       saved_tracks_limit w
        = (Returns ([artist_id first; artist_id second],
                    [artist_name first; artist_name second]), w').
Proof.
  split; [apply recall_artists_returns |].
  split.
  { intros result w' Hrun.
    destruct (recall_artists_returned _ _ _ _ _ _ _ _ _ Hrun) as (all & Hall & Hresult).
    destruct (seven_sources_returned _ _ _ _ _ _ Hall)
      as (answer & evs & Htrace & _ & _ & Hsources & _ & Hreq).
    exists answer, evs. split; [exact Htrace |]. split; [exact Hreq |].
    now rewrite <- Hsources. }
  split; [intros r e; destruct r; reflexivity |].
  split.
  { intros e w' Hrun. rewrite recall_artists_sources in Hrun.
    destruct (seven_sources_run self top_limit recent_limit w)
      as (answer & evs & w0 & _ & _ & _ & [(E & _) | (E & Hbad)]).
    - rewrite (bind_returns _ _ _ _ _ E) in Hrun. discriminate.
    - rewrite (bind_raises _ _ _ _ _ E) in Hrun. injection Hrun as <- _.
      split; [reflexivity | exact Hbad]. }
  intros first second Htop Hfail Hne.
  rewrite recall_artists_sources. unfold seven_sources.
  destruct (Hfail (trace w) (sp.current_user_recently_played recent_limit)
                  ltac:(discriminate)) as (e1 & E1).
  rewrite bind_assoc, (bind_returns _ _ _ _ _ (get_recently_played_fails _ _ _ _ E1)).
  set (w1 := observed w _).
  destruct (Hfail (trace w1) (sp.current_user_top_tracks "long_term" top_limit)
                  ltac:(discriminate)) as (e2 & E2).
  rewrite bind_assoc, (bind_returns _ _ _ _ _ (get_top_tracks_fails _ _ _ _ _ E2)).
  set (w2 := observed w1 _).
  rewrite bind_assoc,
    (bind_returns _ _ _ _ _ (get_top_artists_succeeds _ _ _ _ _ (Htop (trace w2) _ _))).
  set (w3 := observed w2 _).
  destruct (Hfail (trace w3) (sp.current_user_followed_artists 3 "artist" None)
                  ltac:(discriminate)) as (e4 & E4).
  rewrite bind_assoc, (bind_returns _ _ _ _ _ (get_followed_artists_fails _ _ _ _ E4)).
  set (w4 := observed w3 _).
  destruct (Hfail (trace w4) (sp.current_user_playlists 3 0)
                  ltac:(discriminate)) as (e5 & E5).
  rewrite bind_assoc, (bind_returns _ _ _ _ _ (get_user_playlists_fails _ _ _ _ _ E5)).
  set (w5 := observed w4 _).
  rewrite bind_assoc, bind_ret_l.
  destruct (Hfail (trace w5) (sp.current_user_saved_albums 3 0)
                  ltac:(discriminate)) as (e6 & E6).
  rewrite bind_assoc, (bind_returns _ _ _ _ _ (get_saved_albums_fails _ _ _ _ _ E6)).
  set (w6 := observed w5 _).
  destruct (Hfail (trace w6) (sp.current_user_saved_tracks 3 0)
                  ltac:(discriminate)) as (e7 & E7).
  rewrite bind_assoc, (bind_returns _ _ _ _ _ (get_saved_tracks_fails _ _ _ _ _ E7)).
  rewrite !bind_ret_l. unfold ret. simpl.
  eexists. f_equal. f_equal.
  unfold deduplicate. simpl.
  apply not_eq_sym, String.eqb_neq in Hne. rewrite Hne. reflexivity.
Qed.

(** ** The Track Recall Orchestrator *)

Lemma search_tracks_run self query limit w :
  search_tracks self query limit w
  = (Returns match spotipy self (trace w) (sp.search query "track" limit) with
             | Returns results =>
                 Success results
                   ("Search successful, found "
                      ++ str_nat (List.length (items (found_tracks results)))
                      ++ " tracks")
             | Raises e => Failure e "Search failed"
             end,
     observed w (SpCall (sp.search query "track" limit)
                        (spotipy self (trace w) (sp.search query "track" limit)))).
Proof.
  apply (one_call_envelope self (sp.search query "track" limit)
           (fun results : SearchResult =>
              Success results
                ("Search successful, found "
                   ++ str_nat (List.length (items (found_tracks results)))
                   ++ " tracks"))
           (fun e => Failure e "Search failed")).
Qed.

Lemma searches_cons track_title titles answer answers :
  searches (track_title :: titles) (answer :: answers)
  = SpCall (sp.search track_title "track" 1) answer :: searches titles answers.
Proof. reflexivity. Qed.

(** The search loop of [recall_all_tracks]: one search per title, in
    order; every first result is appended (the list [search_track_ids]
    consulted by the membership test stays empty). *)
Lemma recall_search_loop self (P : Outcome SearchResult -> Prop) titles :
  (forall h q, P (spotipy self h (sp.search q "track" 1))) ->
  forall kept w,
    exists answers w',
      for_each titles
        (fun track_title search_tracks' =>
           search_track <- search_tracks self track_title 1 ;;
           match search_track with
           | Success data _ =>
               match items (found_tracks data) with
               | search_item :: _ =>
                   if mem (track_id search_item) []
                   then ret search_tracks'
                   else ret (search_tracks' ++ [search_item])
               | [] => ret search_tracks'
               end
           | Failure _ _ => ret search_tracks'
           end) kept w
      = (Returns (kept ++ flat_map first_result answers), w')
      /\ List.length answers = List.length titles
      /\ trace w' = trace w ++ searches titles answers
      /\ rng w' = rng w
      /\ Forall P answers.
Proof.
  intros HP. induction titles as [| track_title titles IH]; intros kept w; simpl.
  - exists [], w. simpl. rewrite !app_nil_r. repeat split. constructor.
  - rewrite bind_assoc. unfold bind at 1. rewrite search_tracks_run.
    set (answer := spotipy self (trace w) (sp.search track_title "track" 1)).
    set (w1 := observed w _).
    destruct (IH (kept ++ first_result answer) w1)
      as (answers & w' & Hrun & Hlen & Htrace & Hrng & Hall).
    exists (answer :: answers), w'. repeat split.
    + simpl flat_map. rewrite app_assoc, <- Hrun.
      clearbody w1. clearbody answer. unfold first_result.
      destruct answer as [results | e]; [| now rewrite bind_ret_l, app_nil_r].
      destruct (items (found_tracks results)) as [| search_item others];
        rewrite bind_ret_l; [now rewrite app_nil_r | reflexivity].
    + simpl. now rewrite Hlen.
    + rewrite Htrace. unfold w1, observed. simpl trace.
      rewrite searches_cons, <- app_assoc. reflexivity.
    + exact Hrng.
    + constructor; [apply HP | exact Hall].
Qed.

(** The search loop of [random_fill]: the same searches; the three
    parallel lists grow together. *)
Lemma fill_search_loop self titles :
  forall kept w,
    exists answers w',
      for_each titles
        (fun track_title '(search_tracks', search_track_ids, search_artist_names) =>
           search_track <- search_tracks self track_title 1 ;;
           match search_track with
           | Success data _ =>
               match items (found_tracks data) with
               | search_item :: _ =>
                   ret (search_tracks' ++ [search_item],
                        search_track_ids ++ [track_id search_item],
                        search_artist_names
                          ++ [String.concat ", "
                                (map artist_name (track_artists search_item))])
               | [] => ret (search_tracks', search_track_ids, search_artist_names)
               end
           | Failure _ _ => ret (search_tracks', search_track_ids, search_artist_names)
           end) (kept, map track_id kept, map joined_artist_names kept) w
      = (Returns (kept ++ flat_map first_result answers,
                  map track_id (kept ++ flat_map first_result answers),
                  map joined_artist_names (kept ++ flat_map first_result answers)), w')
      /\ List.length answers = List.length titles
      /\ trace w' = trace w ++ searches titles answers
      /\ rng w' = rng w.
Proof.
  induction titles as [| track_title titles IH]; intros kept w; simpl.
  - exists [], w. simpl. rewrite !app_nil_r. repeat split.
  - rewrite bind_assoc. unfold bind at 1. rewrite search_tracks_run.
    set (answer := spotipy self (trace w) (sp.search track_title "track" 1)).
    set (w1 := observed w _).
    destruct (IH (kept ++ first_result answer) w1)
      as (answers & w' & Hrun & Hlen & Htrace & Hrng).
    exists (answer :: answers), w'. repeat split.
    + simpl flat_map. rewrite app_assoc, <- Hrun.
      clearbody w1. clearbody answer. unfold first_result.
      destruct answer as [results | e]; [| now rewrite bind_ret_l, app_nil_r].
      destruct (items (found_tracks results)) as [| search_item others];
        rewrite bind_ret_l; [now rewrite app_nil_r |].
      rewrite !map_app. reflexivity.
    + simpl. now rewrite Hlen.
    + rewrite Htrace. unfold w1, observed. simpl trace.
      rewrite searches_cons, <- app_assoc. reflexivity.
    + exact Hrng.
Qed.

Lemma get_tivo_tracks_in_artist_album_dict_returns env artist_album_dict :
  transport_ok env ->
  never_raises (get_tivo_tracks_in_artist_album_dict env artist_album_dict).
Proof.
  intros Hok. unfold get_tivo_tracks_in_artist_album_dict.
  apply never_raises_for_each. intros [artist_id album_ids] tivo_tracks.
  apply never_raises_bind;
    [now apply get_tivo_tracks_in_albums_returns | intros; apply never_raises_ret].
Qed.

Lemma flat_map_nothing {A B} (f : A -> list B) xs :
  Forall (fun x => f x = []) xs -> flat_map f xs = [].
Proof.
  induction 1 as [| x xs Hx _ IH]; simpl; [reflexivity | now rewrite Hx, IH].
Qed.

(** A run of [recall_all_tracks] against a catalogue that answers: the
    result is a success envelope whose tracks are the shuffled first
    results of the searches. *)
Lemma recall_all_tracks_run self (P : Outcome SearchResult -> Prop) w :
  transport_ok self -> tracks_present self ->
  (forall h q, P (spotipy self h (sp.search q "track" 1))) ->
  exists answers w6 kept w',
    Forall P answers
    /\ random_shuffle (flat_map first_result answers) w6 = (Returns kept, w')
    /\ Permutation kept (flat_map first_result answers)
    /\ recall_all_tracks self w
       = (Returns (Success {| tracks := kept |} "Successfully recall tracks"), w').
Proof.
  intros Hok Hpresent HP.
  destruct (recall_artists_returns self 5 5 5 5 5 w Hpresent) as ([ids names] & w1 & E1).
  destruct (get_tivo_artist_ids_returns self (firstn 3 names) Hok w1)
    as (artist_ids & w2 & E2).
  destruct (get_tivo_artist_album_ids_returns self artist_ids Hok w2)
    as (artist_album_dict & w3 & E3).
  destruct (get_tivo_tracks_in_artist_album_dict_returns self artist_album_dict Hok w3)
    as (tivo_tracks & w4 & E4).
  destruct (random_shuffle_spec tivo_tracks w4) as (shuffled & w5 & E5 & _ & _).
  destruct (recall_search_loop self P (map title shuffled) HP [] w5)
    as (answers & w6 & E6 & _ & _ & _ & Hall).
  destruct (random_shuffle_spec (flat_map first_result answers) w6)
    as (kept & w7 & E7 & _ & Hperm).
  exists answers, w6, kept, w7. split; [exact Hall |]. split; [exact E7 |].
  split; [exact Hperm |].
  unfold recall_all_tracks.
  rewrite (bind_returns _ _ _ _ _ E1). cbv beta iota zeta.
  rewrite (bind_returns _ _ _ _ _ E2), (bind_returns _ _ _ _ _ E3),
    (bind_returns _ _ _ _ _ E4), (bind_returns _ _ _ _ _ E5),
    (bind_returns _ _ _ _ _ E6).
  simpl app. rewrite (bind_returns _ _ _ _ _ E7). reflexivity.
Qed.

(** [C8, amended] Against a catalogue that answers every request, and
    with a track on every playlist item, [recall_all_tracks] returns a
    success envelope; when no title search yields a result the envelope
    carries the empty track list; and when a stage hands on an empty
    collection (no artist name, no catalogue artist, no album, no candidate
    track) the later stages hand on empty collections too and the result is
    the success envelope with the empty track list. *)
Theorem recall_all_tracks_degrades self w :
  transport_ok self -> tracks_present self ->
  (exists data message w',
      recall_all_tracks self w = (Returns (Success data message), w'))
  /\ ((forall h q, first_result (spotipy self h (sp.search q "track" 1)) = []) ->
      exists w',
        recall_all_tracks self w
        = (Returns (Success {| tracks := [] |} "Successfully recall tracks"), w'))
  /\ (forall ids names w1 artist_ids w2 artist_album_dict w3 tivo_tracks w4,
         recall_artists self 5 5 5 5 5 w = (Returns (ids, names), w1) ->
         get_tivo_artist_ids self (firstn 3 names) w1 = (Returns artist_ids, w2) ->
         get_tivo_artist_album_ids self artist_ids w2 = (Returns artist_album_dict, w3) ->
         get_tivo_tracks_in_artist_album_dict self artist_album_dict w3
         = (Returns tivo_tracks, w4) ->
         names = [] \/ artist_ids = [] \/ artist_album_dict = [] \/ tivo_tracks = [] ->
         tivo_tracks = []
         /\ recall_all_tracks self w
            = (Returns (Success {| tracks := [] |} "Successfully recall tracks"), w4)).
Proof.
  intros Hok Hpresent. split; [| split].
  - destruct (recall_all_tracks_run self (fun _ => True) w Hok Hpresent (fun _ _ => I))
      as (answers & w6 & kept & w' & _ & _ & _ & Hrun).
    now exists {| tracks := kept |}, "Successfully recall tracks", w'.
  - intros Hnone.
    destruct (recall_all_tracks_run self (fun answer => first_result answer = []) w
                Hok Hpresent Hnone)
      as (answers & w6 & kept & w' & Hall & Hshuffle & _ & Hrun).
    rewrite (flat_map_nothing _ _ Hall), random_shuffle_nil in Hshuffle.
    injection Hshuffle as <- <-. now exists w6.
  - intros ids names w1 artist_ids w2 artist_album_dict w3 tivo_tracks w4 E1 E2 E3 E4 Hempty.
    assert (Hnil : tivo_tracks = []).
    { destruct Hempty as [-> | [-> | [-> | ->]]]; [| | | reflexivity].
      - simpl in E2. injection E2 as <- <-. simpl in E3. injection E3 as <- <-.
        simpl in E4. now injection E4 as <- <-.
      - simpl in E3. injection E3 as <- <-.
        simpl in E4. now injection E4 as <- <-.
      - simpl in E4. now injection E4 as <- <-. }
    split; [exact Hnil |]. subst tivo_tracks.
    unfold recall_all_tracks.
    rewrite (bind_returns _ _ _ _ _ E1). cbv beta iota zeta.
    rewrite (bind_returns _ _ _ _ _ E2), (bind_returns _ _ _ _ _ E3),
      (bind_returns _ _ _ _ _ E4).
    reflexivity.
Qed.

(** *** [random_fill] *)

Lemma requested_urls_lookups url keys :
  forall answers,
    List.length answers = List.length keys ->
    requested_urls (lookups url keys answers) = map url keys.
Proof.
  induction keys as [| key keys IH]; intros [| data answers] Hlen;
    try discriminate; simpl.
  - reflexivity.
  - f_equal. apply IH. now injection Hlen.
Qed.

Lemma get_tivo_artist_ids_urls env artist_names w ids w' :
  get_tivo_artist_ids env artist_names w = (Returns ids, w') ->
  requested_urls (trace w')
  = requested_urls (trace w)
      ++ map (fun name => artist_search_url (replace_char " " "+" name)) artist_names.
Proof.
  intros Hrun. rewrite get_tivo_artist_ids_loop in Hrun.
  apply (http_loop_spec env _ _ (fun _ data s s' => s' = s ++ first_hit_id data)) in Hrun;
    [| intros; apply artist_ids_step].
  destruct Hrun as (answers & Htrace & Hchain).
  rewrite Htrace, requested_urls_app, requested_urls_lookups; [reflexivity |].
  eapply chain_length, Hchain.
Qed.

Lemma demo_transport_ok : transport_ok demo_env.
Proof.
  intros h url. unfold demo_env, demo_httpx_get. simpl.
  repeat match goal with
         | |- context [if ?b then _ else _] => destruct b
         end; eexists; reflexivity.
Qed.

Lemma random_fill_returns self num_tracks w :
  transport_ok self -> tracks_present self -> (0 <= num_tracks)%Z ->
  exists envelope w', random_fill self num_tracks w = (Returns envelope, w').
Proof.
  intros Hok Hpresent Hpos.
  destruct (recall_artists_returns self 5 5 5 5 5 w Hpresent) as ([ids names] & w1 & E1).
  destruct (get_tivo_artist_ids_returns self names Hok w1) as (artist_ids & w2 & E2).
  destruct (get_tivo_artist_album_ids_returns self artist_ids Hok w2) as (d & w3 & E3).
  destruct (get_tivo_tracks_in_artist_album_dict_returns self d Hok w3)
    as (tivo_tracks & w4 & E4).
  destruct (random_sample_spec tivo_tracks
              (Z.min num_tracks (Z.of_nat (List.length tivo_tracks))) w4 ltac:(lia))
    as (sampled & rest & w5 & E5 & _).
  destruct (fill_search_loop self (map title sampled) [] w5)
    as (answers & w6 & E6 & _).
  eexists. exists w6. unfold random_fill.
  rewrite (bind_returns _ _ _ _ _ E1). cbv beta iota zeta.
  rewrite (bind_returns _ _ _ _ _ E2), (bind_returns _ _ _ _ _ E3),
    (bind_returns _ _ _ _ _ E4), (bind_returns _ _ _ _ _ E5).
  simpl in E6. rewrite (bind_returns _ _ _ _ _ E6). reflexivity.
Qed.

Lemma random_fill_duplicates :
  exists data message w',
    random_fill demo_env 10 start = (Returns (Success data message), w')
    /\ ~ NoDup (fill_track_ids data).
Proof.
  eexists. eexists. eexists. split.
  - vm_compute. reflexivity.
  - simpl. intros H. inversion H as [| x l Hnotin _]. apply Hnotin. now left.
Qed.

(** [C5] A call of [random_fill] with [num_tracks = K] that returns has
    sent all the names recalled by [recall_artists] to the catalogue (one
    artist lookup per name, no cap); from the candidate tracks it has taken
    [min(K, available)], those at the positions that [random.sample]
    chooses among the candidates, different from each other; it has then
    issued one title search per sampled candidate, in sampling order, hence
    exactly [K] when at least [K] candidates were available; and its output
    lists the first results in the order of the searches.
    [random.sample] chooses uniformly: every ordered choice of as many
    different positions is as likely as any other.  The call returns when
    the catalogue answers every request, no playlist item lacks its track
    and [K >= 0]; and its output can hold the same track identifier
    twice. *)
Theorem random_fill_spec :
  (forall self num_tracks w,
      transport_ok self -> tracks_present self -> (0 <= num_tracks)%Z ->
      exists envelope w', random_fill self num_tracks w = (Returns envelope, w'))
  /\ (forall self num_tracks w envelope w',
         random_fill self num_tracks w = (Returns envelope, w') ->
         exists ids names w1 artist_ids w2 artist_album_dict w3 tivo_tracks w4
                positions sampled w5 answers,
           recall_artists self 5 5 5 5 5 w = (Returns (ids, names), w1)
           /\ get_tivo_artist_ids self names w1 = (Returns artist_ids, w2)
           /\ requested_urls (trace w2)
              = requested_urls (trace w1)
                  ++ map (fun name => artist_search_url (replace_char " " "+" name)) names
           /\ get_tivo_artist_album_ids self artist_ids w2 = (Returns artist_album_dict, w3)
           /\ get_tivo_tracks_in_artist_album_dict self artist_album_dict w3
              = (Returns tivo_tracks, w4)
           /\ random_sample tivo_tracks
                (Z.min num_tracks (Z.of_nat (List.length tivo_tracks))) w4
              = (Returns sampled, w5)
           /\ random_sample (seq 0 (List.length tivo_tracks))
                (Z.min num_tracks (Z.of_nat (List.length tivo_tracks))) w4
              = (Returns positions, w5)
           /\ selection (List.length tivo_tracks)
                        (Nat.min (Z.to_nat num_tracks) (List.length tivo_tracks))
                        positions
           /\ taken_at tivo_tracks positions sampled
           /\ List.length sampled
              = Nat.min (Z.to_nat num_tracks) (List.length tivo_tracks)
           /\ trace w5 = trace w4
           /\ List.length answers = List.length sampled
           /\ trace w' = trace w5 ++ searches (map title sampled) answers
           /\ ((num_tracks <= Z.of_nat (List.length tivo_tracks))%Z ->
               List.length answers = Z.to_nat num_tracks)
           /\ envelope
              = Success
                  {| fill_tracks := flat_map first_result answers;
                     fill_track_ids := map track_id (flat_map first_result answers);
                     fill_artist_names :=
                       map joined_artist_names (flat_map first_result answers) |}
                  "Successfully random fill")
  /\ (forall n k, equally_likely n k)
  /\ exists self num_tracks w data message w',
      random_fill self num_tracks w = (Returns (Success data message), w')
      /\ ~ NoDup (fill_track_ids data).
Proof.
  split; [| split; [| split]].
  - intros self num_tracks w. apply random_fill_returns.
  - intros self num_tracks w envelope w' Hrun. unfold random_fill in Hrun.
    apply bind_inv in Hrun. destruct Hrun as ([ids names] & w1 & E1 & Hrun).
    cbv beta iota zeta in Hrun.
    apply bind_inv in Hrun. destruct Hrun as (artist_ids & w2 & E2 & Hrun).
    apply bind_inv in Hrun. destruct Hrun as (d & w3 & E3 & Hrun).
    apply bind_inv in Hrun. destruct Hrun as (tivo_tracks & w4 & E4 & Hrun).
    apply bind_inv in Hrun. destruct Hrun as (sampled & w5 & E5 & Hrun).
    apply bind_inv in Hrun.
    destruct Hrun as ([[found found_ids] found_names] & w6 & E6 & Hrun).
    injection Hrun as <- <-.
    destruct (random_sample_returns_inv _ _ _ _ _ E5) as (Hk & Hlen & Htrace5).
    destruct (random_sample_taken tivo_tracks
                (Nat.min (Z.to_nat num_tracks) (List.length tivo_tracks)) w4
                ltac:(lia))
      as (positions & sampled' & w5' & Eindex & E5' & Hsel & Htaken & _).
    replace (Z.of_nat (Nat.min (Z.to_nat num_tracks) (List.length tivo_tracks)))
      with (Z.min num_tracks (Z.of_nat (List.length tivo_tracks))) in Eindex, E5' by lia.
    rewrite E5 in E5'. injection E5' as <- <-.
    destruct (fill_search_loop self (map title sampled) [] w5)
      as (answers & w6' & E6' & Hanswers & Htrace6 & _).
    simpl in E6'. rewrite E6 in E6'. injection E6' as -> -> -> <-.
    rewrite length_map in Hanswers.
    exists ids, names, w1, artist_ids, w2, d, w3, tivo_tracks, w4,
      positions, sampled, w5, answers.
    repeat split; try assumption.
    + eapply get_tivo_artist_ids_urls, E2.
    + apply Hsel.
    + apply Hsel.
    + apply Hsel.
    + rewrite Hlen. lia.
    + intros Henough. rewrite Hanswers, Hlen. lia.
  - apply random_sample_uniform.
  - exists demo_env, 10%Z, start. apply random_fill_duplicates.
Qed.

(** *** [recall_all_tracks] and repeated tracks *)

(** [C1] On the concrete service [demo_env] the catalogue offers two
    titles and both title searches answer with the same track:
    [recall_all_tracks] keeps it twice, so its output holds one track
    identifier two times.  (The membership test of the loop reads
    [search_track_ids], to which nothing is ever appended.) *)
Theorem recall_all_tracks_repeats_a_track :
  exists w',
    recall_all_tracks demo_env start
    = (Returns (Success {| tracks := [one_more_time; one_more_time] |}
                        "Successfully recall tracks"), w')
    /\ ~ NoDup (map track_id [one_more_time; one_more_time]).
Proof.
  eexists. split.
  - vm_compute. reflexivity.
  - simpl. intros H. inversion H as [| x l Hnotin _]. apply Hnotin. now left.
Qed.

(** *** Escaping of artist names *)

(** [C9, as stated, fails] For the name [Simon & Garfunkel] the single
    request goes to the URL holding [Simon+&+Garfunkel]: the ampersand is
    not percent-escaped, so the URL differs from the one built from the
    escaped name. *)
Lemma get_tivo_artist_ids_does_not_escape :
  exists ids w',
    get_tivo_artist_ids demo_env ["Simon & Garfunkel"] start = (Returns ids, w')
    /\ requested_urls (trace w') = [artist_search_url "Simon+&+Garfunkel"]
    /\ requested_urls (trace w')
       <> map (fun name => artist_search_url (spec_percent_escaped name))
              ["Simon & Garfunkel"].
Proof.
  eexists. eexists. split; [vm_compute; reflexivity |]. split.
  - vm_compute. reflexivity.
  - vm_compute. discriminate.
Qed.

(** *** A playlist item without track *)

(** [C7, as stated, fails] One playlist is listed and its track page
    answers, with an item whose track is null: the aggregator aborts with a
    [TypeError], before it asks for the saved albums and the saved
    tracks. *)
Lemma recall_artists_aborts_on_missing_track :
  exists w',
    recall_artists unavailable_item 5 5 5 5 5 start = (Raises not_subscriptable, w')
    /\ sp_requests (trace w')
       = [sp.current_user_recently_played 5;
          sp.current_user_top_tracks "long_term" 5;
          sp.current_user_top_artists "long_term" 5;
          sp.current_user_followed_artists 3 "artist" None;
          sp.current_user_playlists 3 0;
          sp.playlist_tracks "37i9dQZF1DXcBWIGoYBM5M" 3 0].
Proof. eexists. split; vm_compute; reflexivity. Qed.

(** [C8, as stated, fails] Against the same services, with a catalogue
    that answers every request, [recall_all_tracks] returns no envelope: the
    [TypeError] of the aggregator goes through it, before any request to
    the catalogue. *)
Lemma recall_all_tracks_aborts_on_missing_track :
  transport_ok unavailable_item
  /\ exists w',
      recall_all_tracks unavailable_item start = (Raises not_subscriptable, w')
      /\ requested_urls (trace w') = [].
Proof.
  split; [exact demo_transport_ok |].
  eexists. split; vm_compute; reflexivity.
Qed.

(** ** The statements at concrete inputs *)

Lemma one_playlist_tracks_present : tracks_present one_playlist.
Proof. intros h playlist_id limit offset page E. simpl in E. now injection E as <-. Qed.

Lemma demo_tracks_present : tracks_present demo_env.
Proof. intros h playlist_id limit offset page E. discriminate E. Qed.

Lemma box_set_transport_ok : transport_ok box_set.
Proof. intros h url. eexists. reflexivity. Qed.

Lemma get_tivo_artist_ids_spec_witness :
  transport_ok demo_env
  /\ exists ids w',
      get_tivo_artist_ids demo_env ["Daft Punk"; "Simon & Garfunkel"] start
      = (Returns ids, w')
      /\ exists answers,
          List.length answers = 2
          /\ trace w' = trace start
               ++ lookups (fun name => artist_search_url (replace_char " " "+" name))
                          ["Daft Punk"; "Simon & Garfunkel"] answers
          /\ ids = flat_map first_hit_id answers.
Proof.
  split; [exact demo_transport_ok |].
  destruct (get_tivo_artist_ids_spec demo_env ["Daft Punk"; "Simon & Garfunkel"] start)
    as [Hreturns Hspec].
  destruct (Hreturns demo_transport_ok) as (ids & w' & Hrun).
  exists ids, w'. split; [exact Hrun | exact (Hspec ids w' Hrun)].
Defined.

Lemma get_tivo_artist_album_ids_spec_witness :
  transport_ok demo_env
  /\ exists d w',
      get_tivo_artist_album_ids demo_env ["MN0000667669"; "MN0000000000"] start
      = (Returns d, w')
      /\ forall artist_id album_ids,
          In (artist_id, album_ids) d -> 1 <= List.length album_ids <= 2.
Proof.
  split; [exact demo_transport_ok |].
  destruct (get_tivo_artist_album_ids_spec demo_env ["MN0000667669"; "MN0000000000"] start)
    as [Hreturns Hspec].
  destruct (Hreturns demo_transport_ok) as (d & w' & Hrun).
  exists d, w'. split; [exact Hrun |].
  destruct (Hspec d w' Hrun) as (answers & _ & _ & Hlens & _). exact Hlens.
Defined.

Lemma get_tivo_tracks_in_albums_spec_witness :
  transport_ok box_set
  /\ 10 < List.length twelve_tracks
  /\ exists positions sampled w2,
      selection 12 10 positions
      /\ taken_at twelve_tracks positions sampled
      /\ get_tivo_tracks_in_albums box_set ["MW0000099999"] start
         = (Returns sampled, w2).
Proof.
  split; [exact box_set_transport_ok |].
  assert (Hmany : 10 < List.length twelve_tracks) by (vm_compute; lia).
  split; [exact Hmany |].
  destruct (proj1 (proj2 (proj2 (get_tivo_tracks_in_albums_spec box_set [] start)))
              [] "MW0000099999" [] start
              {| hits := Some [ {| hit_id := "MW0000099999";
                                   hit_tracks := Some twelve_tracks |} ] |}
              {| hit_id := "MW0000099999"; hit_tracks := Some twelve_tracks |}
              [] twelve_tracks eq_refl eq_refl eq_refl eq_refl Hmany)
    as (positions & sampled & w2 & _ & Hsel & Htaken & Hrun).
  exists positions, sampled, w2. split; [exact Hsel |]. split; [exact Htaken | exact Hrun].
Defined.

Lemma recall_artists_first_occurrences_witness :
  tracks_present one_playlist
  /\ exists all ids names w',
      seven_sources one_playlist 5 5 start = (Returns all, w')
      /\ recall_artists one_playlist 5 5 5 5 5 start = (Returns (ids, names), w')
      /\ NoDup ids
      /\ (forall artist, In artist all -> In (artist_id artist) ids)
      /\ first_occurrences_kept all ids names.
Proof.
  split; [exact one_playlist_tracks_present |].
  exact (proj1 (recall_artists_first_occurrences one_playlist 5 5 5 5 5 start)
               one_playlist_tracks_present).
Defined.

Lemma recall_artists_tolerates_failures_witness :
  tracks_present one_playlist
  /\ (exists result w',
        recall_artists one_playlist 5 5 5 5 5 start = (Returns result, w'))
  /\ artist_id daft_punk <> artist_id justice
  /\ exists w',
      recall_artists top_artists_only 5 5 5 5 5 start
      = (Returns ([artist_id daft_punk; artist_id justice],
                  [artist_name daft_punk; artist_name justice]), w').
Proof.
  split; [exact one_playlist_tracks_present |].
  split.
  { exact (proj1 (recall_artists_tolerates_failures one_playlist 5 5 5 5 5 start)
                 one_playlist_tracks_present). }
  assert (Hne : artist_id daft_punk <> artist_id justice) by (vm_compute; discriminate).
  split; [exact Hne |].
  apply (proj2 (proj2 (proj2 (proj2
           (recall_artists_tolerates_failures top_artists_only 5 5 5 5 5 start))))
               daft_punk justice).
  - intros h time_range limit. reflexivity.
  - intros h r Hr. destruct r; try (eexists; reflexivity).
    exfalso. eapply Hr. reflexivity.
  - exact Hne.
Defined.

Lemma recall_all_tracks_degrades_witness :
  transport_ok one_playlist
  /\ tracks_present one_playlist
  /\ exists w',
      recall_all_tracks one_playlist start
      = (Returns (Success {| tracks := [] |} "Successfully recall tracks"), w').
Proof.
  assert (Hok : transport_ok one_playlist) by exact demo_transport_ok.
  split; [exact Hok |]. split; [exact one_playlist_tracks_present |].
  apply (proj1 (proj2 (recall_all_tracks_degrades one_playlist start Hok
                         one_playlist_tracks_present))).
  intros h q. reflexivity.
Defined.

Lemma random_fill_spec_witness :
  transport_ok one_playlist /\ tracks_present one_playlist /\ (0 <= 1)%Z
  /\ exists envelope w' answers,
      random_fill one_playlist 1 start = (Returns envelope, w')
      /\ envelope
         = Success
             {| fill_tracks := flat_map first_result answers;
                fill_track_ids := map track_id (flat_map first_result answers);
                fill_artist_names :=
                  map joined_artist_names (flat_map first_result answers) |}
             "Successfully random fill".
Proof.
  assert (Hok : transport_ok one_playlist) by exact demo_transport_ok.
  assert (Hpos : (0 <= 1)%Z) by lia.
  split; [exact Hok |]. split; [exact one_playlist_tracks_present |].
  split; [exact Hpos |].
  destruct (proj1 random_fill_spec one_playlist 1%Z start Hok
              one_playlist_tracks_present Hpos) as (envelope & w' & Hrun).
  destruct (proj1 (proj2 random_fill_spec) one_playlist 1%Z start envelope w' Hrun)
    as (ids & names & w1 & artist_ids & w2 & artist_album_dict & w3 & tivo_tracks & w4
        & positions & sampled & w5 & answers & _ & _ & _ & _ & _ & _ & _ & _ & _ & _
        & _ & _ & _ & _ & Henvelope).
  exists envelope, w', answers. split; [exact Hrun | exact Henvelope].
Defined.

(** * Further properties of the client *)

(** ** [format_duration] *)

Lemma uint_digits_then_colon d rest :
  before_colon (NilEmpty.string_of_uint d ++ String ":" rest) = NilEmpty.string_of_uint d
  /\ after_colon (NilEmpty.string_of_uint d ++ String ":" rest) = rest.
Proof.
  induction d as [| d [IH1 IH2] | d [IH1 IH2] | d [IH1 IH2] | d [IH1 IH2] | d [IH1 IH2]
                  | d [IH1 IH2] | d [IH1 IH2] | d [IH1 IH2] | d [IH1 IH2] | d [IH1 IH2]];
    simpl; rewrite ?IH1, ?IH2; split; reflexivity.
Qed.

Lemma nz_digits_then_colon d rest :
  before_colon (NilZero.string_of_uint d ++ String ":" rest) = NilZero.string_of_uint d
  /\ after_colon (NilZero.string_of_uint d ++ String ":" rest) = rest.
Proof.
  destruct d; [split; reflexivity | ..];
    match goal with
    | |- context [NilZero.string_of_uint ?u] => apply (uint_digits_then_colon u rest)
    end.
Qed.

Lemma str_int_then_colon z rest :
  before_colon (str_int z ++ String ":" rest) = str_int z
  /\ after_colon (str_int z ++ String ":" rest) = rest.
Proof.
  unfold str_int, NilZero.string_of_int.
  destruct (Z.to_int z) as [d | d]; [apply nz_digits_then_colon |].
  destruct (nz_digits_then_colon d rest) as [H1 H2].
  set (u := NilZero.string_of_uint d) in *. simpl. rewrite H1, H2. split; reflexivity.
Qed.

Lemma parse_str_int z : parse_int (str_int z) = Some z.
Proof.
  unfold parse_int, str_int.
  rewrite NilZero.isi.
  - simpl. now rewrite DecimalZ.of_to.
  - destruct z; simpl; try discriminate.
    intros [= H]. now apply DecimalPos.Unsigned.to_uint_nonnil in H.
  - destruct z; simpl; try discriminate.
    intros [= H]. now apply DecimalPos.Unsigned.to_uint_nonnil in H.
Qed.

(** The seconds field: two characters that read back as the number. *)
Lemma format_02d_seconds s :
  (0 <= s < 60)%Z ->
  String.length (format_02d s) = 2 /\ parse_int (format_02d s) = Some s.
Proof.
  intros Hs.
  assert (E : exists n, n < 60 /\ s = Z.of_nat n).
  { exists (Z.to_nat s). split; lia. }
  destruct E as (n & Hn & ->). clear Hs.
  do 60 (destruct n as [| n]; [split; reflexivity |]). lia.
Qed.

(** [X1] For every [ms], negative ones included, [format_duration]
    prints the whole minutes, a colon, and a seconds field of exactly two
    characters that reads as [(ms // 1000) % 60]. *)
Theorem format_duration_shape ms :
  exists seconds_field : string,
    format_duration ms = (str_int (ms / 1000 / 60) ++ ":" ++ seconds_field)%string
    /\ String.length seconds_field = 2
    /\ parse_int seconds_field = Some ((ms / 1000) mod 60)%Z.
Proof.
  exists (format_02d ((ms / 1000) mod 60)).
  destruct (format_02d_seconds ((ms / 1000) mod 60)%Z) as [Hlen Hparse].
  { apply Z.mod_pos_bound. lia. }
  repeat split; assumption.
Qed.

(** [X2] Reading the output of [format_duration] back gives the whole
    seconds [ms // 1000]; hence two durations are printed alike only when
    they agree to the second. *)
Theorem format_duration_round_trip ms :
  parse_duration (format_duration ms) = Some (ms / 1000)%Z
  /\ forall ms', format_duration ms = format_duration ms' ->
                 (ms / 1000 = ms' / 1000)%Z.
Proof.
  assert (Hparse : forall ms, parse_duration (format_duration ms) = Some (ms / 1000)%Z).
  { clear ms. intros ms. unfold parse_duration, format_duration.
    destruct (str_int_then_colon (ms / 1000 / 60) (format_02d ((ms / 1000) mod 60)))
      as [Hbefore Hafter].
    change (str_int (ms / 1000 / 60) ++ ":" ++ format_02d ((ms / 1000) mod 60))%string
      with (str_int (ms / 1000 / 60)
              ++ String ":" (format_02d ((ms / 1000) mod 60)))%string.
    rewrite Hbefore, Hafter, parse_str_int.
    destruct (format_02d_seconds ((ms / 1000) mod 60)%Z) as [_ ->].
    { apply Z.mod_pos_bound. lia. }
    f_equal. symmetry. apply Z.div_mod. lia. }
  split; [apply Hparse |].
  intros ms' E. pose proof (Hparse ms) as H. rewrite E, Hparse in H. now injection H.
Qed.

(** ** The Account Facade, request by request *)

(** [X3] Every Facade operation built on one call issues exactly one
    request, with the parameters it was given (limits, offsets, time ranges
    and identifiers as they are: no second page is fetched, nothing is
    retried); it hands the payload of the answer on unchanged, and answers
    with the failure envelope, carrying the text of the exception, exactly
    when the call raised. *)
Theorem facade_one_request (env : Env) :
  one_request env sp.current_user (fun x => x) (get_user_profile env)
  /\ one_request env sp.current_playback (fun x => x) (get_current_playback env)
  /\ (forall limit offset,
         one_request env (sp.current_user_playlists limit offset) (fun x => x)
                     (get_user_playlists env limit offset))
  /\ one_request env sp.queue (fun x => x) (get_queue env)
  /\ (forall query limit,
         one_request env (sp.search query "track" limit) (fun x => x)
                     (search_tracks env query limit))
  /\ (forall track_uri,
         one_request env (sp.start_playback (Some [track_uri]) None) (fun _ => tt)
                     (play_track env track_uri))
  /\ (forall playlist_uri,
         one_request env (sp.start_playback None (Some playlist_uri)) (fun _ => tt)
                     (play_playlist env playlist_uri))
  /\ one_request env sp.pause_playback (fun _ => tt) (pause_playback env)
  /\ one_request env (sp.start_playback None None) (fun _ => tt) (resume_playback env)
  /\ one_request env sp.next_track (fun _ => tt) (skip_to_next env)
  /\ one_request env sp.previous_track (fun _ => tt) (skip_to_previous env)
  /\ (forall limit,
         one_request env (sp.current_user_recently_played limit) (fun x => x)
                     (get_recently_played env limit))
  /\ (forall time_range limit,
         one_request env (sp.current_user_top_tracks time_range limit) (fun x => x)
                     (get_top_tracks env time_range limit))
  /\ (forall playlist_id track_uris,
         one_request env (sp.playlist_add_items playlist_id track_uris) (fun _ => tt)
                     (add_tracks_to_playlist env playlist_id track_uris))
  /\ (forall playlist_id limit offset,
         one_request env (sp.playlist_tracks playlist_id limit offset) (fun x => x)
                     (get_playlist_tracks env playlist_id limit offset))
  /\ one_request env sp.devices (fun x => x) (get_available_devices env)
  /\ (forall device_id play,
         one_request env (sp.transfer_playback device_id play) (fun _ => tt)
                     (transfer_playback env device_id play))
  /\ (forall volume_percent,
         one_request env (sp.volume volume_percent) (fun _ => tt)
                     (set_volume env volume_percent))
  /\ (forall state,
         one_request env (sp.shuffle state) (fun _ => tt) (toggle_shuffle env state))
  /\ (forall state,
         one_request env (sp.repeat state) (fun _ => tt) (set_repeat_mode env state))
  /\ (forall time_range limit,
         one_request env (sp.current_user_top_artists time_range limit) (fun x => x)
                     (get_top_artists env time_range limit))
  /\ (forall limit offset,
         one_request env (sp.current_user_saved_albums limit offset) (fun x => x)
                     (get_saved_albums env limit offset))
  /\ (forall limit offset,
         one_request env (sp.current_user_saved_tracks limit offset) (fun x => x)
                     (get_saved_tracks env limit offset))
  /\ (forall track_ids,
         one_request env (sp.tracks track_ids) (fun x => x) (get_tracks env track_ids))
  /\ (forall album_id limit offset,
         one_request env (sp.album_tracks album_id limit offset) (fun x => x)
                     (get_album_tracks env album_id limit offset)).
Proof.
  repeat split; intros.
  all: try (intros w; unfold get_user_profile, get_current_playback, get_user_playlists,
      get_queue, search_tracks, play_track, play_playlist, pause_playback,
      resume_playback, skip_to_next, skip_to_previous, get_recently_played,
      get_top_tracks, add_tracks_to_playlist, get_playlist_tracks,
      get_available_devices, transfer_playback, set_volume, toggle_shuffle,
      set_repeat_mode, get_top_artists, get_saved_albums, get_saved_tracks,
      get_tracks, get_album_tracks;
      unfold try_except, bind, sp_call, ret, observed;
      destruct (spotipy env (trace w) _) as [x | e];
      eexists; (split; [reflexivity |]);
      try (eexists; reflexivity)).
  intros w. unfold get_current_playback, try_except, bind, sp_call, ret, observed.
  destruct (spotipy env (trace w) sp.current_playback) as [[raw |] | e];
    eexists; (split; [reflexivity | eexists; reflexivity]).
Qed.

(** [X4] [get_followed_artists]: an empty cursor is no cursor (the call
    with [after = ""] is the call with [after = None]: the first page is
    requested), and a non-empty cursor goes into the one request as it
    is. *)
Theorem get_followed_artists_cursor env limit w :
  get_followed_artists env limit (Some "") w = get_followed_artists env limit None w
  /\ forall after,
      after <> "" ->
      exists envelope answer,
        get_followed_artists env limit (Some after) w
        = (Returns envelope,
           observed w (SpCall (sp.current_user_followed_artists limit "artist" (Some after))
                              answer)).
Proof.
  split; [reflexivity |].
  intros after Hafter.
  unfold get_followed_artists, try_except, bind, sp_call, ret, observed.
  destruct after as [| c after]; [congruence |].
  destruct (spotipy env (trace w)
              (sp.current_user_followed_artists limit "artist" (Some (String c after))))
    as [x | e]; eexists; eexists; reflexivity.
Qed.

(** [X5] [create_playlist] reads the profile first.  When that fails no
    playlist is created: the only request is the profile request and the
    failure envelope carries its exception.  When it succeeds, exactly one
    creation request follows, for the user identifier of the profile and
    the name, description and visibility given; its outcome decides the
    envelope. *)
Theorem create_playlist_needs_profile env name description public w :
  (forall e,
      spotipy env (trace w) sp.current_user = Raises e ->
      create_playlist env name description public w
      = (Returns (Failure e "Failed to create playlist"),
         observed w (SpCall sp.current_user (Raises e))))
  /\ (forall user,
         spotipy env (trace w) sp.current_user = Returns user ->
         exists envelope (answer : Outcome Playlist),
           create_playlist env name description public w
           = (Returns envelope,
              observed (observed w (SpCall sp.current_user (Returns user)))
                       (SpCall (sp.user_playlist_create (user_id user) name description
                                                        public) answer))
           /\ match answer with
              | Returns playlist =>
                  envelope
                  = Success playlist ("Playlist '" ++ name ++ "' created successfully")
              | Raises e => envelope = Failure e "Failed to create playlist"
              end).
Proof.
  split.
  - intros e E. unfold create_playlist, try_except, bind, sp_call, ret.
    rewrite E. reflexivity.
  - intros user E. unfold create_playlist, try_except, bind, sp_call, ret, observed.
    rewrite E. simpl.
    match goal with
    | |- context [spotipy env ?h (sp.user_playlist_create ?u ?n ?d ?p)] =>
        destruct (spotipy env h (sp.user_playlist_create u n d p)) as [playlist | e]
    end.
    + exists (Success playlist ("Playlist '" ++ name ++ "' created successfully")),
        (Returns playlist).
      split; reflexivity.
    + exists (Failure e "Failed to create playlist"), (Raises e).
      split; reflexivity.
Qed.

(** ** The Secondary Catalog Client: failures, order, bounds *)

(** A request that fails ends the loop on the spot. *)
Lemma lookup_loop_aborts {S} env url (step : string -> TivoData -> S -> M S)
      before key rest s w s1 w1 e :
  lookup_loop env url step before s w = (Returns s1, w1) ->
  httpx_get env (trace w1) (url key) = Raises e ->
  lookup_loop env url step (before ++ key :: rest) s w
  = (Raises e, observed w1 (HttpGet (url key) (Raises e))).
Proof.
  intros Hbefore Hfail. unfold lookup_loop in *.
  rewrite for_each_app, (bind_returns _ _ _ _ _ Hbefore). simpl.
  unfold bind. rewrite client_get_run, Hfail. reflexivity.
Qed.

(** [X6] The three catalogue operations stop at the first request that
    fails: the exception of that request is the outcome of the whole
    operation (what the earlier keys yielded is lost with it), and no
    request is issued for the keys that follow. *)
Theorem catalogue_operations_fail_fast env w :
  (forall before name rest ids1 w1 e,
      get_tivo_artist_ids env before w = (Returns ids1, w1) ->
      httpx_get env (trace w1) (artist_search_url (replace_char " " "+" name)) = Raises e ->
      get_tivo_artist_ids env (before ++ name :: rest) w
      = (Raises e,
         observed w1 (HttpGet (artist_search_url (replace_char " " "+" name)) (Raises e))))
  /\ (forall before artist_id rest d1 w1 e,
         get_tivo_artist_album_ids env before w = (Returns d1, w1) ->
         httpx_get env (trace w1) (discography_url artist_id) = Raises e ->
         get_tivo_artist_album_ids env (before ++ artist_id :: rest) w
         = (Raises e, observed w1 (HttpGet (discography_url artist_id) (Raises e))))
  /\ (forall before album_id rest tracks1 w1 e,
         get_tivo_tracks_in_albums env before w = (Returns tracks1, w1) ->
         httpx_get env (trace w1) (album_url album_id) = Raises e ->
         get_tivo_tracks_in_albums env (before ++ album_id :: rest) w
         = (Raises e, observed w1 (HttpGet (album_url album_id) (Raises e)))).
Proof.
  split; [| split].
  - intros before name rest ids1 w1 e Hbefore Hfail.
    rewrite get_tivo_artist_ids_loop in *.
    exact (lookup_loop_aborts env _ _ before name rest [] w ids1 w1 e Hbefore Hfail).
  - intros before artist_id rest d1 w1 e Hbefore Hfail.
    rewrite get_tivo_artist_album_ids_loop in *.
    exact (lookup_loop_aborts env _ _ before artist_id rest [] w d1 w1 e Hbefore Hfail).
  - intros before album_id rest tracks1 w1 e Hbefore Hfail.
    rewrite get_tivo_tracks_in_albums_loop in *.
    exact (lookup_loop_aborts env _ _ before album_id rest [] w tracks1 w1 e Hbefore Hfail).
Qed.

Lemma tracks_in_dict_one_pass env artist_album_dict w :
  get_tivo_tracks_in_artist_album_dict env artist_album_dict w
  = get_tivo_tracks_in_albums env (List.concat (map snd artist_album_dict)) w.
Proof.
  unfold get_tivo_tracks_in_artist_album_dict.
  assert (H : forall acc w,
             for_each artist_album_dict
               (fun '(artist_id, album_ids) tivo_tracks =>
                  more <- get_tivo_tracks_in_albums env album_ids ;;
                  ret (tivo_tracks ++ more)) acc w
             = prefixed acc
                 (get_tivo_tracks_in_albums env (List.concat (map snd artist_album_dict)) w)).
  { clear w. induction artist_album_dict as [| [artist_id album_ids] d IH]; intros acc w.
    - simpl. unfold ret. now rewrite app_nil_r.
    - simpl for_each. simpl List.concat. rewrite get_tivo_tracks_in_albums_app.
      rewrite bind_assoc. unfold bind at 1.
      destruct (get_tivo_tracks_in_albums env album_ids w) as [[more | e] w1];
        [| reflexivity].
      rewrite bind_ret_l, IH, prefixed_prefixed. reflexivity. }
  rewrite H. destruct (get_tivo_tracks_in_albums env _ w) as [[tracks | e] w1]; reflexivity.
Qed.

(** [X7] [get_tivo_tracks_in_artist_album_dict] is one pass of
    [get_tivo_tracks_in_albums] over all the album identifiers of the
    dictionary, taken entry after entry in the order of the dictionary: the
    same requests in the same order, the same tracks, the same outcome
    when a request fails.  The artist keys play no part. *)
Theorem get_tivo_tracks_in_artist_album_dict_flat env artist_album_dict w :
  get_tivo_tracks_in_artist_album_dict env artist_album_dict w
  = get_tivo_tracks_in_albums env (List.concat (map snd artist_album_dict)) w.
Proof. apply tracks_in_dict_one_pass. Qed.

Lemma dict_set_key_list {V} k (v : V) d :
  map fst (dict_set k v d)
  = if mem k (map fst d) then map fst d else map fst d ++ [k].
Proof.
  induction d as [| [k0 v0] d IH]; simpl.
  - reflexivity.
  - rewrite (String.eqb_sym k k0).
    destruct (String.eqb_spec k0 k) as [-> | Hne]; simpl.
    + reflexivity.
    + rewrite IH. now destruct (mem k (map fst d)).
Qed.

Lemma dict_set_keeps_keys_apart {V} k (v : V) d :
  NoDup (map fst d) -> NoDup (map fst (dict_set k v d)).
Proof.
  intros Hd. rewrite dict_set_key_list.
  destruct (mem k (map fst d)) eqn:E; [exact Hd |].
  apply NoDup_app; [exact Hd | repeat constructor; auto |].
  intros x Hx [<- | []]. apply mem_In in Hx. congruence.
Qed.

Lemma dict_set_length {V} k (v : V) d :
  List.length (dict_set k v d) <= S (List.length d).
Proof.
  induction d as [| [k0 v0] d IH]; simpl; [lia |].
  destruct (String.eqb k0 k); simpl; lia.
Qed.

Lemma set_album_ids_step artist_id data (d : list (string * list string)) w :
  exists s' w',
    match hits data with
    | Some (hit :: rest) =>
        ret (dict_set artist_id (map hit_id (firstn 2 (hit :: rest))) d)
    | _ => ret d
    end w = (Returns s', w')
    /\ trace w' = trace w /\ set_album_ids artist_id data d s'.
Proof.
  unfold set_album_ids.
  destruct (hits data) as [[| hit rest] |]; eexists; eexists; repeat split.
Qed.

Lemma set_album_ids_chain keys answers d d' :
  chain set_album_ids keys answers d d' ->
  (NoDup (map fst d) -> NoDup (map fst d'))
  /\ List.length d' <= List.length d + List.length keys
  /\ (forall k v, In (k, v) d' ->
                  In (k, v) d
                  \/ exists i data hit rest,
                      nth_error keys i = Some k
                      /\ nth_error answers i = Some data
                      /\ hits data = Some (hit :: rest)
                      /\ v = map hit_id (firstn 2 (hit :: rest))).
Proof.
  induction 1 as [s | key keys data answers s s1 s2 Hstep _ (IH1 & IH2 & IH3)].
  - repeat split; auto. simpl. lia.
  - unfold set_album_ids in Hstep. repeat split.
    + intros Hs. apply IH1. subst s1.
      destruct (hits data) as [[| hit rest] |]; auto using dict_set_keeps_keys_apart.
    + assert (List.length s1 <= S (List.length s)).
      { subst s1. destruct (hits data) as [[| hit rest] |]; auto using dict_set_length. }
      simpl. lia.
    + intros k v Hin. destruct (IH3 k v Hin) as [Hs1 | (i & d0 & hit & rest & H1 & H2 & H3 & H4)].
      * subst s1. destruct (hits data) as [[| hit rest] |] eqn:Eh; auto.
        apply dict_set_in in Hs1. destruct Hs1 as [[= -> ->] | Hs]; [| now left].
        right. exists 0, data, hit, rest. auto.
      * right. exists (S i), d0, hit, rest. auto.
Qed.

(** [X8] The dictionary returned by [get_tivo_artist_album_ids] has no
    key twice and no more entries than artist identifiers were given; and
    every entry maps an artist identifier of the input to the identifiers
    of the first two hits (the only hit, when there is one) of an answer to
    a lookup of that artist, in the order of the answer. *)
Theorem get_tivo_artist_album_ids_entries env artist_ids w d w' :
  get_tivo_artist_album_ids env artist_ids w = (Returns d, w') ->
  NoDup (map fst d)
  /\ List.length d <= List.length artist_ids
  /\ exists answers,
      trace w' = trace w ++ lookups discography_url artist_ids answers
      /\ forall artist_id album_ids,
          In (artist_id, album_ids) d ->
          exists i data hit rest,
            nth_error artist_ids i = Some artist_id
            /\ nth_error answers i = Some data
            /\ hits data = Some (hit :: rest)
            /\ album_ids = map hit_id (firstn 2 (hit :: rest)).
Proof.
  intros Hrun. rewrite get_tivo_artist_album_ids_loop in Hrun.
  apply (http_loop_spec env _ _ set_album_ids) in Hrun;
    [| intros; apply set_album_ids_step].
  destruct Hrun as (answers & Htrace & Hchain).
  destruct (set_album_ids_chain _ _ _ _ Hchain) as (Hnodup & Hlen & Hentries).
  split; [apply Hnodup; constructor |]. split; [exact Hlen |].
  exists answers. split; [exact Htrace |].
  intros artist_id album_ids Hin. destruct (Hentries _ _ Hin) as [[] | H]. exact H.
Qed.

(** ** The requests of the aggregator *)

(** [X9] A call of [recall_artists] that returns has asked the primary
    service, in this order, for the recently played tracks (with
    [recent_limit]), the long-term top tracks and the long-term top artists
    (with [top_limit]), the first three followed artists without a cursor,
    the first three playlists, the first three tracks of each playlist
    listed in the answer (none when that request failed), the first three
    saved albums and the first three saved tracks: no other request, no
    second page, nothing from the catalogue, and no random draw.  The call
    returns whenever no playlist item lacks its track. *)
Theorem recall_artists_requests self top_limit recent_limit playlist_limit album_limit
        saved_tracks_limit w :
  (tracks_present self ->
   exists (answer : Outcome (Paging Playlist)) evs result w',
     recall_artists self top_limit recent_limit playlist_limit album_limit
                    saved_tracks_limit w = (Returns result, w')
     /\ trace w' = trace w ++ evs
     /\ rng w' = rng w
     /\ In (SpCall (sp.current_user_playlists 3 0) answer) evs
     /\ sp_requests evs
        = [sp.current_user_recently_played recent_limit;
           sp.current_user_top_tracks "long_term" top_limit;
           sp.current_user_top_artists "long_term" top_limit;
           sp.current_user_followed_artists 3 "artist" None;
           sp.current_user_playlists 3 0]
            ++ map (fun playlist => sp.playlist_tracks (playlist_id playlist) 3 0)
                   (listed_playlists answer)
            ++ [sp.current_user_saved_albums 3 0; sp.current_user_saved_tracks 3 0]
     /\ requested_urls evs = [])
  /\ forall result w',
      recall_artists self top_limit recent_limit playlist_limit album_limit
                     saved_tracks_limit w = (Returns result, w') ->
      exists (answer : Outcome (Paging Playlist)) evs,
        trace w' = trace w ++ evs
        /\ rng w' = rng w
        /\ In (SpCall (sp.current_user_playlists 3 0) answer) evs
        /\ sp_requests evs
           = [sp.current_user_recently_played recent_limit;
              sp.current_user_top_tracks "long_term" top_limit;
              sp.current_user_top_artists "long_term" top_limit;
              sp.current_user_followed_artists 3 "artist" None;
              sp.current_user_playlists 3 0]
               ++ map (fun playlist => sp.playlist_tracks (playlist_id playlist) 3 0)
                      (listed_playlists answer)
               ++ [sp.current_user_saved_albums 3 0; sp.current_user_saved_tracks 3 0]
        /\ requested_urls evs = [].
Proof.
  assert (Hreturned : forall result w',
             recall_artists self top_limit recent_limit playlist_limit album_limit
                            saved_tracks_limit w = (Returns result, w') ->
             exists (answer : Outcome (Paging Playlist)) evs,
               trace w' = trace w ++ evs
               /\ rng w' = rng w
               /\ In (SpCall (sp.current_user_playlists 3 0) answer) evs
               /\ sp_requests evs
                  = [sp.current_user_recently_played recent_limit;
                     sp.current_user_top_tracks "long_term" top_limit;
                     sp.current_user_top_artists "long_term" top_limit;
                     sp.current_user_followed_artists 3 "artist" None;
                     sp.current_user_playlists 3 0]
                      ++ map (fun playlist =>
                                sp.playlist_tracks (playlist_id playlist) 3 0)
                             (listed_playlists answer)
                      ++ [sp.current_user_saved_albums 3 0;
                          sp.current_user_saved_tracks 3 0]
               /\ requested_urls evs = []).
  { intros result w' Hrun.
    destruct (recall_artists_returned _ _ _ _ _ _ _ _ _ Hrun) as (all & Hall & _).
    destruct (seven_sources_returned _ _ _ _ _ _ Hall)
      as (answer & evs & Htrace & Hrng & Hurl & _ & Hin & Hreq).
    exists answer, evs. repeat split; assumption. }
  split; [| exact Hreturned].
  intros Hpresent.
  destruct (recall_artists_returns self top_limit recent_limit playlist_limit album_limit
              saved_tracks_limit w Hpresent) as (result & w' & Hrun).
  destruct (Hreturned result w' Hrun) as (answer & evs & H).
  exists answer, evs, result, w'. split; [exact Hrun | exact H].
Qed.

(** ** What the aggregator returns *)

Lemma nth_error_combine {A B} (l : list A) (l' : list B) :
  forall i x y,
    nth_error (combine l l') i = Some (x, y) ->
    nth_error l i = Some x /\ nth_error l' i = Some y.
Proof.
  revert l'. induction l as [| a l IH]; intros [| b l'] [| i] x y H;
    simpl in *; try discriminate.
  - injection H as -> ->. auto.
  - now apply IH.
Qed.

(** [X10] The two lists returned by [recall_artists] have the same length,
    at most the number of artist entries met in the sources; and every
    (identifier, name) pair of the result was met together, on one artist
    entry of a source: no identifier is invented or paired with the name
    of another artist.  This holds of every call that returns, and the call
    returns whenever no playlist item lacks its track. *)
Theorem recall_artists_pairs self top_limit recent_limit playlist_limit album_limit
        saved_tracks_limit w :
  (tracks_present self ->
   exists all ids names w',
     seven_sources self top_limit recent_limit w = (Returns all, w')
     /\ recall_artists self top_limit recent_limit playlist_limit album_limit
                       saved_tracks_limit w = (Returns (ids, names), w')
     /\ List.length names = List.length ids
     /\ List.length ids <= List.length all
     /\ forall id name,
         In (id, name) (combine ids names) ->
         exists artist,
           In artist all /\ artist_id artist = id /\ artist_name artist = name)
  /\ forall ids names w',
      recall_artists self top_limit recent_limit playlist_limit album_limit
                     saved_tracks_limit w = (Returns (ids, names), w') ->
      exists all,
        seven_sources self top_limit recent_limit w = (Returns all, w')
        /\ List.length names = List.length ids
        /\ List.length ids <= List.length all
        /\ forall id name,
            In (id, name) (combine ids names) ->
            exists artist,
              In artist all /\ artist_id artist = id /\ artist_name artist = name.
Proof.
  assert (Hreturned : forall ids names w',
             recall_artists self top_limit recent_limit playlist_limit album_limit
                            saved_tracks_limit w = (Returns (ids, names), w') ->
             exists all,
               seven_sources self top_limit recent_limit w = (Returns all, w')
               /\ List.length names = List.length ids
               /\ List.length ids <= List.length all
               /\ forall id name,
                   In (id, name) (combine ids names) ->
                   exists artist,
                     In artist all /\ artist_id artist = id
                     /\ artist_name artist = name).
  { intros ids names w' Hrun.
    destruct (recall_artists_returned _ _ _ _ _ _ _ _ _ Hrun) as (all & Hall & Ed).
    pose proof (deduplicate_spec all) as Hspec. simpl in Hspec.
    rewrite <- Ed in Hspec.
    simpl in Hspec. destruct Hspec as ((js & Hjs & Hnames & Hinc & Hat) & Hnodup & Hcover).
    assert (Hsound : forall i id name,
               nth_error ids i = Some id -> nth_error names i = Some name ->
               exists artist,
                 In artist all /\ artist_id artist = id /\ artist_name artist = name).
    { intros i id name Hid Hname.
      assert (Hi : i < List.length js).
      { rewrite Hjs. apply nth_error_Some. congruence. }
      destruct (nth_error js i) as [j |] eqn:Ej; [| apply nth_error_None in Ej; lia].
      destruct (Hat i j Ej) as (artist & [Hnth _] & Hid' & Hname').
      exists artist. repeat split.
      - eapply nth_error_In, Hnth.
      - congruence.
      - congruence. }
    exists all. repeat split.
    - exact Hall.
    - exact Hnames.
    - rewrite <- (length_map artist_id all). apply NoDup_incl_length; [exact Hnodup |].
      intros id Hin. apply In_nth_error in Hin. destruct Hin as (i & Hid).
      assert (Hi : i < List.length names).
      { rewrite Hnames. apply nth_error_Some. congruence. }
      destruct (nth_error names i) as [name |] eqn:En; [| apply nth_error_None in En; lia].
      destruct (Hsound i id name Hid En) as (artist & Hin & <- & _).
      now apply in_map.
    - intros id name Hin. apply In_nth_error in Hin. destruct Hin as (i & Hi).
      apply nth_error_combine in Hi. destruct Hi as [Hid Hname].
      exact (Hsound i id name Hid Hname). }
  split; [| exact Hreturned].
  intros Hpresent.
  destruct (recall_artists_returns self top_limit recent_limit playlist_limit album_limit
              saved_tracks_limit w Hpresent) as ([ids names] & w' & Hrun).
  destruct (Hreturned ids names w' Hrun) as (all & Hall & H).
  exists all, ids, names, w'. split; [exact Hall |]. split; [exact Hrun | exact H].
Qed.

Lemma deduplicate_keeps_shape (pairs : list (string * string)) :
  forall result : list string * list string,
    NoDup (fst result) ->
    List.length (snd result) = List.length (fst result) ->
    let result' :=
      fold_left
        (fun result '(artist_id, artist_name) =>
           if negb (mem artist_id (fst result))
           then (fst result ++ [artist_id], snd result ++ [artist_name])
           else result)
        pairs result in
    NoDup (fst result') /\ List.length (snd result') = List.length (fst result').
Proof.
  induction pairs as [| [id name] pairs IH]; intros result Hnodup Hlen; simpl.
  - auto.
  - apply IH.
    + destruct (mem id (fst result)) eqn:E; simpl; [exact Hnodup |].
      apply NoDup_app; [exact Hnodup | repeat constructor; auto |].
      intros x Hx [<- | []]. apply mem_In in Hx. congruence.
    + destruct (mem id (fst result)); simpl; [exact Hlen |].
      rewrite !length_app. simpl. lia.
Qed.

Lemma deduplicate_nothing_to_do (ids : list string) :
  forall names acc_ids acc_names : list string,
    NoDup (acc_ids ++ ids) ->
    List.length names = List.length ids ->
    fold_left
      (fun result '(artist_id, artist_name) =>
         if negb (mem artist_id (fst result))
         then (fst result ++ [artist_id], snd result ++ [artist_name])
         else result)
      (combine ids names) (acc_ids, acc_names)
    = (acc_ids ++ ids, acc_names ++ names).
Proof.
  induction ids as [| id ids IH]; intros [| name names] acc_ids acc_names Hnodup Hlen;
    try discriminate; simpl.
  - now rewrite !app_nil_r.
  - assert (Hnot : mem id acc_ids = false).
    { destruct (mem id acc_ids) eqn:E; [| reflexivity].
      apply mem_In in E. apply NoDup_remove_2 in Hnodup.
      exfalso. apply Hnodup. apply in_or_app. now left. }
    rewrite Hnot. simpl.
    rewrite IH.
    + now rewrite <- !app_assoc.
    + now rewrite <- app_assoc.
    + now injection Hlen.
Qed.

(** [X11] The de-duplication of [recall_artists] leaves alone two lists
    of equal length whose identifiers are all different, and applying it to
    its own result changes nothing, whatever the two lists it started
    from. *)
Theorem deduplicate_idempotent artist_ids artist_names :
  (NoDup artist_ids ->
   List.length artist_names = List.length artist_ids ->
   deduplicate artist_ids artist_names = (artist_ids, artist_names))
  /\ deduplicate (fst (deduplicate artist_ids artist_names))
                 (snd (deduplicate artist_ids artist_names))
     = deduplicate artist_ids artist_names.
Proof.
  assert (Hfixed : forall ids names,
             NoDup ids -> List.length names = List.length ids ->
             deduplicate ids names = (ids, names)).
  { intros ids names Hnodup Hlen. unfold deduplicate.
    now rewrite (deduplicate_nothing_to_do ids names [] []). }
  split; [apply Hfixed |].
  destruct (deduplicate_keeps_shape (combine artist_ids artist_names) ([], []))
    as [Hnodup Hlen]; [constructor | reflexivity |].
  fold (deduplicate artist_ids artist_names) in Hnodup, Hlen.
  rewrite (Hfixed _ _ Hnodup Hlen).
  now destruct (deduplicate artist_ids artist_names).
Qed.

(** ** Sizes along the pipeline *)

Lemma album_contribution_sound data contribution :
  album_contribution data contribution ->
  List.length contribution <= 10
  /\ forall track,
      In track contribution ->
      exists hit rest album_tracks,
        hits data = Some (hit :: rest)
        /\ hit_tracks hit = Some album_tracks
        /\ In track album_tracks.
Proof.
  unfold album_contribution.
  destruct (hits data) as [[| hit rest] |] eqn:Eh;
    try (intros ->; split; [simpl; lia | intros ? []]).
  destruct (hit_tracks hit) as [album_tracks |] eqn:Et;
    try (intros ->; split; [simpl; lia | intros ? []]).
  destruct (10 <? List.length album_tracks)%nat eqn:E.
  - intros (Hlen & others & Hperm). split; [lia |].
    intros track Hin. exists hit, rest, album_tracks.
    split; [reflexivity |]. split; [exact Et |].
    eapply Permutation_in; [exact Hperm |]. apply in_or_app. now left.
  - intros ->. apply Nat.ltb_ge in E. split; [exact E |].
    intros track Hin. now exists hit, rest, album_tracks.
Qed.

Lemma contributions_sound answers contributions :
  Forall2 album_contribution answers contributions ->
  List.length (List.concat contributions) <= 10 * List.length answers
  /\ forall track,
      In track (List.concat contributions) ->
      exists data hit rest album_tracks,
        In data answers
        /\ hits data = Some (hit :: rest)
        /\ hit_tracks hit = Some album_tracks
        /\ In track album_tracks.
Proof.
  induction 1 as [| data c answers cs Hc _ [IHlen IHin]]; simpl.
  - split; [lia | intros ? []].
  - destruct (album_contribution_sound data c Hc) as [Hlen Hin]. split.
    + rewrite length_app. lia.
    + intros track Ht. apply in_app_or in Ht. destruct Ht as [Ht | Ht].
      * destruct (Hin track Ht) as (hit & rest & album_tracks & H1 & H2 & H3).
        exists data, hit, rest, album_tracks. auto.
      * destruct (IHin track Ht) as (d0 & hit & rest & album_tracks & H0 & H1 & H2 & H3).
        exists d0, hit, rest, album_tracks. auto.
Qed.

Lemma get_tivo_tracks_in_albums_sound env album_ids w tivo_tracks w' :
  get_tivo_tracks_in_albums env album_ids w = (Returns tivo_tracks, w') ->
  List.length tivo_tracks <= 10 * List.length album_ids
  /\ exists answers,
      List.length answers = List.length album_ids
      /\ trace w' = trace w ++ lookups album_url album_ids answers
      /\ forall track,
          In track tivo_tracks ->
          exists data hit rest album_tracks,
            In data answers
            /\ hits data = Some (hit :: rest)
            /\ hit_tracks hit = Some album_tracks
            /\ In track album_tracks.
Proof.
  intros Hrun. rewrite get_tivo_tracks_in_albums_loop in Hrun.
  apply (http_loop_spec env _ _
           (fun _ data s s' =>
              exists contribution,
                s' = s ++ contribution /\ album_contribution data contribution))
    in Hrun; [| intros; apply tracks_step].
  destruct Hrun as (answers & Htrace & Hchain).
  pose proof (chain_length _ _ _ _ _ Hchain) as Hlen.
  destruct (tracks_chain _ _ _ _ Hchain) as (contributions & Hs & Hall). simpl in Hs.
  subst tivo_tracks.
  destruct (contributions_sound _ _ Hall) as [Hbound Hin].
  split; [lia |]. exists answers. repeat split; assumption.
Qed.

(** [X12] [get_tivo_tracks_in_albums] returns at most ten tracks per album
    identifier given, and only tracks that the catalogue listed on the
    first hit of one of its answers. *)
Theorem get_tivo_tracks_in_albums_bound env album_ids w tivo_tracks w' :
  get_tivo_tracks_in_albums env album_ids w = (Returns tivo_tracks, w') ->
  List.length tivo_tracks <= 10 * List.length album_ids
  /\ exists answers,
      List.length answers = List.length album_ids
      /\ trace w' = trace w ++ lookups album_url album_ids answers
      /\ forall track,
          In track tivo_tracks ->
          exists data hit rest album_tracks,
            In data answers
            /\ hits data = Some (hit :: rest)
            /\ hit_tracks hit = Some album_tracks
            /\ In track album_tracks.
Proof. apply get_tivo_tracks_in_albums_sound. Qed.

Lemma lookups_quiet url keys answers :
  sp_requests (lookups url keys answers) = []
  /\ List.length (requested_urls (lookups url keys answers)) <= List.length keys.
Proof.
  unfold lookups. revert answers.
  induction keys as [| key keys IH]; intros [| data answers]; simpl; try (split; [reflexivity | lia]).
  destruct (IH answers) as [H1 H2]. split; [exact H1 | simpl; lia].
Qed.

Lemma searches_requests titles :
  forall answers,
    requested_urls (searches titles answers) = []
    /\ List.length (search_queries (searches titles answers)) <= List.length titles.
Proof.
  unfold searches, search_queries.
  induction titles as [| q titles IH]; intros [| answer answers]; simpl;
    try (split; [reflexivity | lia]).
  destruct (IH answers) as [H1 H2]. split; [exact H1 | simpl; lia].
Qed.

Lemma search_queries_app evs evs' :
  search_queries (evs ++ evs') = search_queries evs ++ search_queries evs'.
Proof. unfold search_queries. now rewrite sp_requests_app, flat_map_app. Qed.

Lemma search_queries_none evs : sp_requests evs = [] -> search_queries evs = [].
Proof. unfold search_queries. now intros ->. Qed.

Lemma first_results_length answers :
  List.length (flat_map first_result answers) <= List.length answers.
Proof.
  induction answers as [| answer answers IH]; simpl; [lia |].
  rewrite length_app. unfold first_result at 1.
  destruct answer as [results | e]; [| simpl; lia].
  destruct (items (found_tracks results)); simpl; lia.
Qed.

Lemma first_hit_ids_length answers :
  List.length (flat_map first_hit_id answers) <= List.length answers.
Proof.
  induction answers as [| data answers IH]; simpl; [lia |].
  rewrite length_app. unfold first_hit_id at 1.
  destruct (hits data) as [[| hit rest] |]; simpl; lia.
Qed.

(** The aggregator asks nothing of the catalogue and searches nothing. *)
Lemma recall_artists_quiet self top_limit recent_limit playlist_limit album_limit
      saved_tracks_limit w result w1 :
  recall_artists self top_limit recent_limit playlist_limit album_limit
                 saved_tracks_limit w = (Returns result, w1) ->
  exists evs,
    trace w1 = trace w ++ evs
    /\ rng w1 = rng w
    /\ requested_urls evs = []
    /\ search_queries evs = [].
Proof.
  intros Hrun.
  destruct (recall_artists_returned _ _ _ _ _ _ _ _ _ Hrun) as (all & Hall & _).
  destruct (seven_sources_returned _ _ _ _ _ _ Hall)
    as (answer & evs & Htrace & Hrng & Hurl & _ & _ & Hreq).
  exists evs. repeat split; try assumption.
  unfold search_queries. rewrite Hreq. simpl.
  rewrite flat_map_app. simpl. rewrite app_nil_r.
  generalize (listed_playlists answer). clear.
  intros playlists. induction playlists as [| playlist playlists IH];
    [reflexivity | exact IH].
Qed.

(** What the catalogue stages of a run hand on, and what they ask. *)
Lemma get_tivo_artist_ids_size env artist_names w ids w' :
  get_tivo_artist_ids env artist_names w = (Returns ids, w') ->
  List.length ids <= List.length artist_names
  /\ exists evs,
      trace w' = trace w ++ evs
      /\ sp_requests evs = []
      /\ List.length (requested_urls evs) <= List.length artist_names.
Proof.
  intros Hrun. rewrite get_tivo_artist_ids_loop in Hrun.
  apply (http_loop_spec env _ _ (fun _ data s s' => s' = s ++ first_hit_id data)) in Hrun;
    [| intros; apply artist_ids_step].
  destruct Hrun as (answers & Htrace & Hchain).
  pose proof (chain_length _ _ _ _ _ Hchain) as Hlen.
  apply artist_ids_chain in Hchain. simpl in Hchain. subst ids.
  split.
  - rewrite <- Hlen. apply first_hit_ids_length.
  - eexists. split; [exact Htrace |]. apply lookups_quiet.
Qed.

Lemma album_lists_size (d : list (string * list string)) :
  (forall k v, In (k, v) d -> List.length v <= 2) ->
  List.length (List.concat (map snd d)) <= 2 * List.length d.
Proof.
  induction d as [| [k v] d IH]; intros H; simpl; [lia |].
  rewrite length_app.
  assert (List.length v <= 2) by (apply (H k); now left).
  assert (List.length (List.concat (map snd d)) <= 2 * List.length d).
  { apply IH. intros k' v' Hin. apply (H k'). now right. }
  lia.
Qed.

Lemma get_tivo_artist_album_ids_size env artist_ids w d w' :
  get_tivo_artist_album_ids env artist_ids w = (Returns d, w') ->
  List.length (List.concat (map snd d)) <= 2 * List.length artist_ids
  /\ exists evs,
      trace w' = trace w ++ evs
      /\ sp_requests evs = []
      /\ List.length (requested_urls evs) <= List.length artist_ids.
Proof.
  intros Hrun. rewrite get_tivo_artist_album_ids_loop in Hrun.
  apply (http_loop_spec env _ _ set_album_ids) in Hrun;
    [| intros; apply set_album_ids_step].
  destruct Hrun as (answers & Htrace & Hchain).
  destruct (set_album_ids_chain _ _ _ _ Hchain) as (_ & Hlen & Hentries). simpl in Hlen.
  split.
  - assert (List.length (List.concat (map snd d)) <= 2 * List.length d); [| lia].
    apply album_lists_size. intros k v Hin.
    destruct (Hentries k v Hin) as [[] | (i & data & hit & rest & _ & _ & _ & ->)].
    rewrite length_map. destruct rest; simpl; lia.
  - eexists. split; [exact Htrace |]. apply lookups_quiet.
Qed.

Lemma get_tivo_tracks_in_artist_album_dict_size env d w tivo_tracks w' :
  get_tivo_tracks_in_artist_album_dict env d w = (Returns tivo_tracks, w') ->
  List.length tivo_tracks <= 10 * List.length (List.concat (map snd d))
  /\ exists evs,
      trace w' = trace w ++ evs
      /\ sp_requests evs = []
      /\ List.length (requested_urls evs) <= List.length (List.concat (map snd d)).
Proof.
  rewrite tracks_in_dict_one_pass. intros Hrun.
  destruct (get_tivo_tracks_in_albums_sound _ _ _ _ _ Hrun)
    as (Hbound & answers & _ & Htrace & _).
  split; [exact Hbound |]. eexists. split; [exact Htrace |]. apply lookups_quiet.
Qed.

Lemma searches_queries titles :
  forall answers,
    List.length answers = List.length titles ->
    search_queries (searches titles answers) = titles.
Proof.
  unfold searches, search_queries.
  induction titles as [| q titles IH]; intros [| answer answers] Hlen;
    try discriminate; simpl.
  - reflexivity.
  - f_equal. apply IH. now injection Hlen.
Qed.

(** [X13] A run of [recall_all_tracks] that returns hands back a success
    envelope with at most 60 tracks, never more tracks than titles were
    searched, after at most 12 requests to the catalogue (3 artist
    searches, 3 discographies, 6 albums) and at most 60 title searches. *)
Theorem recall_all_tracks_bounds self w envelope w' :
  recall_all_tracks self w = (Returns envelope, w') ->
  exists data message evs,
    envelope = Success data message
    /\ trace w' = trace w ++ evs
    /\ List.length (requested_urls evs) <= 12
    /\ List.length (search_queries evs) <= 60
    /\ List.length (tracks data) <= List.length (search_queries evs).
Proof.
  intros Hrun. unfold recall_all_tracks in Hrun.
  apply bind_inv in Hrun. destruct Hrun as ([ids names] & w1 & E1 & Hrun).
  cbv beta iota zeta in Hrun.
  apply bind_inv in Hrun. destruct Hrun as (artist_ids & w2 & E2 & Hrun).
  apply bind_inv in Hrun. destruct Hrun as (d & w3 & E3 & Hrun).
  apply bind_inv in Hrun. destruct Hrun as (tivo_tracks & w4 & E4 & Hrun).
  apply bind_inv in Hrun. destruct Hrun as (shuffled & w5 & E5 & Hrun).
  apply bind_inv in Hrun. destruct Hrun as (found & w6 & E6 & Hrun).
  apply bind_inv in Hrun. destruct Hrun as (kept & w7 & E7 & Hrun).
  injection Hrun as <- <-.
  destruct (recall_artists_quiet _ _ _ _ _ _ _ _ _ E1) as (evs1 & T1 & _ & U1 & Q1).
  destruct (get_tivo_artist_ids_size _ _ _ _ _ E2) as (L2 & evs2 & T2 & R2 & U2).
  destruct (get_tivo_artist_album_ids_size _ _ _ _ _ E3) as (L3 & evs3 & T3 & R3 & U3).
  destruct (get_tivo_tracks_in_artist_album_dict_size _ _ _ _ _ E4)
    as (L4 & evs4 & T4 & R4 & U4).
  destruct (random_shuffle_spec tivo_tracks w4) as (y5 & w5' & E5' & T5 & P5).
  rewrite E5 in E5'. injection E5' as <- <-.
  destruct (recall_search_loop self (fun _ => True) (map title shuffled) (fun _ _ => I) [] w5)
    as (answers & w6' & E6' & L6 & T6 & _ & _).
  rewrite E6 in E6'. injection E6' as -> <-.
  destruct (random_shuffle_spec (flat_map first_result answers) w6)
    as (y7 & w7' & E7' & T7 & P7).
  simpl app in E7. rewrite E7 in E7'. injection E7' as <- <-.
  rewrite length_map in L6.
  assert (L1 : List.length (firstn 3 names) <= 3) by apply firstn_le_length.
  apply Permutation_length in P5, P7.
  exists {| tracks := kept |}, "Successfully recall tracks",
    (evs1 ++ evs2 ++ evs3 ++ evs4 ++ searches (map title shuffled) answers).
  split; [reflexivity |]. split.
  { rewrite T7, T6, T5, T4, T3, T2, T1, <- !app_assoc. reflexivity. }
  assert (LQ : search_queries (searches (map title shuffled) answers) = map title shuffled).
  { apply searches_queries. now rewrite length_map. }
  destruct (searches_requests (map title shuffled) answers) as [US _].
  rewrite !requested_urls_app, !search_queries_app, !length_app.
  rewrite U1, Q1, US, LQ, (search_queries_none _ R2), (search_queries_none _ R3),
    (search_queries_none _ R4), length_map.
  simpl List.length. simpl tracks.
  pose proof (first_results_length answers) as LF.
  repeat split; lia.
Qed.

(** ** [random_fill]: size and shape of the output *)

(** [X14] A run of [random_fill] that returns was given a non-negative
    [num_tracks] and hands back a success envelope with at most
    [num_tracks] tracks, whose three lists go together: the identifiers and
    the joined artist names are those of the tracks, position by
    position. *)
Theorem random_fill_output self num_tracks w envelope w' :
  random_fill self num_tracks w = (Returns envelope, w') ->
  (0 <= num_tracks)%Z
  /\ exists data message,
      envelope = Success data message
      /\ List.length (fill_tracks data) <= Z.to_nat num_tracks
      /\ fill_track_ids data = map track_id (fill_tracks data)
      /\ fill_artist_names data = map joined_artist_names (fill_tracks data).
Proof.
  intros Hrun. unfold random_fill in Hrun.
  apply bind_inv in Hrun. destruct Hrun as ([ids names] & w1 & E1 & Hrun).
  cbv beta iota zeta in Hrun.
  apply bind_inv in Hrun. destruct Hrun as (artist_ids & w2 & E2 & Hrun).
  apply bind_inv in Hrun. destruct Hrun as (d & w3 & E3 & Hrun).
  apply bind_inv in Hrun. destruct Hrun as (tivo_tracks & w4 & E4 & Hrun).
  apply bind_inv in Hrun. destruct Hrun as (sampled & w5 & E5 & Hrun).
  apply bind_inv in Hrun. destruct Hrun as ([[found found_ids] found_names] & w6 & E6 & Hrun).
  injection Hrun as <- <-.
  destruct (random_sample_returns_inv _ _ _ _ _ E5) as (Hk & Hlen & _).
  destruct (fill_search_loop self (map title sampled) [] w5)
    as (answers & w6' & E6' & Hanswers & _ & _).
  simpl in E6'. rewrite E6 in E6'. injection E6' as -> -> -> <-.
  rewrite length_map in Hanswers.
  split; [lia |].
  eexists. eexists. split; [reflexivity |]. simpl.
  pose proof (first_results_length answers). repeat split; lia.
Qed.

Lemma get_tivo_artist_album_ids_urls env artist_ids w d w' :
  get_tivo_artist_album_ids env artist_ids w = (Returns d, w') ->
  requested_urls (trace w') = requested_urls (trace w) ++ map discography_url artist_ids.
Proof.
  intros Hrun. rewrite get_tivo_artist_album_ids_loop in Hrun.
  apply (http_loop_spec env _ _ set_album_ids) in Hrun;
    [| intros; apply set_album_ids_step].
  destruct Hrun as (answers & Htrace & Hchain).
  rewrite Htrace, requested_urls_app, requested_urls_lookups; [reflexivity |].
  eapply chain_length, Hchain.
Qed.

Lemma get_tivo_tracks_in_artist_album_dict_urls env d w tivo_tracks w' :
  get_tivo_tracks_in_artist_album_dict env d w = (Returns tivo_tracks, w') ->
  requested_urls (trace w')
  = requested_urls (trace w) ++ map album_url (List.concat (map snd d)).
Proof.
  rewrite tracks_in_dict_one_pass. intros Hrun.
  destruct (get_tivo_tracks_in_albums_sound _ _ _ _ _ Hrun)
    as (_ & answers & Hlen & Htrace & _).
  rewrite Htrace, requested_urls_app, requested_urls_lookups; [reflexivity | exact Hlen].
Qed.

(** [X15] With a negative [num_tracks], [random_fill] does all its
    requests to the catalogue and then fails at the sampling: against a
    catalogue that answers, and with a track on every playlist item, the
    aggregator and the three catalogue stages run (one artist lookup per
    recalled name, one discography lookup per catalogue artist, one album
    lookup per album), and in the state they leave the outcome is the
    [ValueError] of [random.sample], never an envelope. *)
Theorem random_fill_negative self num_tracks w :
  transport_ok self -> tracks_present self -> (num_tracks < 0)%Z ->
  exists ids names w1 artist_ids w2 artist_album_dict w3 tivo_tracks w4,
    recall_artists self 5 5 5 5 5 w = (Returns (ids, names), w1)
    /\ get_tivo_artist_ids self names w1 = (Returns artist_ids, w2)
    /\ get_tivo_artist_album_ids self artist_ids w2 = (Returns artist_album_dict, w3)
    /\ get_tivo_tracks_in_artist_album_dict self artist_album_dict w3
       = (Returns tivo_tracks, w4)
    /\ requested_urls (trace w4)
       = requested_urls (trace w1)
           ++ map (fun name => artist_search_url (replace_char " " "+" name)) names
           ++ map discography_url artist_ids
           ++ map album_url (List.concat (map snd artist_album_dict))
    /\ random_fill self num_tracks w
       = (Raises "ValueError: Sample larger than population or is negative", w4).
Proof.
  intros Hok Hpresent Hneg.
  destruct (recall_artists_returns self 5 5 5 5 5 w Hpresent) as ([ids names] & w1 & E1).
  destruct (get_tivo_artist_ids_returns self names Hok w1) as (artist_ids & w2 & E2).
  destruct (get_tivo_artist_album_ids_returns self artist_ids Hok w2) as (d & w3 & E3).
  destruct (get_tivo_tracks_in_artist_album_dict_returns self d Hok w3)
    as (tivo_tracks & w4 & E4).
  exists ids, names, w1, artist_ids, w2, d, w3, tivo_tracks, w4.
  split; [exact E1 |]. split; [exact E2 |]. split; [exact E3 |]. split; [exact E4 |].
  split.
  - rewrite (get_tivo_tracks_in_artist_album_dict_urls _ _ _ _ _ E4),
      (get_tivo_artist_album_ids_urls _ _ _ _ _ E3),
      (get_tivo_artist_ids_urls _ _ _ _ _ E2), <- !app_assoc.
    reflexivity.
  - unfold random_fill.
    rewrite (bind_returns _ _ _ _ _ E1). cbv beta iota zeta.
    rewrite (bind_returns _ _ _ _ _ E2), (bind_returns _ _ _ _ _ E3),
      (bind_returns _ _ _ _ _ E4).
    apply bind_raises. unfold random_sample.
    replace (Z.min num_tracks (Z.of_nat (List.length tivo_tracks)) <? 0)%Z with true
      by (symmetry; apply Z.ltb_lt; lia).
    reflexivity.
Qed.

(** ** The orchestrators and a catalogue that fails *)

(** [X16] A failure of the catalogue is not caught by the orchestrators:
    when at least one artist was recalled and the first artist lookup
    raises, both [recall_all_tracks] and [random_fill] end with that
    exception, right after that request, and return no envelope. *)
Theorem orchestrators_propagate_catalogue_failure self w ids name names w1 e :
  recall_artists self 5 5 5 5 5 w = (Returns (ids, name :: names), w1) ->
  httpx_get self (trace w1) (artist_search_url (replace_char " " "+" name)) = Raises e ->
  recall_all_tracks self w
  = (Raises e,
     observed w1 (HttpGet (artist_search_url (replace_char " " "+" name)) (Raises e)))
  /\ forall num_tracks,
      random_fill self num_tracks w
      = (Raises e,
         observed w1 (HttpGet (artist_search_url (replace_char " " "+" name)) (Raises e))).
Proof.
  intros E1 Hfail.
  assert (Hids : forall rest,
             get_tivo_artist_ids self (name :: rest) w1
             = (Raises e,
                observed w1 (HttpGet (artist_search_url (replace_char " " "+" name))
                                     (Raises e)))).
  { intros rest. rewrite get_tivo_artist_ids_loop.
    exact (lookup_loop_aborts self _ _ [] name rest [] w1 [] w1 e eq_refl Hfail). }
  split.
  - unfold recall_all_tracks. rewrite (bind_returns _ _ _ _ _ E1). cbv beta iota zeta.
    apply bind_raises. apply (Hids (firstn 2 names)).
  - intros num_tracks. unfold random_fill.
    rewrite (bind_returns _ _ _ _ _ E1). cbv beta iota zeta.
    apply bind_raises. apply Hids.
Qed.

(** [X17] When no artist is recalled the orchestrators stop there: no
    request goes to the catalogue, nothing is searched and no random
    number is drawn; [recall_all_tracks] returns the success envelope with
    no track, and so does [random_fill] for a non-negative
    [num_tracks]. *)
Theorem orchestrators_without_artists self w ids w1 :
  recall_artists self 5 5 5 5 5 w = (Returns (ids, []), w1) ->
  recall_all_tracks self w
  = (Returns (Success {| tracks := [] |} "Successfully recall tracks"), w1)
  /\ forall num_tracks,
      (0 <= num_tracks)%Z ->
      random_fill self num_tracks w
      = (Returns (Success {| fill_tracks := []; fill_track_ids := [];
                             fill_artist_names := [] |}
                          "Successfully random fill"), w1).
Proof.
  intros E1. split.
  - unfold recall_all_tracks. rewrite (bind_returns _ _ _ _ _ E1). reflexivity.
  - intros num_tracks Hpos. unfold random_fill.
    rewrite (bind_returns _ _ _ _ _ E1). cbv beta iota zeta.
    rewrite (bind_returns (get_tivo_artist_ids self []) _ _ [] w1 eq_refl).
    rewrite (bind_returns (get_tivo_artist_album_ids self []) _ _ [] w1 eq_refl).
    rewrite (bind_returns (get_tivo_tracks_in_artist_album_dict self []) _ _ [] w1 eq_refl).
    simpl List.length. rewrite Z.min_r by lia.
    rewrite (bind_returns (random_sample [] 0) _ _ [] w1 eq_refl).
    reflexivity.

Qed.

(** ** The URL of an artist lookup *)

Lemma contains_char_app c s s' :
  contains_char c (s ++ s') = contains_char c s || contains_char c s'.
Proof.
  induction s as [| c' s IH]; simpl; [reflexivity |].
  now rewrite IH, orb_assoc.
Qed.

Lemma replace_space_spec name :
  contains_char " " (replace_char " " "+" name) = false
  /\ String.length (replace_char " " "+" name) = String.length name.
Proof.
  induction name as [| c name [IH1 IH2]]; simpl; [auto |].
  destruct (Ascii.eqb c " ") eqn:E; simpl.
  - rewrite IH1, IH2. auto.
  - rewrite E, IH1, IH2. auto.
Qed.

(** [X18] The URL that [get_tivo_artist_ids] requests for a name never
    holds a space; the replacement keeps the length of the name, and a name
    without spaces goes into the URL unchanged. *)
Theorem artist_search_url_no_space name :
  contains_char " " (artist_search_url (replace_char " " "+" name)) = false
  /\ String.length (replace_char " " "+" name) = String.length name
  /\ (contains_char " " name = false -> replace_char " " "+" name = name).
Proof.
  destruct (replace_space_spec name) as [Hnone Hlen].
  split; [| split; [exact Hlen |]].
  - unfold artist_search_url. rewrite !contains_char_app, Hnone. reflexivity.
  - clear. induction name as [| c name IH]; simpl; [reflexivity |].
    destruct (Ascii.eqb c " "); simpl; [discriminate |].
    intros H. now rewrite IH.
Qed.

(** ** The further statements at concrete inputs *)

Lemma format_duration_round_trip_witness :
  format_duration 1000 = format_duration 1999 /\ (1000 / 1000 = 1999 / 1000)%Z.
Proof.
  split; [reflexivity |].
  apply (proj2 (format_duration_round_trip 1000) 1999%Z). reflexivity.
Defined.

Lemma get_followed_artists_cursor_witness :
  "0I2XqVXqHScXjHhk6AYYRe" <> ""
  /\ exists envelope answer,
      get_followed_artists demo_env 3 (Some "0I2XqVXqHScXjHhk6AYYRe") start
      = (Returns envelope,
         observed start
           (SpCall (sp.current_user_followed_artists 3 "artist"
                      (Some "0I2XqVXqHScXjHhk6AYYRe")) answer)).
Proof.
  assert (H : "0I2XqVXqHScXjHhk6AYYRe" <> "") by discriminate.
  split; [exact H |].
  exact (proj2 (get_followed_artists_cursor demo_env 3 start) _ H).
Defined.

Lemma create_playlist_needs_profile_witness :
  spotipy demo_env (trace start) sp.current_user = Raises "http status: 429"
  /\ create_playlist demo_env "Road trip" "" false start
     = (Returns (Failure "http status: 429" "Failed to create playlist"),
        observed start (SpCall sp.current_user (Raises "http status: 429")))
  /\ spotipy account (trace start) sp.current_user = Returns {| user_id := "wizzler" |}
  /\ exists envelope (answer : Outcome Playlist),
      create_playlist account "Road trip" "" false start
      = (Returns envelope,
         observed (observed start (SpCall sp.current_user
                                          (Returns {| user_id := "wizzler" |})))
                  (SpCall (sp.user_playlist_create "wizzler" "Road trip" "" false) answer))
      /\ match answer with
         | Returns playlist =>
             envelope = Success playlist ("Playlist '" ++ "Road trip"
                                            ++ "' created successfully")
         | Raises e => envelope = Failure e "Failed to create playlist"
         end.
Proof.
  split; [reflexivity |]. split.
  - apply (proj1 (create_playlist_needs_profile demo_env "Road trip" "" false start)).
    reflexivity.
  - split; [reflexivity |].
    apply (proj2 (create_playlist_needs_profile account "Road trip" "" false start)
                 {| user_id := "wizzler" |}).
    reflexivity.
Defined.

Lemma catalogue_operations_fail_fast_witness :
  get_tivo_artist_ids catalogue_down [] start = (Returns [], start)
  /\ httpx_get catalogue_down (trace start)
       (artist_search_url (replace_char " " "+" "Daft Punk"))
     = Raises "ConnectError: All connection attempts failed"
  /\ get_tivo_artist_ids catalogue_down ([] ++ "Daft Punk" :: ["Justice"]) start
     = (Raises "ConnectError: All connection attempts failed",
        observed start
          (HttpGet (artist_search_url (replace_char " " "+" "Daft Punk"))
                   (Raises "ConnectError: All connection attempts failed"))).
Proof.
  split; [reflexivity |]. split; [reflexivity |].
  apply (proj1 (catalogue_operations_fail_fast catalogue_down start)
               [] "Daft Punk" ["Justice"] [] start); reflexivity.
Defined.

Lemma get_tivo_artist_album_ids_entries_witness :
  exists d w',
    get_tivo_artist_album_ids demo_env ["MN0000667669"; "MN0000667669"] start
    = (Returns d, w')
    /\ NoDup (map fst d) /\ List.length d <= 2.
Proof.
  eexists. eexists. split; [vm_compute; reflexivity |].
  destruct (get_tivo_artist_album_ids_entries
              demo_env ["MN0000667669"; "MN0000667669"] start _ _ eq_refl)
    as (Hnodup & Hlen & _).
  split; [exact Hnodup | exact Hlen].
Defined.

Lemma recall_artists_requests_witness :
  tracks_present one_playlist
  /\ exists (answer : Outcome (Paging Playlist)) evs result w',
      recall_artists one_playlist 5 5 5 5 5 start = (Returns result, w')
      /\ trace w' = trace start ++ evs
      /\ rng w' = rng start
      /\ In (SpCall (sp.current_user_playlists 3 0) answer) evs
      /\ sp_requests evs
         = [sp.current_user_recently_played 5;
            sp.current_user_top_tracks "long_term" 5;
            sp.current_user_top_artists "long_term" 5;
            sp.current_user_followed_artists 3 "artist" None;
            sp.current_user_playlists 3 0]
             ++ map (fun playlist => sp.playlist_tracks (playlist_id playlist) 3 0)
                    (listed_playlists answer)
             ++ [sp.current_user_saved_albums 3 0; sp.current_user_saved_tracks 3 0]
      /\ requested_urls evs = [].
Proof.
  split; [exact one_playlist_tracks_present |].
  exact (proj1 (recall_artists_requests one_playlist 5 5 5 5 5 start)
               one_playlist_tracks_present).
Defined.

Lemma recall_artists_pairs_witness :
  tracks_present one_playlist
  /\ exists all ids names w',
      seven_sources one_playlist 5 5 start = (Returns all, w')
      /\ recall_artists one_playlist 5 5 5 5 5 start = (Returns (ids, names), w')
      /\ List.length names = List.length ids
      /\ List.length ids <= List.length all
      /\ forall id name,
          In (id, name) (combine ids names) ->
          exists artist,
            In artist all /\ artist_id artist = id /\ artist_name artist = name.
Proof.
  split; [exact one_playlist_tracks_present |].
  exact (proj1 (recall_artists_pairs one_playlist 5 5 5 5 5 start)
               one_playlist_tracks_present).
Defined.

Lemma deduplicate_idempotent_witness :
  NoDup ["4tZwfgrHOc3mvqYlEYSvVi"; "1gR0gsQYfi6joyO1dlp76N"]
  /\ deduplicate ["4tZwfgrHOc3mvqYlEYSvVi"; "1gR0gsQYfi6joyO1dlp76N"]
                 ["Daft Punk"; "Justice"]
     = (["4tZwfgrHOc3mvqYlEYSvVi"; "1gR0gsQYfi6joyO1dlp76N"], ["Daft Punk"; "Justice"]).
Proof.
  assert (H : NoDup ["4tZwfgrHOc3mvqYlEYSvVi"; "1gR0gsQYfi6joyO1dlp76N"]).
  { repeat constructor; simpl; intuition discriminate. }
  split; [exact H |].
  apply (proj1 (deduplicate_idempotent _ ["Daft Punk"; "Justice"])); [exact H | reflexivity].
Defined.

Lemma get_tivo_tracks_in_albums_bound_witness :
  exists tivo_tracks w',
    get_tivo_tracks_in_albums demo_env ["MW0000012345"] start = (Returns tivo_tracks, w')
    /\ List.length tivo_tracks <= 10 * 1.
Proof.
  eexists. eexists. split; [vm_compute; reflexivity |].
  exact (proj1 (get_tivo_tracks_in_albums_bound demo_env ["MW0000012345"] start _ _ eq_refl)).
Defined.

Lemma recall_all_tracks_bounds_witness :
  transport_ok demo_env /\ tracks_present demo_env
  /\ exists envelope w',
      recall_all_tracks demo_env start = (Returns envelope, w')
      /\ exists data message evs,
          envelope = Success data message
          /\ trace w' = trace start ++ evs
          /\ List.length (requested_urls evs) <= 12
          /\ List.length (search_queries evs) <= 60
          /\ List.length (tracks data) <= List.length (search_queries evs).
Proof.
  split; [exact demo_transport_ok |]. split; [exact demo_tracks_present |].
  destruct (recall_all_tracks_run demo_env (fun _ => True) start demo_transport_ok
              demo_tracks_present (fun _ _ => I))
    as (answers & w6 & kept & w' & _ & _ & _ & Hrun).
  exists (Success {| tracks := kept |} "Successfully recall tracks"), w'.
  split; [exact Hrun | exact (recall_all_tracks_bounds demo_env start _ _ Hrun)].
Defined.

Lemma random_fill_output_witness :
  transport_ok demo_env /\ tracks_present demo_env /\ (0 <= 1)%Z
  /\ exists envelope w',
      random_fill demo_env 1 start = (Returns envelope, w')
      /\ exists data message,
          envelope = Success data message
          /\ List.length (fill_tracks data) <= Z.to_nat 1
          /\ fill_track_ids data = map track_id (fill_tracks data)
          /\ fill_artist_names data = map joined_artist_names (fill_tracks data).
Proof.
  split; [exact demo_transport_ok |]. split; [exact demo_tracks_present |].
  split; [lia |].
  destruct (random_fill_returns demo_env 1 start demo_transport_ok demo_tracks_present
              ltac:(lia))
    as (envelope & w' & Hrun).
  exists envelope, w'.
  split; [exact Hrun | exact (proj2 (random_fill_output demo_env 1 start _ _ Hrun))].
Defined.

Lemma random_fill_negative_witness :
  transport_ok demo_env /\ tracks_present demo_env /\ (-1 < 0)%Z
  /\ exists ids names w1 artist_ids w2 artist_album_dict w3 tivo_tracks w4,
      recall_artists demo_env 5 5 5 5 5 start = (Returns (ids, names), w1)
      /\ get_tivo_artist_ids demo_env names w1 = (Returns artist_ids, w2)
      /\ get_tivo_artist_album_ids demo_env artist_ids w2 = (Returns artist_album_dict, w3)
      /\ get_tivo_tracks_in_artist_album_dict demo_env artist_album_dict w3
         = (Returns tivo_tracks, w4)
      /\ requested_urls (trace w4)
         = requested_urls (trace w1)
             ++ map (fun name => artist_search_url (replace_char " " "+" name)) names
             ++ map discography_url artist_ids
             ++ map album_url (List.concat (map snd artist_album_dict))
      /\ random_fill demo_env (-1) start
         = (Raises "ValueError: Sample larger than population or is negative", w4).
Proof.
  assert (Hneg : (-1 < 0)%Z) by lia.
  split; [exact demo_transport_ok |]. split; [exact demo_tracks_present |].
  split; [exact Hneg |].
  exact (random_fill_negative demo_env (-1) start demo_transport_ok demo_tracks_present
           Hneg).
Defined.

Lemma orchestrators_propagate_catalogue_failure_witness :
  exists w1,
    recall_artists catalogue_down 5 5 5 5 5 start
    = (Returns ([artist_id daft_punk], ["Daft Punk"]), w1)
    /\ recall_all_tracks catalogue_down start
       = (Raises "ConnectError: All connection attempts failed",
          observed w1 (HttpGet (artist_search_url (replace_char " " "+" "Daft Punk"))
                               (Raises "ConnectError: All connection attempts failed"))).
Proof.
  eexists. split; [vm_compute; reflexivity |].
  apply (proj1 (orchestrators_propagate_catalogue_failure
                  catalogue_down start [artist_id daft_punk] "Daft Punk" [] _
                  "ConnectError: All connection attempts failed" eq_refl eq_refl)).
Defined.

Lemma orchestrators_without_artists_witness :
  exists w1,
    recall_artists primary_down 5 5 5 5 5 start = (Returns ([], []), w1)
    /\ recall_all_tracks primary_down start
       = (Returns (Success {| tracks := [] |} "Successfully recall tracks"), w1).
Proof.
  eexists. split; [vm_compute; reflexivity |].
  apply (proj1 (orchestrators_without_artists primary_down start [] _ eq_refl)).
Defined.

Lemma artist_search_url_no_space_witness :
  contains_char " " "Justice" = false /\ replace_char " " "+" "Justice" = "Justice".
Proof.
  split; [reflexivity |].
  apply (proj2 (proj2 (artist_search_url_no_space "Justice"))). reflexivity.
Defined.
